(** * Notes-taking agent: the text pipeline of [app/services]

    A shallow embedding of the deterministic part of the repository:
    the heading segmenter, the pattern-based formula extractors, the
    chunker and the topic merger of [content_analyzer.py], and
    [extract_formulas] and [identify_topics] of [pdf_parser.py].  The
    language model behind [_enhance_formulas_with_ai] is a parameter
    of its model.

    Python strings are sequences of Unicode code points, regular
    expressions are run by a backtracking matcher that follows the
    order in which [re] explores alternatives, and the error paths of
    the Python code are kept as values of a [result] type. *)

From Stdlib Require Import String Ascii List NArith ZArith Arith Bool Lia.
From Stdlib Require Import Permutation Sorted DecimalString DecimalNat QArith.
Import ListNotations.
Close Scope Q_scope.
Close Scope Z_scope.

Set Implicit Arguments.

(** ** Python strings *)

Module Py.

(** A [str] is a list of code points. *)
Definition char := N.
Definition str := list char.

(** String literals of this file are ASCII; [s] reads one. *)
Definition s (x : string) : str := map N_of_ascii (list_ascii_of_string x).

Definition str_eqb (a b : str) : bool :=
  if list_eq_dec N.eq_dec a b then true else false.

Definition NL : char := 10%N.
Definition SP : char := 32%N.

(** The character tables of the interpreter.  They are not part of the
    repository; every general statement below holds whatever they are. *)
Class Unicode := {
  (** [str.isspace] on one character; also [\s], [strip] and [split()] *)
  isspace : char -> bool;
  (** value of a decimal digit (category Nd), [\d] *)
  decimal : char -> option N;
  (** [str.isdigit] on one character *)
  isdigit_char : char -> bool;
  (** [str.isalnum] on one character; [\w] adds the underscore *)
  isalnum : char -> bool;
  (** [str.lower] *)
  lower : str -> str;
  (** equality of a pattern character and a subject character under
      [re.IGNORECASE] *)
  caseless : char -> char -> bool;
  (** [int(x)] on a string of decimal digits, [None] for [ValueError] *)
  int_of : str -> option Z
}.

(** *** Exceptions *)

Inductive exn := AttributeError | IndexError | ValueError | TypeError.

Inductive result (A : Type) :=
| Ok (a : A)
| Raise (e : exn).
Arguments Ok {A} a.
Arguments Raise {A} e.

Definition bind {A B} (m : result A) (f : A -> result B) : result B :=
  match m with
  | Ok a => f a
  | Raise e => Raise e
  end.

(** [try: body except (e1, e2, ...): handler] *)
Definition try_except {A} (body : result A) (caught : exn -> bool)
           (handler : result A) : result A :=
  match body with
  | Ok a => Ok a
  | Raise e => if caught e then handler else Raise e
  end.

(** [t[i]] on a tuple *)
Definition index {A} (t : list A) (i : nat) : result A :=
  match nth_error t i with
  | Some a => Ok a
  | None => Raise IndexError
  end.

(** [t[-1]] *)
Definition index_last {A} (t : list A) : result A :=
  match t with
  | [] => Raise IndexError
  | _ => index t (length t - 1)
  end.

(** [x in t] for a list of strings *)
Definition mem (x : str) (t : list str) : bool := existsb (str_eqb x) t.

(** [sorted(l, key=...)] is a stable sort.  [before x y] tells that [x]
    may stand before [y]: [key x <= key y] for an ascending sort,
    [key x >= key y] with [reverse=True].  An element is put in front
    of the elements after it in [l] that it may stand before, so equal
    keys keep the order they have in [l]. *)
Section Sorted.
Variable A : Type.
Variable before : A -> A -> bool.

Fixpoint insert (x : A) (l : list A) : list A :=
  match l with
  | [] => [x]
  | y :: l' => if before x y then x :: l else y :: insert x l'
  end.

Fixpoint sorted (l : list A) : list A :=
  match l with
  | [] => []
  | x :: l' => insert x (sorted l')
  end.

End Sorted.

(** *** String methods *)

Fixpoint startswith (p t : str) : bool :=
  match p, t with
  | [], _ => true
  | c :: p', d :: t' => N.eqb c d && startswith p' t'
  | _ :: _, [] => false
  end.

(** [t.split(sep)] for a non-empty [sep]: [skip] counts the characters
    of a separator still to be passed over, [cur] is the piece being
    read, most recent character first. *)
Fixpoint split_go (sep : str) (skip : nat) (cur : str) (t : str) : list str :=
  match t with
  | [] => [rev cur]
  | c :: t' =>
      match skip with
      | S k => split_go sep k cur t'
      | O =>
          if startswith sep t
          then rev cur :: split_go sep (length sep - 1) [] t'
          else split_go sep 0 (c :: cur) t'
      end
  end.

Definition split (sep t : str) : list str := split_go sep 0 [] t.

(** [sep.join(l)] *)
Fixpoint join (sep : str) (l : list str) : str :=
  match l with
  | [] => []
  | [x] => x
  | x :: l' => x ++ sep ++ join sep l'
  end.

(** [t.replace(a, b)] for single characters *)
Definition replace_char (a b : char) (t : str) : str :=
  map (fun c => if N.eqb c a then b else c) t.

(** [t.replace(a, '')] for a single character *)
Definition remove_char (a : char) (t : str) : str :=
  filter (fun c => negb (N.eqb c a)) t.

(** [a in t] for a single character *)
Definition contains_char (a : char) (t : str) : bool :=
  existsb (N.eqb a) t.

(** [t[a:b]] for [0 <= a] *)
Definition slice (t : str) (a b : nat) : str := firstn (b - a) (skipn a t).

Section Tables.
Context {U : Unicode}.

Fixpoint lstrip (t : str) : str :=
  match t with
  | c :: t' => if isspace c then lstrip t' else t
  | [] => []
  end.

Definition rstrip (t : str) : str := rev (lstrip (rev t)).

Definition strip (t : str) : str := rstrip (lstrip t).

(** [x.strip()] where [x] may be [None] *)
Definition strip_opt (x : option str) : result str :=
  match x with
  | Some t => Ok (strip t)
  | None => Raise AttributeError
  end.

(** [t.isdigit()] *)
Definition isdigit (t : str) : bool :=
  match t with
  | [] => false
  | _ => forallb isdigit_char t
  end.

(** [t.split()]: the maximal runs of characters that are not white space *)
Fixpoint split_ws_go (cur : str) (t : str) : list str :=
  match t with
  | [] => match cur with [] => [] | _ => [rev cur] end
  | c :: t' =>
      if isspace c
      then match cur with
           | [] => split_ws_go [] t'
           | _ => rev cur :: split_ws_go [] t'
           end
      else split_ws_go (c :: cur) t'
  end.

Definition split_ws (t : str) : list str := split_ws_go [] t.

End Tables.

(** [str(n)] for a natural number *)
Definition str_of_nat (n : nat) : str :=
  s (NilEmpty.string_of_uint (Nat.to_uint n)).

(** *** The tables on Basic Latin

    The examples of this file are ASCII texts.  On U+0000..U+007F the
    tables below are those of CPython; other code points are left
    without class and without case. *)

Definition is_upper (c : char) : bool := (65 <=? c)%N && (c <=? 90)%N.
Definition is_lower (c : char) : bool := (97 <=? c)%N && (c <=? 122)%N.
Definition is_dec (c : char) : bool := (48 <=? c)%N && (c <=? 57)%N.
Definition lower_char (c : char) : char := if is_upper c then (c + 32)%N else c.

Fixpoint int_digits (acc : Z) (t : str) : option Z :=
  match t with
  | [] => Some acc
  | c :: t' =>
      if is_dec c then int_digits (10 * acc + Z.of_N (c - 48)) t' else None
  end.

Definition BasicLatin : Unicode := {|
  isspace c := ((9 <=? c)%N && (c <=? 13)%N) || ((28 <=? c)%N && (c <=? 32)%N);
  decimal c := if is_dec c then Some (c - 48)%N else None;
  isdigit_char := is_dec;
  isalnum c := is_upper c || is_lower c || is_dec c;
  lower := map lower_char;
  caseless a b := N.eqb (lower_char a) (lower_char b);
  int_of t := match t with [] => None | _ => int_digits 0 t end
|}.

End Py.

(** ** Regular expressions

    The patterns of the repository use character classes, repetition
    of one character class (greedy or lazy), sequence, alternation,
    capture groups and the anchors [^], [$] and [\b].  The matcher is a
    backtracking one in continuation-passing style: the continuation is
    the rest of the pattern, and alternatives are tried in the order
    [re] tries them, so that the first success is the match that [re]
    reports. *)

Module Re.
Import Py.

Inductive citem :=
| Ch (c : char)
| Rng (lo hi : char).

Inductive cclass :=
| OneOf (items : list citem)     (* [...] and literal characters *)
| NoneOf (items : list citem)    (* [^...] *)
| Space                          (* \s *)
| Digit                          (* \d *)
| Word                           (* \w *)
| Any.                           (* . *)

Inductive regex :=
| Eps
| One (c : cclass)
| Rep (c : cclass) (lo : nat) (hi : option nat) (greedy : bool)
| Seq (a b : regex)
| Alt (a b : regex)
| Grp (n : nat) (r : regex)
| Bol                            (* ^ *)
| Eol                            (* $ *)
| WordB.                         (* \b *)

Record flags := { IGNORECASE : bool; DOTALL : bool; MULTILINE : bool }.

(** Spans of the capture groups set so far, the most recent first. *)
Definition caps := list (nat * (nat * nat)).

Record rmatch := { m_start : nat; m_end : nat; m_caps : caps }.

Definition chr (c : string) : cclass := OneOf (map Ch (s c)).

(** A literal string. *)
Fixpoint lit_go (t : str) : regex :=
  match t with
  | [] => Eps
  | [c] => One (OneOf [Ch c])
  | c :: t' => Seq (One (OneOf [Ch c])) (lit_go t')
  end.
Definition lit (x : string) : regex := lit_go (s x).

Fixpoint seq_of (l : list regex) : regex :=
  match l with
  | [] => Eps
  | [r] => r
  | r :: l' => Seq r (seq_of l')
  end.

Definition star c := Rep c 0 None true.
Definition plus c := Rep c 1 None true.
Definition opt c := Rep c 0 (Some 1) true.
Definition at_least n c := Rep c n None true.

(** Number of capture groups of a pattern, the length of [match.groups()]. *)
Fixpoint ngroups (r : regex) : nat :=
  match r with
  | Seq a b | Alt a b => ngroups a + ngroups b
  | Grp _ r => S (ngroups r)
  | _ => 0
  end.

(** The patterns in which every match sets group [n]. *)
Fixpoint sets (n : nat) (r : regex) : bool :=
  match r with
  | Grp m r' => Nat.eqb m n || sets n r'
  | Seq a b => sets n a || sets n b
  | Alt a b => sets n a && sets n b
  | _ => false
  end.

Fixpoint lookup (n : nat) (cs : caps) : option (nat * nat) :=
  match cs with
  | [] => None
  | (m, sp) :: cs' => if Nat.eqb m n then Some sp else lookup n cs'
  end.

(** [m.group(n)] for [n >= 1], [None] when the group took no part. *)
Definition group (text : str) (m : rmatch) (n : nat) : option str :=
  match lookup n (m_caps m) with
  | Some (a, b) => Some (slice text a b)
  | None => None
  end.

(** [m.group(0)] *)
Definition group0 (text : str) (m : rmatch) : str :=
  slice text (m_start m) (m_end m).

(** [m.groups()] of a match of pattern [r] *)
Definition groups (r : regex) (text : str) (m : rmatch) : list (option str) :=
  map (fun n => group text m (S n)) (seq 0 (ngroups r)).

Section Matcher.
Context {U : Unicode}.
Variable fl : flags.

Definition is_word (c : char) : bool := isalnum c || N.eqb c 95.

Definition chars_between (lo hi : char) : list char :=
  map N.of_nat (seq (N.to_nat lo) (S (N.to_nat hi) - N.to_nat lo)).

Definition item_match (it : citem) (c : char) : bool :=
  match it with
  | Ch a => if IGNORECASE fl then caseless a c else N.eqb a c
  | Rng lo hi =>
      ((lo <=? c)%N && (c <=? hi)%N)
      || (IGNORECASE fl && existsb (fun a => caseless a c) (chars_between lo hi))
  end.

Definition cls_match (cl : cclass) (c : char) : bool :=
  match cl with
  | OneOf items => existsb (fun it => item_match it c) items
  | NoneOf items => negb (existsb (fun it => item_match it c) items)
  | Space => isspace c
  | Digit => match decimal c with Some _ => true | None => false end
  | Word => is_word c
  | Any => DOTALL fl || negb (N.eqb c NL)
  end.

Definition at_bol (prev : option char) : bool :=
  match prev with
  | None => true
  | Some c => MULTILINE fl && N.eqb c NL
  end.

Definition at_eol (rest : str) : bool :=
  match rest with
  | [] => true
  | c :: rest' =>
      N.eqb c NL && (MULTILINE fl || match rest' with [] => true | _ => false end)
  end.

Definition word_opt (c : option char) : bool :=
  match c with
  | Some c => is_word c
  | None => false
  end.

Definition at_wordb (prev : option char) (rest : str) : bool :=
  xorb (word_opt prev) (word_opt (hd_error rest)).

Definition may_take (hi : option nat) : bool :=
  match hi with
  | Some O => false
  | _ => true
  end.

Section Run.
Variable A : Type.

(** What is left to do: it receives the character before the current
    position, the position, the rest of the subject and the groups. *)
Definition cont := option char -> nat -> str -> caps -> option A.

(** Greedy repetition of a class: take one more character when that is
    allowed and leads to a match, otherwise stop here. *)
Fixpoint rep_greedy (cl : cclass) (lo : nat) (hi : option nat)
         (prev : option char) (pos : nat) (rest : str) (cs : caps)
         (k : cont) {struct rest} : option A :=
  let stop := fun _ : unit =>
    match lo with O => k prev pos rest cs | S _ => None end in
  match rest with
  | c :: rest' =>
      if may_take hi && cls_match cl c then
        match rep_greedy cl (pred lo) (option_map pred hi)
                         (Some c) (S pos) rest' cs k with
        | Some x => Some x
        | None => stop tt
        end
      else stop tt
  | [] => stop tt
  end.

(** Lazy repetition: stop here when that is allowed and leads to a
    match, otherwise take one more character. *)
Fixpoint rep_lazy (cl : cclass) (lo : nat) (hi : option nat)
         (prev : option char) (pos : nat) (rest : str) (cs : caps)
         (k : cont) {struct rest} : option A :=
  let more := fun _ : unit =>
    match rest with
    | c :: rest' =>
        if may_take hi && cls_match cl c then
          rep_lazy cl (pred lo) (option_map pred hi) (Some c) (S pos) rest' cs k
        else None
    | [] => None
    end in
  match lo with
  | O => match k prev pos rest cs with
         | Some x => Some x
         | None => more tt
         end
  | S _ => more tt
  end.

Fixpoint match_at (r : regex) (prev : option char) (pos : nat) (rest : str)
         (cs : caps) (k : cont) {struct r} : option A :=
  match r with
  | Eps => k prev pos rest cs
  | One cl =>
      match rest with
      | c :: rest' => if cls_match cl c then k (Some c) (S pos) rest' cs else None
      | [] => None
      end
  | Rep cl lo hi true => rep_greedy cl lo hi prev pos rest cs k
  | Rep cl lo hi false => rep_lazy cl lo hi prev pos rest cs k
  | Seq a b =>
      match_at a prev pos rest cs
               (fun prev' pos' rest' cs' => match_at b prev' pos' rest' cs' k)
  | Alt a b =>
      match match_at a prev pos rest cs k with
      | Some x => Some x
      | None => match_at b prev pos rest cs k
      end
  | Grp n r =>
      match_at r prev pos rest cs
               (fun prev' pos' rest' cs' => k prev' pos' rest' ((n, (pos, pos')) :: cs'))
  | Bol => if at_bol prev then k prev pos rest cs else None
  | Eol => if at_eol rest then k prev pos rest cs else None
  | WordB => if at_wordb prev rest then k prev pos rest cs else None
  end.

End Run.

(** A match of [r] that starts at the current position. *)
Definition match_here (r : regex) (prev : option char) (pos : nat) (rest : str)
  : option rmatch :=
  match_at r prev pos rest []
           (fun _ pos' _ cs => Some {| m_start := pos; m_end := pos'; m_caps := cs |}).

(** [re.match(r, text, fl)] *)
Definition re_match (r : regex) (text : str) : option rmatch :=
  match_here r None 0 text.

(** The scan of [re.finditer]: the leftmost match, then the leftmost
    match that starts where it ended, and so on.  [skip] counts the
    characters of the last match still to be passed over.  (No pattern
    of the repository matches the empty string.) *)
Fixpoint scan (r : regex) (skip : nat) (prev : option char) (pos : nat)
         (rest : str) {struct rest} : list rmatch :=
  match skip with
  | S k =>
      match rest with
      | c :: rest' => scan r k (Some c) (S pos) rest'
      | [] => []
      end
  | O =>
      match match_here r prev pos rest with
      | Some m =>
          m :: match rest with
               | c :: rest' => scan r (pred (m_end m - pos)) (Some c) (S pos) rest'
               | [] => []
               end
      | None =>
          match rest with
          | c :: rest' => scan r 0 (Some c) (S pos) rest'
          | [] => []
          end
      end
  end.

(** [re.finditer(r, text, fl)] *)
Definition finditer (r : regex) (text : str) : list rmatch := scan r 0 None 0 text.

(** [re.search(r, text, fl)] *)
Definition search (r : regex) (text : str) : option rmatch :=
  hd_error (finditer r text).

(** [re.sub(r, repl, text, fl)] for a replacement without group
    references: the text between the matches is kept, every match
    is replaced. *)
Fixpoint sub_go (repl : str) (ms : list rmatch) (pos : nat) (rest : str) : str :=
  match ms with
  | [] => rest
  | m :: ms' =>
      firstn (m_start m - pos) rest ++ repl
      ++ sub_go repl ms' (m_end m) (skipn (m_end m - pos) rest)
  end.

Definition sub (r : regex) (repl text : str) : str :=
  sub_go repl (finditer r text) 0 text.

(** [re.findall(r, text, fl)] for a pattern without groups *)
Definition findall (r : regex) (text : str) : list str :=
  map (group0 text) (finditer r text).

End Matcher.

Definition no_flags := {| IGNORECASE := false; DOTALL := false; MULTILINE := false |}.
Definition I := {| IGNORECASE := true; DOTALL := false; MULTILINE := false |}.
Definition M := {| IGNORECASE := false; DOTALL := false; MULTILINE := true |}.
Definition SI := {| IGNORECASE := true; DOTALL := true; MULTILINE := false |}.

End Re.

(** ** [app/models/schemas.py] *)

Module Schemas.
Import Py.

Inductive TopicType := CHAPTER | SECTION | SUBSECTION | CONCEPT.

Record Topic := {
  id : str;
  title : str;
  type : TopicType;
  level : Z;
  parent_id : option str;
  content : str;
  page_range : Z * Z;
  keywords : list str
}.

Definition with_parent_id (t : Topic) (p : option str) : Topic :=
  {| id := id t; title := title t; type := type t; level := level t;
     parent_id := p; content := content t; page_range := page_range t;
     keywords := keywords t |}.

Definition with_keywords (t : Topic) (k : list str) : Topic :=
  {| id := id t; title := title t; type := type t; level := level t;
     parent_id := parent_id t; content := content t; page_range := page_range t;
     keywords := k |}.

End Schemas.

(** ** [app/services/content_analyzer.py] *)

Module ContentAnalyzer.
Import Py Re Schemas.

(** *** The heading segmenter, [_identify_structural_topics] *)

(** [^Chapter\s+(\d+)[:\.]?\s*(.+)$] *)
Definition chapter_re : regex :=
  seq_of [Bol; lit "Chapter"; plus Space; Grp 1 (plus Digit); opt (chr ":.");
          star Space; Grp 2 (plus Any); Eol].

(** [^Section\s+(\d+)[:\.]?\s*(.+)$] *)
Definition section_re : regex :=
  seq_of [Bol; lit "Section"; plus Space; Grp 1 (plus Digit); opt (chr ":.");
          star Space; Grp 2 (plus Any); Eol].

(** [^(\d+)\.\s+(.+)$] *)
Definition numbered_re : regex :=
  seq_of [Bol; Grp 1 (plus Digit); lit "."; plus Space; Grp 2 (plus Any); Eol].

(** [^(\d+)\.(\d+)\s+(.+)$] *)
Definition subnumbered_re : regex :=
  seq_of [Bol; Grp 1 (plus Digit); lit "."; Grp 2 (plus Digit); plus Space;
          Grp 3 (plus Any); Eol].

(** [^#{1,3}\s+(.+)$] *)
Definition markdown_re : regex :=
  seq_of [Bol; Rep (chr "#") 1 (Some 3) true; plus Space; Grp 1 (plus Any); Eol].

Definition patterns : list (regex * Z * TopicType) :=
  [ (chapter_re, 1%Z, CHAPTER);
    (section_re, 2%Z, SECTION);
    (numbered_re, 2%Z, SECTION);
    (subnumbered_re, 3%Z, SUBSECTION);
    (markdown_re, 2%Z, SECTION) ].

(** [--- Page (\d+) ---] *)
Definition page_re : regex :=
  seq_of [lit "--- Page "; Grp 1 (plus Digit); lit " ---"].

(** [^(Chapter|Section|\d+\.|\#{1,3})] *)
Definition header_re : regex :=
  Seq Bol (Grp 1 (Alt (lit "Chapter")
                 (Alt (lit "Section")
                 (Alt (Seq (plus Digit) (lit "."))
                      (Rep (chr "#") 1 (Some 3) true))))).

(** [\b[A-Za-z]{3,}\b] *)
Definition word_re : regex :=
  seq_of [WordB; at_least 3 (OneOf [Rng 65%N 90%N; Rng 97%N 122%N]); WordB].

Definition stop_words : list str := map s [
    "the"; "and"; "for"; "are"; "but"; "not"; "you"; "all"; "can"; "had";
    "her"; "was"; "one"; "our"; "out"; "day"; "get"; "has"; "him"; "his";
    "how"; "its"; "may"; "new"; "now"; "old"; "see"; "two"; "who"; "boy";
    "did"; "man"; "way"; "she"; "use"; "her"; "many"; "oil"; "sit"; "set";
    "run"; "eat"; "far"; "sea"; "eye"; "ask"; "own"; "say"; "too"; "any";
    "try"; "let"; "put"; "end"; "why"; "turn"; "here"; "show"; "every";
    "good"; "me"; "give"; "our"; "under"; "name"; "very"; "through";
    "just"; "form"; "sentence"; "great"; "think"; "where"; "help"; "much";
    "before"; "move"; "right"; "too"; "means"; "old"; "any"; "same";
    "tell"; "boy"; "follow"; "came"; "want"; "show"; "also"; "around";
    "farm"; "three"; "small"; "set"; "put"; "end"; "does"; "another";
    "well"; "large"; "must"; "big"; "even"; "such"; "because"; "turn";
    "here"; "why"; "ask"; "went"; "men"; "read"; "need"; "land";
    "different"; "home"; "us"; "move"; "try"; "kind"; "hand"; "picture";
    "again"; "change"; "off"; "play"; "spell"; "air"; "away"; "animal";
    "house"; "point"; "page"; "letter"; "mother"; "answer"; "found";
    "study"; "still"; "learn"; "should"; "america"; "world" ]%string.

Definition is_chapter (ty : TopicType) : bool :=
  match ty with CHAPTER => true | _ => false end.

(** *** The patterns of [_extract_formulas_by_pattern] *)

Definition ident_start : cclass := OneOf [Rng 65%N 90%N; Rng 97%N 122%N; Ch 95%N].
Definition not_sep : cclass := NoneOf [Ch 44%N; Ch 46%N; Ch NL].   (* [^,\.\n] *)
Definition INTEGRAL : char := 8747%N.
Definition SUM : char := 8721%N.
Definition PRODUCT : char := 8719%N.
Definition PARTIAL : char := 8706%N.

(** [\$\$([^$]+)\$\$] *)
Definition display_math_re : regex :=
  seq_of [lit "$$"; Grp 1 (plus (NoneOf [Ch 36%N])); lit "$$"].

(** [\$([^$\n]{3,})\$] *)
Definition inline_math_re : regex :=
  seq_of [lit "$"; Grp 1 (at_least 3 (NoneOf [Ch 36%N; Ch NL])); lit "$"].

(** [\\begin\{equation\}(.*?)\\end\{equation\}] *)
Definition equation_env_re : regex :=
  seq_of [lit "\begin{equation}"; Grp 1 (Rep Any 0 None false); lit "\end{equation}"].

(** [\\begin\{align\}(.*?)\\end\{align\}] *)
Definition align_env_re : regex :=
  seq_of [lit "\begin{align}"; Grp 1 (Rep Any 0 None false); lit "\end{align}"].

(** [([A-Za-z_]\w*\s*=\s*[^,\.\n]{5,})] *)
Definition equation_re : regex :=
  Grp 1 (seq_of [One ident_start; star Word; star Space; lit "="; star Space;
                 at_least 5 not_sep]).

(** [([∫∑∏][^,\.\n]{3,})] *)
Definition integral_sum_re : regex :=
  Grp 1 (seq_of [One (OneOf [Ch INTEGRAL; Ch SUM; Ch PRODUCT]); at_least 3 not_sep]).

(** [([A-Za-z_]\w*\([^)]+\)\s*=\s*[^,\.\n]{3,})] *)
Definition function_re : regex :=
  Grp 1 (seq_of [One ident_start; star Word; lit "("; plus (NoneOf [Ch 41%N]);
                 lit ")"; star Space; lit "="; star Space; at_least 3 not_sep]).

(** [d[A-Za-z_]\w*/d[A-Za-z_]\w*[^,\.\n]*], the whole of it in group 1 *)
Definition derivative_re : regex :=
  Grp 1 (seq_of [lit "d"; One ident_start; star Word; lit "/"; lit "d";
                 One ident_start; star Word; star not_sep]).

(** [∂[A-Za-z_]\w*/∂[A-Za-z_]\w*[^,\.\n]*], the whole of it in group 1 *)
Definition partial_derivative_re : regex :=
  Grp 1 (seq_of [One (OneOf [Ch PARTIAL]); One ident_start; star Word; lit "/";
                 One (OneOf [Ch PARTIAL]); One ident_start; star Word; star not_sep]).

Definition formula_patterns : list (regex * str) :=
  [ (display_math_re, s "display_math");
    (inline_math_re, s "inline_math");
    (equation_env_re, s "equation");
    (align_env_re, s "align");
    (equation_re, s "equation");
    (integral_sum_re, s "integral_sum");
    (function_re, s "function");
    (derivative_re, s "derivative");
    (partial_derivative_re, s "partial_derivative") ].

(** The dictionaries of [_extract_formulas_by_pattern]. *)
Record formula := {
  f_id : str;
  latex : str;
  f_type : str;
  context : str;
  position : nat;
  raw_match : str
}.

(** Objects live in a store: a list of topics is a list of references,
    and an assignment to a field of a topic is seen through every
    reference to it. *)
Definition ref := nat.
Definition heap := ref -> Topic.

Definition upd (h : heap) (r : ref) (t : Topic) : heap :=
  fun r' => if Nat.eqb r' r then t else h r'.

Record chunk_state := {
  chunks : list str;
  current_chunk : str
}.

(** [len(text) // 4] *)
Definition tokens (text : str) : Z := (Z.of_nat (length text) / 4)%Z.

Section Tables.
Context {U : Unicode}.

(** [int(x)] *)
Definition py_int (x : option str) : result Z :=
  match x with
  | None => Raise TypeError
  | Some t => match int_of t with
              | Some z => Ok z
              | None => Raise ValueError
              end
  end.

Definition count_word (d : list (str * nat)) (w : str) : list (str * nat) :=
  (fix go (d : list (str * nat)) : list (str * nat) :=
     match d with
     | [] => [(w, 1)]
     | (k, n) :: d' => if str_eqb k w then (k, n + 1) :: d' else (k, n) :: go d'
     end) d.

(** [key=lambda x: x[1], reverse=True] *)
Definition by_freq_desc (x y : str * nat) : bool := snd y <=? snd x.

Definition _extract_keywords (text : str) : list str :=
  let words := findall no_flags word_re (lower text) in
  let filtered_words :=
    filter (fun word => negb (mem word stop_words) && (3 <? length word)) words in
  let word_freq := fold_left count_word filtered_words [] in
  let sorted_words := sorted by_freq_desc word_freq in
  map fst (filter (fun wf => 1 <? snd wf) (firstn 10 sorted_words)).

(** The loop of [_extract_topic_content] over the lines it ranges over. *)
Fixpoint content_lines (ls : list str) : list str :=
  match ls with
  | [] => []
  | raw :: ls' =>
      let line := strip raw in
      match re_match I header_re line with
      | Some _ => []
      | None =>
          match line with
          | [] => content_lines ls'
          | _ => if startswith (s "--- Page") line
                 then content_lines ls'
                 else line :: content_lines ls'
          end
      end
  end.

Definition _extract_topic_content (lines : list str) (start_line max_lines : nat) : str :=
  let stop := Nat.min (start_line + max_lines) (length lines) in
  join [NL] (content_lines (firstn (stop - (start_line + 1))
                                   (skipn (start_line + 1) lines))).

(** One pass of the inner loop of [_set_parent_relationships]: the
    nearest topic before index [i] whose level is lower.  [before]
    holds the topics at [i-1], ..., [0] in that order. *)
Definition find_parent (before : list Topic) (lvl : Z) : option Topic :=
  find (fun p => (level p <? lvl)%Z) before.

Fixpoint set_parents (before : list Topic) (topics : list Topic) : list Topic :=
  match topics with
  | [] => []
  | topic :: rest =>
      let topic' :=
        match find_parent before (level topic) with
        | Some p => with_parent_id topic (Some (id p))
        | None => topic
        end in
      topic' :: set_parents (topic' :: before) rest
  end.

Definition _set_parent_relationships (topics : list Topic) : list Topic :=
  set_parents [] topics.

Record seg_state := {
  topics : list Topic;
  topic_id : nat;
  current_page : Z
}.

(** The title taken from the groups of a heading match. *)
Definition title_of (topic_type : TopicType) (groups : list (option str))
           (whole : str) : result str :=
  if is_chapter topic_type then
    if 2 <=? length groups
    then bind (index groups 1) strip_opt
    else bind (index groups 0) strip_opt
  else if 3 <=? length groups then bind (index groups 2) strip_opt
  else if 1 <=? length groups then bind (index_last groups) strip_opt
  else Ok (strip whole).

Definition caught_attr_index (e : exn) : bool :=
  match e with AttributeError | IndexError => true | _ => false end.

Definition caught_attr_value (e : exn) : bool :=
  match e with AttributeError | ValueError => true | _ => false end.

(** The body of [if match:] up to the [break]. *)
Definition on_match (lines : list str) (line_num : nat) (line : str)
           (pattern : regex) (lvl : Z) (topic_type : TopicType) (m : rmatch)
           (st : seg_state) : result seg_state :=
  bind (title_of topic_type (groups pattern line m) (group0 line m)) (fun title =>
  if (2 <? length title) && negb (isdigit title) then
    let content := _extract_topic_content lines line_num 50 in
    Ok {| topics := topics st ++ [
            {| id := s "topic_" ++ str_of_nat (topic_id st);
               title := title;
               type := topic_type;
               level := lvl;
               parent_id := None;
               content := content;
               page_range := (current_page st, current_page st);
               keywords := _extract_keywords content |} ];
          topic_id := topic_id st + 1;
          current_page := current_page st |}
  else Ok st).

(** [for pattern, level, topic_type in patterns]: the first pattern
    that matches decides; an [AttributeError] or [IndexError] in the
    body goes on with the next pattern. *)
Fixpoint try_patterns (pats : list (regex * Z * TopicType)) (lines : list str)
         (line_num : nat) (line : str) (st : seg_state) : result seg_state :=
  match pats with
  | [] => Ok st
  | (pattern, lvl, topic_type) :: pats' =>
      match re_match I pattern line with
      | Some m =>
          try_except (on_match lines line_num line pattern lvl topic_type m st)
                     caught_attr_index
                     (try_patterns pats' lines line_num line st)
      | None => try_patterns pats' lines line_num line st
      end
  end.

(** The page number after a line that starts with [--- Page ]. *)
Definition track_page (line : str) (page : Z) : result Z :=
  try_except
    match search no_flags page_re line with
    | Some page_match => py_int (group line page_match 1)
    | None => Ok page
    end
    caught_attr_value
    (Ok page).

(** The body of [for line_num, line in enumerate(lines)]. *)
Definition step (lines : list str) (st : seg_state) (it : nat * str)
  : result seg_state :=
  let line_num := fst it in
  let line := strip (snd it) in
  if startswith (s "--- Page ") line then
    bind (track_page line (current_page st)) (fun page =>
    Ok {| topics := topics st; topic_id := topic_id st; current_page := page |})
  else if length line <? 3 then Ok st
  else try_patterns patterns lines line_num line st.

Fixpoint loop (lines : list str) (items : list (nat * str)) (st : seg_state)
  : result seg_state :=
  match items with
  | [] => Ok st
  | it :: items' => bind (step lines st it) (loop lines items')
  end.

Definition enumerate {A} (l : list A) : list (nat * A) :=
  combine (seq 0 (length l)) l.

Definition _identify_structural_topics (text : str) : result (list Topic) :=
  let lines := split [NL] text in
  bind (loop lines (enumerate lines)
             {| topics := []; topic_id := 1; current_page := 1 |}) (fun st =>
  Ok (_set_parent_relationships (topics st))).

(** *** [_extract_formulas_by_pattern] *)

Record fx_state := {
  formulas : list formula;
  formula_id : nat
}.

(** The body of [for match in matches]. *)
Definition on_formula (text : str) (pattern : regex) (formula_type : str)
           (st : fx_state) (m : rmatch) : result fx_state :=
  bind (strip_opt (if 0 <? length (groups pattern text m)
                   then group text m 1
                   else Some (group0 text m))) (fun formula_text =>
  if (length formula_text <? 3) || isdigit formula_text then Ok st
  else
    let start_pos := m_start m - 100 in
    let end_pos := Nat.min (length text) (m_end m + 100) in
    let context := strip (replace_char NL SP (slice text start_pos end_pos)) in
    Ok {| formulas := formulas st ++ [
            {| f_id := s "formula_" ++ str_of_nat (formula_id st);
               latex := formula_text;
               f_type := formula_type;
               context := context;
               position := m_start m;
               raw_match := group0 text m |} ];
          formula_id := formula_id st + 1 |}).

Fixpoint for_matches (text : str) (pattern : regex) (formula_type : str)
         (ms : list rmatch) (st : fx_state) : result fx_state :=
  match ms with
  | [] => Ok st
  | m :: ms' =>
      bind (on_formula text pattern formula_type st m)
           (for_matches text pattern formula_type ms')
  end.

Fixpoint for_patterns (text : str) (pats : list (regex * str)) (st : fx_state)
  : result fx_state :=
  match pats with
  | [] => Ok st
  | (pattern, formula_type) :: pats' =>
      bind (for_matches text pattern formula_type (finditer SI pattern text) st)
           (for_patterns text pats')
  end.

(** [re.sub(r'\s+', '', latex.lower())] *)
Definition normalized (f : formula) : str :=
  sub no_flags (plus Space) [] (lower (latex f)).

(** The normalized key of the specification: the text in lower case,
    without its white space. *)
Definition normal_form (t : str) : str :=
  filter (fun c => negb (isspace c)) (lower t).

(** The loop that removes duplicates, over the sorted candidates. *)
Fixpoint unique (seen_formulas : list str) (fs : list formula) : list formula :=
  match fs with
  | [] => []
  | f :: fs' =>
      if negb (mem (normalized f) seen_formulas) && (2 <? length (normalized f))
      then f :: unique (normalized f :: seen_formulas) fs'
      else unique seen_formulas fs'
  end.

Definition by_position (x y : formula) : bool := position x <=? position y.

(** The candidates, before duplicates are removed. *)
Definition candidates (text : str) : result (list formula) :=
  bind (for_patterns text formula_patterns {| formulas := []; formula_id := 1 |})
       (fun st => Ok (formulas st)).

Definition _extract_formulas_by_pattern (text : str) : result (list formula) :=
  bind (candidates text) (fun formulas =>
  Ok (unique [] (sorted by_position formulas))).

(** *** [_split_text_into_chunks] *)

(** The body of [for sentence in sentences]. *)
Definition add_sentence (max_tokens : Z) (st : chunk_state) (sentence : str)
  : chunk_state :=
  if (max_tokens <? tokens (current_chunk st ++ sentence))%Z then
    match current_chunk st with
    | _ :: _ => {| chunks := chunks st ++ [current_chunk st];
                   current_chunk := sentence |}
    | [] => {| chunks := chunks st ++ [sentence];
               current_chunk := current_chunk st |}
    end
  else
    {| chunks := chunks st;
       current_chunk := match current_chunk st with
                        | _ :: _ => current_chunk st ++ s ". " ++ sentence
                        | [] => sentence
                        end |}.

(** The body of [for paragraph in paragraphs]. *)
Definition add_paragraph (max_tokens : Z) (st : chunk_state) (paragraph : str)
  : chunk_state :=
  let test_chunk := match current_chunk st with
                    | _ :: _ => current_chunk st ++ [NL; NL] ++ paragraph
                    | [] => paragraph
                    end in
  if (max_tokens <? tokens test_chunk)%Z then
    match current_chunk st with
    | _ :: _ => {| chunks := chunks st ++ [current_chunk st];
                   current_chunk := paragraph |}
    | [] => fold_left (add_sentence max_tokens) (split (s ". ") paragraph) st
    end
  else {| chunks := chunks st; current_chunk := test_chunk |}.

Definition _split_text_into_chunks (text : str) (max_tokens : Z) : list str :=
  if (tokens text <=? max_tokens)%Z then [text]
  else
    let st := fold_left (add_paragraph max_tokens) (split [NL; NL] text)
                        {| chunks := []; current_chunk := [] |} in
    match current_chunk st with
    | _ :: _ => chunks st ++ [current_chunk st]
    | [] => chunks st
    end.

(** *** [_merge_topics] *)

(** [set(l)], as the list of its elements *)
Definition set_of (l : list str) : list str := nodup (list_eq_dec N.eq_dec) l.

(** [_calculate_similarity] returns the quotient of two lengths as a
    float, which its caller compares with [0.7].  The quotient is kept
    exact here: the double nearest to [a/b] is above the double
    nearest to [7/10] exactly when [a/b > 7/10], for all lengths below
    [2^50]. *)
Definition _calculate_similarity (text1 text2 : str) : Q :=
  let words1 := set_of (split_ws text1) in
  let words2 := set_of (split_ws text2) in
  match words1, words2 with
  | [], _ | _, [] => 0%Q
  | _, _ =>
      let intersection := filter (fun w => mem w words2) words1 in
      let union := set_of (words1 ++ words2) in
      (Z.of_nat (length intersection) # Pos.of_nat (length union))%Q
  end.

Definition similar (title1 title2 : str) : bool :=
  negb (Qle_bool (_calculate_similarity (lower title1) (lower title2)) (7 # 10)).

(** The order in which [list(set(l))] lists the elements; it depends on
    the hashes of the strings. *)
Variable list_of_set : list str -> list str.

(** [for existing_topic in merged_topics]: the first topic whose title
    is similar to the candidate's, if there is one. *)
Definition find_duplicate (h : heap) (ai_topic : ref) (merged_topics : list ref)
  : option ref :=
  find (fun existing_topic =>
          similar (title (h ai_topic)) (title (h existing_topic)))
       merged_topics.

(** The body of [for ai_topic in ai_topics]. *)
Definition merge_step (st : heap * list ref) (ai_topic : ref) : heap * list ref :=
  let (h, merged_topics) := st in
  match find_duplicate h ai_topic merged_topics with
  | Some existing_topic =>
      let extended := keywords (h existing_topic) ++ keywords (h ai_topic) in
      (upd h existing_topic (with_keywords (h existing_topic) (list_of_set extended)),
       merged_topics)
  | None =>
      if 3 <? length (title (h ai_topic))
      then (h, merged_topics ++ [ai_topic])
      else (h, merged_topics)
  end.

Definition _merge_topics (h : heap) (structural_topics ai_topics : list ref)
  : heap * list ref :=
  fold_left merge_step ai_topics (h, structural_topics).

End Tables.

End ContentAnalyzer.

(** ** [app/services/pdf_parser.py] *)

Module PdfParser.
Import Py Re.

(** The dictionaries of [extract_formulas]. *)
Record formula := {
  f_id : str;
  latex : str;
  raw_text : str;
  start_pos : nat;
  end_pos : nat;
  f_type : str
}.

Definition not_sep : cclass := NoneOf [Ch 44%N; Ch 46%N; Ch NL].
Definition letter : cclass := OneOf [Rng 97%N 122%N; Rng 65%N 90%N].

(** [\$\$([^$]+)\$\$], [\$([^$]+)\$] and the environments
    [equation], [align] and [gather] *)
Definition latex_patterns : list regex :=
  [ seq_of [lit "$$"; Grp 1 (plus (NoneOf [Ch 36%N])); lit "$$"];
    seq_of [lit "$"; Grp 1 (plus (NoneOf [Ch 36%N])); lit "$"];
    seq_of [lit "\begin{equation}"; Grp 1 (Rep Any 0 None false); lit "\end{equation}"];
    seq_of [lit "\begin{align}"; Grp 1 (Rep Any 0 None false); lit "\end{align}"];
    seq_of [lit "\begin{gather}"; Grp 1 (Rep Any 0 None false); lit "\end{gather}"] ].

(** [([a-zA-Z]\s*=\s*[^,\.\n]+)], [([∫∑∏][^,\.\n]+)] and
    [([a-zA-Z]+\([^)]+\)\s*=\s*[^,\.\n]+)] *)
Definition math_patterns : list regex :=
  [ Grp 1 (seq_of [One letter; star Space; lit "="; star Space; plus not_sep]);
    Grp 1 (seq_of [One (OneOf [Ch 8747%N; Ch 8721%N; Ch 8719%N]); plus not_sep]);
    Grp 1 (seq_of [plus letter; lit "("; plus (NoneOf [Ch 41%N]); lit ")";
                   star Space; lit "="; star Space; plus not_sep]) ].

Record fx_state := {
  formulas : list formula;
  formula_id : nat
}.

Section Tables.
Context {U : Unicode}.

(** The body of both [for match in matches] loops; [keep] is the test
    on the stripped text of group 1. *)
Definition on_formula (text : str) (keep : str -> bool) (type : str)
           (st : fx_state) (m : rmatch) : result fx_state :=
  bind (strip_opt (group text m 1)) (fun formula_text =>
  if keep formula_text then
    Ok {| formulas := formulas st ++ [
            {| f_id := s "formula_" ++ str_of_nat (formula_id st);
               latex := formula_text;
               raw_text := group0 text m;
               start_pos := m_start m;
               end_pos := m_end m;
               f_type := type |} ];
          formula_id := formula_id st + 1 |}
  else Ok st).

Fixpoint for_matches (text : str) (keep : str -> bool) (type : str)
         (ms : list rmatch) (st : fx_state) : result fx_state :=
  match ms with
  | [] => Ok st
  | m :: ms' => bind (on_formula text keep type st m) (for_matches text keep type ms')
  end.

Fixpoint for_patterns (fl : flags) (text : str) (keep : str -> bool) (type : str)
         (pats : list regex) (st : fx_state) : result fx_state :=
  match pats with
  | [] => Ok st
  | pattern :: pats' =>
      bind (for_matches text keep type (finditer fl pattern text) st)
           (for_patterns fl text keep type pats')
  end.

(** [formula['latex'].replace(' ', '').lower()] *)
Definition formula_key (f : formula) : str := lower (remove_char SP (latex f)).

Fixpoint unique (seen_formulas : list str) (fs : list formula) : list formula :=
  match fs with
  | [] => []
  | f :: fs' =>
      if negb (mem (formula_key f) seen_formulas)
      then f :: unique (formula_key f :: seen_formulas) fs'
      else unique seen_formulas fs'
  end.

Definition by_start_pos (x y : formula) : bool := start_pos x <=? start_pos y.

(** The candidates of both loops, before duplicates are removed. *)
Definition candidates (text : str) : result (list formula) :=
  bind (for_patterns SI text (fun t => 2 <? length t) (s "latex") latex_patterns
                     {| formulas := []; formula_id := 1 |}) (fun st =>
  bind (for_patterns M text
                     (fun t => (3 <? length t) && contains_char 61%N t)
                     (s "expression") math_patterns st) (fun st =>
  Ok (formulas st))).

Definition extract_formulas (text : str) : result (list formula) :=
  bind (candidates text) (fun formulas =>
  Ok (unique [] (sorted by_start_pos formulas))).

End Tables.

End PdfParser.

(** ** Notions used by the statements *)

Module Props.
Import Py Re Schemas ContentAnalyzer.

(** [l1] is [l2] with some elements left out. *)
Inductive subseq (A : Type) : list A -> list A -> Prop :=
| subseq_nil : subseq [] []
| subseq_skip x l1 l2 : subseq l1 l2 -> subseq l1 (x :: l2)
| subseq_keep x l1 l2 : subseq l1 l2 -> subseq (x :: l1) (x :: l2).

(** The first element of every key that passes the test [ok] and is
    not in [seen]: what both loops that remove duplicates compute. *)
Fixpoint keep_first (A : Type) (key : A -> str) (ok : str -> bool)
         (seen : list str) (l : list A) : list A :=
  match l with
  | [] => []
  | x :: l' =>
      if negb (mem (key x) seen) && ok (key x)
      then x :: keep_first key ok (key x :: seen) l'
      else keep_first key ok seen l'
  end.

(** Two states of a topic that differ at most in the keywords. *)
Definition same_but_keywords (t t' : Topic) : Prop :=
  id t' = id t /\ title t' = title t /\ type t' = type t /\ level t' = level t
  /\ parent_id t' = parent_id t /\ content t' = content t
  /\ page_range t' = page_range t.

(** [len(topic.title) > 3] for the topic behind a reference *)
Definition long_title (h : heap) (r : ref) : bool := 3 <? length (title (h r)).

Section Tables.
Context {U : Unicode}.

(** Number of white-space characters at the head of a string. *)
Fixpoint span (t : str) : nat :=
  match t with
  | c :: t' => if isspace c then S (span t') else 0
  | [] => 0
  end.

Definition not_space (c : char) : bool := negb (isspace c).

(** A step of the segmenter has appended a topic for a heading match. *)
Definition appended (st st' : seg_state) (line : str) : Prop :=
  exists t pat lvl ty m,
    In (pat, lvl, ty) patterns
    /\ re_match I pat line = Some m
    /\ topics st' = topics st ++ [t]
    /\ topic_id st' = topic_id st + 1
    /\ current_page st' = current_page st
    /\ id t = s "topic_" ++ str_of_nat (topic_id st)
    /\ level t = lvl
    /\ parent_id t = None.

Definition same_topics (st st' : seg_state) : Prop :=
  topics st' = topics st /\ topic_id st' = topic_id st.

(** The topics found so far are numbered from 1 and have no parent. *)
Definition numbered (st : seg_state) : Prop :=
  topic_id st = length (topics st) + 1
  /\ forall i t, nth_error (topics st) i = Some t ->
                 id t = s "topic_" ++ str_of_nat (S i) /\ parent_id t = None.

(** The keywords as the specification words them, for words of at
    least [min_length] letters. *)
Definition keywords_by (min_length : nat) (text : str) : list str :=
  let words := findall no_flags word_re (lower text) in
  let long_words := filter (fun w => min_length <=? length w) words in
  let kept := filter (fun w => negb (mem w stop_words)) long_words in
  let counted := fold_left count_word kept [] in
  let frequent := filter (fun wf => 1 <? snd wf) counted in
  map fst (firstn 10 (sorted by_freq_desc frequent)).

End Tables.

(** *** The texts and topics of the examples *)

Definition a_b : str := s "$a b$".

Definition law : str := s "The law states: $$F = ma$$ and also $F=ma$".

Definition waves : str :=
  s "Chapter 1: Waves" ++ [NL] ++ s "Waves are periodic." ++ [NL; NL]
  ++ s "Section 1.1 Frequency" ++ [NL] ++ s "Frequency is cycles per second.".

Definition plain_text : str := s "This is just plain text without structure".

Definition cats : str := s "cat cat".

Definition abc : str := s "A. B. C.".

Definition two_paragraphs : str := s "ab" ++ [NL; NL] ++ s "Aaaa. Bbbb. Cccc".

Definition tabbed : str := s "$a" ++ [9%N] ++ s "b=c$ and $ab=c$".

Definition candidate (n : nat) (t : string) (k : list string) : Topic :=
  {| id := s "ai_topic_0_" ++ str_of_nat n; title := s t; type := CONCEPT;
     level := 2%Z; parent_id := None; content := []; page_range := (1%Z, 1%Z);
     keywords := map s k |}.

(** A store with two candidates titled alike and one titled differently. *)
Definition store : heap := fun r =>
  match r with
  | 0 => candidate 0 "Quantum Physics" ["physics"; "quantum"]%string
  | 1 => candidate 1 "Quantum Physics" ["quantum"]%string
  | _ => candidate 2 "Wave Functions" ["wave"; "function"]%string
  end.

End Props.

(** ** Notions used by the further properties *)

Module ChunkProps.
Import Py ContentAnalyzer.

(** A chunk that the packing may return: within one token of the
    budget, or a whole paragraph, or a whole sentence of a paragraph. *)
Definition packed (text : str) (max_tokens : Z) (chunk : str) : Prop :=
  (tokens chunk <= max_tokens + 1)%Z
  \/ In chunk (split [NL; NL] text)
  \/ exists paragraph,
       In paragraph (split [NL; NL] text) /\ In chunk (split (s ". ") paragraph).

(** The characters that the separators of the chunker are made of. *)
Definition is_separator (c : char) : bool :=
  N.eqb c 46 || N.eqb c SP || N.eqb c NL.

(** A text without full stops, spaces and line feeds. *)
Definition letters (t : str) : str := filter (fun c => negb (is_separator c)) t.

(** What the chunks and the chunk being built satisfy. *)
Definition all_chunks (P : str -> Prop) (st : chunk_state) : Prop :=
  Forall P (chunks st) /\ (current_chunk st = [] \/ P (current_chunk st)).

(** The text of a state: the chunks, then the chunk being built. *)
Definition content (st : chunk_state) : str :=
  concat (chunks st) ++ current_chunk st.

End ChunkProps.

Module SegProps.
Import Py Re Schemas ContentAnalyzer Props.

Section Tables.
Context {U : Unicode}.

(** What every topic of the segmenter satisfies. *)
Definition well_formed (t : Topic) : Prop :=
  In (type t, level t) [(CHAPTER, 1%Z); (SECTION, 2%Z); (SUBSECTION, 3%Z)]
  /\ 2 < length (title t)
  /\ isdigit (title t) = false
  /\ strip (title t) = title t
  /\ fst (page_range t) = snd (page_range t)
  /\ keywords t = _extract_keywords (content t).

(** The topic that [on_match] appends. *)
Definition new_topic (lines : list str) (line_num : nat) (lvl : Z)
           (topic_type : TopicType) (title : str) (st : seg_state) : Topic :=
  let content := _extract_topic_content lines line_num 50 in
  {| id := s "topic_" ++ str_of_nat (topic_id st);
     title := title;
     type := topic_type;
     level := lvl;
     parent_id := None;
     content := content;
     page_range := (current_page st, current_page st);
     keywords := _extract_keywords content |}.

(** A step of the segmenter that appends a topic. *)
Definition appends (lines : list str) (line_num : nat) (st st' : seg_state) : Prop :=
  exists pat lvl ty x,
    In (pat, lvl, ty) patterns
    /\ 2 < length (strip x)
    /\ isdigit (strip x) = false
    /\ st' = {| topics := topics st ++ [new_topic lines line_num lvl ty (strip x) st];
                topic_id := topic_id st + 1;
                current_page := current_page st |}.

Definition page_marker (line : str) : bool := startswith (s "--- Page ") (strip line).

End Tables.
End SegProps.

Module Numbering.
Import Py.

(** The identifiers given so far are [prefix1], [prefix2], ... in the
    order of the list, and [next] is the number of the next one. *)
Definition counted_ids (A : Type) (prefix : str) (ident : A -> str)
           (l : list A) (next : nat) : Prop :=
  next = length l + 1
  /\ forall i x, nth_error l i = Some x -> ident x = prefix ++ str_of_nat (S i).

End Numbering.

Module FormulaProps.
Import Py Re Schemas ContentAnalyzer Numbering.

Section Tables.
Context {U : Unicode}.

(** What the extraction loop of [_extract_formulas_by_pattern] puts in
    a dictionary for a match of a pattern of type [formula_type]. *)
Definition formula_fields (f : formula) : Prop :=
  strip (latex f) = latex f
  /\ 3 <= length (latex f)
  /\ isdigit (latex f) = false
  /\ In (f_type f) (map snd formula_patterns)
  /\ strip (context f) = context f
  /\ ~ In NL (context f).

(** What the loops of [extract_formulas] put in a dictionary. *)
Definition pdf_formula_fields (text : str) (f : PdfParser.formula) : Prop :=
  strip (PdfParser.latex f) = PdfParser.latex f
  /\ PdfParser.raw_text f = slice text (PdfParser.start_pos f) (PdfParser.end_pos f)
  /\ ((PdfParser.f_type f = s "latex" /\ 2 < length (PdfParser.latex f))
      \/ (PdfParser.f_type f = s "expression" /\ 3 < length (PdfParser.latex f)
          /\ In 61%N (PdfParser.latex f))).

(** What holds of the state of the extraction loops, for the formula
    types [types] met so far. *)
Definition fx_inv (types : list str) (st : fx_state) : Prop :=
  counted_ids (s "formula_") f_id (formulas st) (formula_id st)
  /\ Forall (fun f => strip (latex f) = latex f
                      /\ 3 <= length (latex f)
                      /\ isdigit (latex f) = false
                      /\ In (f_type f) types
                      /\ strip (context f) = context f
                      /\ ~ In NL (context f)) (formulas st).

(** What holds of the state of the loops of [extract_formulas]. *)
Definition pdf_inv (text : str) (st : PdfParser.fx_state) : Prop :=
  counted_ids (s "formula_") PdfParser.f_id (PdfParser.formulas st) (PdfParser.formula_id st)
  /\ Forall (pdf_formula_fields text) (PdfParser.formulas st).

End Tables.

End FormulaProps.

Module QuoteProps.
Import Py ContentAnalyzer.

(** [a] is a piece of [t]: consecutive characters of it. *)
Definition infix (a t : str) : Prop := exists pre post, t = pre ++ a ++ post.

(** A formula of [_extract_formulas_by_pattern] made of pieces of
    [text]; its context is read in the text with spaces for the line
    feeds. *)
Definition quotes (text : str) (f : formula) : Prop :=
  infix (latex f) text
  /\ infix (raw_match f) text
  /\ infix (context f) (replace_char NL SP text).

(** A formula of [extract_formulas] made of pieces of [text]. *)
Definition pdf_quotes (text : str) (f : PdfParser.formula) : Prop :=
  infix (PdfParser.latex f) text /\ infix (PdfParser.raw_text f) text.

End QuoteProps.

(** ** [identify_topics] of [app/services/pdf_parser.py] *)

Module PdfTopics.
Import Py Re.

(** The dictionaries of [identify_topics]. *)
Record topic := {
  t_id : str;
  title : str;
  t_type : str;
  level : Z;
  line_number : nat;
  raw_text : str
}.

(** [^#{n}\s+(.+)$] *)
Definition hashes_re (n : nat) : regex :=
  seq_of [Bol; Rep (chr "#") n (Some n) true; plus Space; Grp 1 (plus Any); Eol].

(** [^Chapter\s+\d+[:\.]?\s*(.+)$] and [^Section\s+\d+[:\.]?\s*(.+)$] *)
Definition named_re (name : string) : regex :=
  seq_of [Bol; lit name; plus Space; plus Digit; opt (chr ":."); star Space;
          Grp 1 (plus Any); Eol].

(** [^\d+\.\s+(.+)$] *)
Definition numbered_re : regex :=
  seq_of [Bol; plus Digit; lit "."; plus Space; Grp 1 (plus Any); Eol].

(** [^\d+\.\d+\s+(.+)$] *)
Definition subnumbered_re : regex :=
  seq_of [Bol; plus Digit; lit "."; plus Digit; plus Space; Grp 1 (plus Any); Eol].

Definition heading_patterns : list (regex * Z * str) :=
  [ (hashes_re 1, 1%Z, s "chapter");
    (hashes_re 2, 2%Z, s "section");
    (hashes_re 3, 3%Z, s "subsection");
    (named_re "Chapter", 1%Z, s "chapter");
    (named_re "Section", 2%Z, s "section");
    (numbered_re, 2%Z, s "section");
    (subnumbered_re, 3%Z, s "subsection") ].

Record state := {
  topics : list topic;
  topic_id : nat
}.

Section Tables.
Context {U : Unicode}.

(** The body of [if match:] up to the [break]. *)
Definition on_match (line_num : nat) (line : str) (lvl : Z) (topic_type : str)
           (m : rmatch) (st : state) : result state :=
  bind (strip_opt (group line m 1)) (fun title =>
  if 2 <? length title then
    Ok {| topics := topics st ++ [
            {| t_id := s "topic_" ++ str_of_nat (topic_id st);
               title := title;
               t_type := topic_type;
               level := lvl;
               line_number := line_num + 1;
               raw_text := line |} ];
          topic_id := topic_id st + 1 |}
  else Ok st).

(** [for pattern, level, topic_type in heading_patterns]: the first
    pattern that matches decides. *)
Fixpoint try_patterns (pats : list (regex * Z * str)) (line_num : nat) (line : str)
         (st : state) : result state :=
  match pats with
  | [] => Ok st
  | (pattern, lvl, topic_type) :: pats' =>
      match re_match I pattern line with
      | Some m => on_match line_num line lvl topic_type m st
      | None => try_patterns pats' line_num line st
      end
  end.

(** The body of [for line_num, line in enumerate(lines)]. *)
Definition step (st : state) (it : nat * str) : result state :=
  let line_num := fst it in
  let line := strip (snd it) in
  match line with
  | [] => Ok st
  | _ => try_patterns heading_patterns line_num line st
  end.

Fixpoint loop (items : list (nat * str)) (st : state) : result state :=
  match items with
  | [] => Ok st
  | it :: items' => bind (step st it) (loop items')
  end.

Definition identify_topics (text : str) : result (list topic) :=
  let lines := split [NL] text in
  bind (loop (combine (seq 0 (length lines)) lines)
             {| topics := []; topic_id := 1 |}) (fun st =>
  Ok (topics st)).

(** What [identify_topics] puts in a dictionary for a heading among
    [lines]. *)
Definition heading (lines : list str) (t : topic) : Prop :=
  In (level t, t_type t) [(1%Z, s "chapter"); (2%Z, s "section"); (3%Z, s "subsection")]
  /\ strip (title t) = title t
  /\ 2 < length (title t)
  /\ QuoteProps.infix (title t) (raw_text t)
  /\ exists raw,
       nth_error lines (line_number t - 1) = Some raw
       /\ 1 <= line_number t
       /\ raw_text t = strip raw
       /\ raw_text t <> [].

(** What holds of the state before the line of index [k]. *)
Definition topics_inv (lines : list str) (k : nat) (st : state) : Prop :=
  Numbering.counted_ids (s "topic_") t_id (topics st) (topic_id st)
  /\ StronglySorted (fun t u => line_number t < line_number u) (topics st)
  /\ Forall (fun t => heading lines t /\ line_number t <= k) (topics st).

End Tables.

End PdfTopics.

(** ** [Formula] of [app/models/schemas.py] *)

Module FormulaSchema.
Import Py.

Inductive FormulaType := EQUATION | THEOREM | DEFINITION | PROPERTY.

Record Formula := {
  id : str;
  name : str;
  latex : str;
  type : FormulaType;
  topic_id : str;
  derivation : option str;
  source : option str;
  applications : list str;
  related_formulas : list str;
  page_number : Z;
  context : str
}.

End FormulaSchema.

(** ** [extract_formulas] and [_enhance_formulas_with_ai] of
    [app/services/content_analyzer.py] *)

Module Enhance.
Import Py Schemas ContentAnalyzer.

Definition batch_size : nat := 5.

(** [range(0, n, step)] *)
Definition range_step (n step : nat) : list nat :=
  map (fun k => k * step) (seq 0 ((n + step - 1) / step)).

(** [topics[0].id if topics else "unknown"] *)
Definition first_topic_id (topics : list Topic) : str :=
  match topics with
  | t :: _ => Schemas.id t
  | [] => s "unknown"
  end.

(** The [Formula] of the fallback, for the dictionary [formula_data]
    when [count] formulas have been collected. *)
Definition basic_formula (topics : list Topic) (count : nat) (formula_data : formula)
  : FormulaSchema.Formula :=
  {| FormulaSchema.id := f_id formula_data;
     FormulaSchema.name := s "Formula " ++ str_of_nat (count + 1);
     FormulaSchema.latex := latex formula_data;
     FormulaSchema.type := FormulaSchema.EQUATION;
     FormulaSchema.topic_id := first_topic_id topics;
     FormulaSchema.derivation := None;
     FormulaSchema.source := None;
     FormulaSchema.applications := [];
     FormulaSchema.related_formulas := [];
     FormulaSchema.page_number := 1%Z;
     FormulaSchema.context := context formula_data |}.

Section Tables.
Context {U : Unicode}.

(** [_analyze_formula_batch_with_ai] asks the language model.  Its
    answer to the call for the batch that starts at index [i] is left
    open: a list of formulas, or [None] for an exception. *)
Variable _analyze_formula_batch_with_ai :
  nat -> list formula -> list Topic -> option (list FormulaSchema.Formula).

(** The [except] branch: [for formula_data in batch]. *)
Definition fallback (topics : list Topic) (enhanced_formulas : list FormulaSchema.Formula)
           (batch : list formula) : list FormulaSchema.Formula :=
  fold_left (fun enhanced_formulas formula_data =>
               enhanced_formulas
               ++ [basic_formula topics (length enhanced_formulas) formula_data])
            batch enhanced_formulas.

(** The body of [for i in range(0, len(raw_formulas), batch_size)]. *)
Definition on_batch (raw_formulas : list formula) (topics : list Topic)
           (enhanced_formulas : list FormulaSchema.Formula) (i : nat)
  : list FormulaSchema.Formula :=
  let batch := firstn batch_size (skipn i raw_formulas) in
  match _analyze_formula_batch_with_ai i batch topics with
  | Some enhanced_batch => enhanced_formulas ++ enhanced_batch
  | None => fallback topics enhanced_formulas batch
  end.

Definition _enhance_formulas_with_ai (raw_formulas : list formula) (topics : list Topic)
  : list FormulaSchema.Formula :=
  fold_left (on_batch raw_formulas topics)
            (range_step (length raw_formulas) batch_size) [].

Definition extract_formulas (text : str) (topics : list Topic)
  : result (list FormulaSchema.Formula) :=
  bind (_extract_formulas_by_pattern text) (fun raw_formulas =>
  Ok (_enhance_formulas_with_ai raw_formulas topics)).

End Tables.

(** Seven pattern formulas, for two batches. *)
Definition sample (n : nat) : formula :=
  {| f_id := s "formula_" ++ str_of_nat n; latex := s "a=b"; f_type := s "equation";
     context := s "where a=b holds"; position := n; raw_match := s "a=b" |}.

Definition seven : list formula := map sample (seq 1 7).

(** The elements of [l] with their indices, counted from [from]. *)
Definition indexed (A : Type) (from : nat) (l : list A) : list (nat * A) :=
  combine (seq from (length l)) l.

(** The formulas of the fallback for the whole list. *)
Definition basic_formulas (topics : list Topic) (raw_formulas : list formula)
  : list FormulaSchema.Formula :=
  map (fun p => basic_formula topics (fst p) (snd p)) (indexed 0 raw_formulas).

End Enhance.

(** * Proofs *)

(** ** The matcher and the capture groups *)

Module ReFacts.
Import Py Re.

Section Facts.
Context {U : Unicode}.
Variable fl : flags.

Lemma rep_greedy_inv (A : Type) (cl : cclass) (k : cont A) (cs : caps) (x : A) :
  forall rest lo hi prev pos,
    rep_greedy fl cl lo hi prev pos rest cs k = Some x ->
    exists prev' pos' rest', k prev' pos' rest' cs = Some x.
Proof.
  induction rest as [|c rest IH]; intros lo hi prev pos H; simpl in H.
  - destruct lo; [eauto | discriminate].
  - destruct (may_take hi && cls_match fl cl c).
    + destruct (rep_greedy fl cl (pred lo) (option_map pred hi) (Some c) (S pos) rest cs k)
        eqn:E.
      * inversion H; subst. eapply IH; eauto.
      * destruct lo; [eauto | discriminate].
    + destruct lo; [eauto | discriminate].
Qed.

Lemma rep_lazy_inv (A : Type) (cl : cclass) (k : cont A) (cs : caps) (x : A) :
  forall rest lo hi prev pos,
    rep_lazy fl cl lo hi prev pos rest cs k = Some x ->
    exists prev' pos' rest', k prev' pos' rest' cs = Some x.
Proof.
  induction rest as [|c rest IH]; intros lo hi prev pos H; simpl in H.
  - destruct lo; [|discriminate].
    destruct (k prev pos [] cs) eqn:E; [|discriminate].
    inversion H; subst; eauto.
  - destruct lo.
    + destruct (k prev pos (c :: rest) cs) eqn:E.
      * inversion H; subst; eauto.
      * destruct (may_take hi && cls_match fl cl c); [|discriminate].
        eapply IH; eauto.
    + destruct (may_take hi && cls_match fl cl c); [|discriminate].
      eapply IH; eauto.
Qed.

(** Whatever way a pattern matches, the continuation has been run on
    groups that extend the initial ones and hold every group that the
    pattern always sets. *)
Lemma match_at_inv (A : Type) (n : nat) (x : A) :
  forall r prev pos rest cs (k : cont A),
    match_at fl r prev pos rest cs k = Some x ->
    exists prev' pos' rest' cs',
      k prev' pos' rest' cs' = Some x
      /\ (lookup n cs <> None -> lookup n cs' <> None)
      /\ (sets n r = true -> lookup n cs' <> None).
Proof.
  induction r as [|cl|cl lo hi g|a IHa b IHb|a IHa b IHb|m r IH| | |];
    intros prev pos rest cs k H; simpl in H.
  - exists prev, pos, rest, cs. simpl. intuition discriminate.
  - destruct rest as [|c rest]; [discriminate|].
    destruct (cls_match fl cl c); [|discriminate].
    exists (Some c), (S pos), rest, cs. simpl. intuition discriminate.
  - destruct g.
    + apply rep_greedy_inv in H. destruct H as (p & q & t & H).
      exists p, q, t, cs. simpl. intuition discriminate.
    + apply rep_lazy_inv in H. destruct H as (p & q & t & H).
      exists p, q, t, cs. simpl. intuition discriminate.
  - apply IHa in H. destruct H as (p1 & q1 & t1 & cs1 & H & Hk1 & Hs1).
    apply IHb in H. destruct H as (p2 & q2 & t2 & cs2 & H & Hk2 & Hs2).
    exists p2, q2, t2, cs2. simpl. repeat split; auto.
    intros Hs. apply orb_true_iff in Hs. destruct Hs; auto.
  - destruct (match_at fl a prev pos rest cs k) eqn:E.
    + inversion H; subst. apply IHa in E.
      destruct E as (p & q & t & cs' & E & Hk & Hs).
      exists p, q, t, cs'. simpl. repeat split; auto.
      intros Hab. apply andb_true_iff in Hab. tauto.
    + apply IHb in H. destruct H as (p & q & t & cs' & E' & Hk & Hs).
      exists p, q, t, cs'. simpl. repeat split; auto.
      intros Hab. apply andb_true_iff in Hab. tauto.
  - apply IH in H. destruct H as (p & q & t & cs' & H & Hk & Hs).
    exists p, q, t, ((m, (pos, q)) :: cs'). simpl. repeat split; auto.
    + intros Hn. destruct (Nat.eqb m n); [discriminate | auto].
    + intros Hn. destruct (Nat.eqb m n); [discriminate | auto].
  - destruct (at_bol fl prev); [|discriminate].
    exists prev, pos, rest, cs. simpl. intuition discriminate.
  - destruct (at_eol fl rest); [|discriminate].
    exists prev, pos, rest, cs. simpl. intuition discriminate.
  - destruct (at_wordb prev rest); [|discriminate].
    exists prev, pos, rest, cs. simpl. intuition discriminate.
Qed.

Lemma match_here_group (n : nat) (r : regex) prev pos rest (m : rmatch) (text : str) :
  match_here fl r prev pos rest = Some m ->
  sets n r = true ->
  exists t, group text m n = Some t.
Proof.
  unfold match_here. intros H Hs.
  apply (match_at_inv n) in H.
  destruct H as (p & q & t & cs' & H & _ & Hn).
  inversion H; subst. unfold group. simpl. specialize (Hn Hs).
  destruct (lookup n cs') as [[a b]|]; [eauto | congruence].
Qed.

Lemma scan_group (n : nat) (r : regex) (text : str) (m : rmatch) :
  sets n r = true ->
  forall rest skip prev pos,
    In m (scan fl r skip prev pos rest) ->
    exists t, group text m n = Some t.
Proof.
  intros Hs. induction rest as [|c rest IH]; intros skip prev pos Hin.
  - destruct skip; simpl in Hin; [|contradiction].
    destruct (match_here fl r prev pos []) eqn:E; [|contradiction].
    destruct Hin as [<-|[]]. eapply match_here_group; eauto.
  - destruct skip; simpl in Hin; [|eauto].
    destruct (match_here fl r prev pos (c :: rest)) eqn:E; [|eauto].
    destruct Hin as [<-|Hin]; [|eauto].
    eapply match_here_group; eauto.
Qed.

Lemma finditer_group (n : nat) (r : regex) (text subject : str) (m : rmatch) :
  sets n r = true ->
  In m (finditer fl r subject) ->
  exists t, group text m n = Some t.
Proof. intros Hs Hin. eapply scan_group; eauto. Qed.

Lemma search_group (n : nat) (r : regex) (text subject : str) (m : rmatch) :
  sets n r = true ->
  search fl r subject = Some m ->
  exists t, group text m n = Some t.
Proof.
  unfold search. intros Hs H.
  destruct (finditer fl r subject) as [|m' ms] eqn:E; [discriminate|].
  inversion H; subst. eapply finditer_group; eauto. rewrite E. now left.
Qed.

End Facts.
End ReFacts.

(** ** The segmenter never raises *)

Module SegFacts.
Import Py Re Schemas ContentAnalyzer Props ReFacts.

Section Facts.
Context {U : Unicode}.

Lemma title_of_ok (pat : regex) (lvl : Z) (ty : TopicType) (line : str) (m : rmatch) :
  In (pat, lvl, ty) patterns ->
  re_match I pat line = Some m ->
  exists title, title_of ty (groups pat line m) (group0 line m) = Ok title.
Proof.
  intros Hin Hm. unfold re_match in Hm.
  assert (G : forall n, sets n pat = true -> exists t, group line m n = Some t)
    by (intros n Hn; eapply match_here_group; eauto).
  unfold patterns in Hin. simpl in Hin.
  destruct Hin as [E|[E|[E|[E|[E|[]]]]]]; inversion E; subst; clear E;
    unfold groups, title_of, index, index_last; simpl.
  - destruct (G 2 eq_refl) as [t ->]. simpl. eauto.
  - destruct (G 2 eq_refl) as [t ->]. simpl. eauto.
  - destruct (G 2 eq_refl) as [t ->]. simpl. eauto.
  - destruct (G 3 eq_refl) as [t ->]. simpl. eauto.
  - destruct (G 1 eq_refl) as [t ->]. simpl. eauto.
Qed.

Lemma on_match_cases lines line_num line pat lvl ty m st :
  In (pat, lvl, ty) patterns ->
  re_match I pat line = Some m ->
  exists st', on_match lines line_num line pat lvl ty m st = Ok st'
              /\ (st' = st \/ appended st st' line).
Proof.
  intros Hin Hm. unfold on_match.
  destruct (@title_of_ok pat lvl ty line m Hin Hm) as [title ->]. simpl.
  destruct ((2 <? length title) && negb (isdigit title)).
  - eexists. split; [reflexivity|]. right.
    eexists _, pat, lvl, ty, m. simpl. repeat split; auto.
  - eauto.
Qed.

Lemma try_patterns_cases lines line_num line st :
  forall pats, incl pats patterns ->
  exists st', try_patterns pats lines line_num line st = Ok st'
              /\ (st' = st \/ appended st st' line).
Proof.
  induction pats as [|[[pat lvl] ty] pats IH]; intros Hincl; simpl.
  - eauto.
  - assert (Hin : In (pat, lvl, ty) patterns) by (apply Hincl; now left).
    assert (Hrest : incl pats patterns) by (intros x Hx; apply Hincl; now right).
    destruct (re_match I pat line) as [m|] eqn:Hm; [|auto].
    destruct (@on_match_cases lines line_num line pat lvl ty m st Hin Hm) as (st' & -> & Hc).
    simpl. eauto.
Qed.

Lemma track_page_ok line page : exists page', track_page line page = Ok page'.
Proof.
  unfold track_page.
  destruct (search no_flags page_re line) as [m|] eqn:Hs; simpl; [|eauto].
  destruct (@search_group _ no_flags 1 page_re line line m eq_refl Hs) as [t ->].
  simpl. destruct (int_of t); simpl; eauto.
Qed.

Lemma step_cases lines st it :
  exists st', step lines st it = Ok st'
              /\ (same_topics st st' \/ appended st st' (strip (snd it))).
Proof.
  unfold step.
  destruct (startswith (s "--- Page ") (strip (snd it))).
  - destruct (track_page_ok (strip (snd it)) (current_page st)) as [page ->].
    simpl. eexists. split; [reflexivity|]. left. split; reflexivity.
  - destruct (length (strip (snd it)) <? 3).
    + eexists. split; [reflexivity|]. left. split; reflexivity.
    + destruct (try_patterns_cases lines (fst it) (strip (snd it)) st
                                   (incl_refl patterns)) as (st' & -> & [->|H]).
      * eexists. split; [reflexivity|]. left. split; reflexivity.
      * eauto.
Qed.

(** The loop never raises, and an invariant of the steps is one of the loop. *)
Lemma loop_inv (P : seg_state -> Prop) lines :
  (forall st it st', P st -> step lines st it = Ok st' -> P st') ->
  forall items st, P st -> exists st', loop lines items st = Ok st' /\ P st'.
Proof.
  intros Hstep. induction items as [|it items IH]; intros st HP; simpl.
  - eauto.
  - destruct (step_cases lines st it) as (st1 & E & _). rewrite E. simpl.
    apply IH. eapply Hstep; eauto.
Qed.

End Facts.
End SegFacts.

(** ** Hierarchy inference *)

Module HierarchyFacts.
Import Py Re Schemas ContentAnalyzer Props ReFacts SegFacts.

Lemma s_inj (a b : string) : s a = s b -> a = b.
Proof.
  unfold s. intros H.
  rewrite <- (string_of_list_ascii_of_string a), <- (string_of_list_ascii_of_string b).
  f_equal. revert H.
  generalize (list_ascii_of_string a) (list_ascii_of_string b).
  induction l as [|x l IH]; intros [|y l']; simpl; intros H; try discriminate; auto.
  inversion H as [[Hx Hl]]. f_equal; auto.
  rewrite <- (ascii_N_embedding x), <- (ascii_N_embedding y). now rewrite Hx.
Qed.

Lemma str_of_nat_inj (n m : nat) : str_of_nat n = str_of_nat m -> n = m.
Proof.
  unfold str_of_nat. intros H. apply s_inj in H.
  apply Unsigned.to_uint_inj.
  assert (E : NilEmpty.uint_of_string (NilEmpty.string_of_uint (Nat.to_uint n))
              = NilEmpty.uint_of_string (NilEmpty.string_of_uint (Nat.to_uint m)))
    by now rewrite H.
  rewrite !NilEmpty.usu in E. now inversion E.
Qed.

Lemma firstn_snoc (A : Type) (l : list A) :
  forall i a, nth_error l i = Some a -> firstn (S i) l = firstn i l ++ [a].
Proof.
  induction l as [|x l IH]; intros [|i] a H; simpl in *; try discriminate.
  - now inversion H.
  - f_equal. now apply IH.
Qed.

(** The search of the nearest earlier element, read on indices. *)
Lemma find_rev_firstn (A : Type) (P : A -> bool) (l : list A) (i : nat) :
  match find P (rev (firstn i l)) with
  | Some p =>
      exists j, j < i /\ nth_error l j = Some p /\ P p = true
                /\ forall j' x, j < j' -> j' < i -> nth_error l j' = Some x -> P x = false
  | None => forall j x, j < i -> nth_error l j = Some x -> P x = false
  end.
Proof.
  induction i as [|i IH].
  - simpl. intros j x Hj. lia.
  - destruct (nth_error l i) as [a|] eqn:Ea.
    + rewrite (firstn_snoc _ _ Ea), rev_app_distr. simpl.
      destruct (P a) eqn:Pa.
      * exists i. repeat split; auto. intros; lia.
      * destruct (find P (rev (firstn i l))) as [p|].
        -- destruct IH as (j & Hj & Hn & Hp & Hbetween).
           exists j. repeat split; auto.
           intros j' x Hlt Hlt' Hx.
           destruct (Nat.eq_dec j' i) as [->|Hne].
           ++ congruence.
           ++ apply (Hbetween j'); auto. lia.
        -- intros j x Hj Hx.
           destruct (Nat.eq_dec j i) as [->|Hne]; [congruence|].
           apply (IH j); auto. lia.
    + assert (Hlen : length l <= i) by now apply nth_error_None.
      rewrite firstn_all2 by lia. rewrite firstn_all2 in IH by lia.
      destruct (find P (rev l)) as [p|].
      * destruct IH as (j & Hj & Hn & Hp & Hbetween).
        exists j. repeat split; auto.
        intros j' x Hlt Hlt' Hx.
        assert (j' < length l) by (apply nth_error_Some; congruence).
        apply (Hbetween j'); auto. lia.
      * intros j x Hj Hx.
        assert (j < length l) by (apply nth_error_Some; congruence).
        apply (IH j); auto. lia.
Qed.

(** What [set_parents] computes at index [i]. *)
Lemma set_parents_nth :
  forall ts before i t',
    nth_error (set_parents before ts) i = Some t' ->
    exists t,
      nth_error ts i = Some t
      /\ t' = match find_parent (rev (firstn i (set_parents before ts)) ++ before)
                                (level t) with
              | Some p => with_parent_id t (Some (id p))
              | None => t
              end.
Proof.
  induction ts as [|t ts IH]; intros before [|i] t' H; simpl in H; try discriminate.
  - inversion H; subst. exists t. split; [reflexivity|]. reflexivity.
  - apply IH in H. destruct H as (t0 & Hn & ->).
    exists t0. split; [assumption|].
    cbn [set_parents firstn rev]. now rewrite <- app_assoc.
Qed.

Lemma set_parents_same :
  forall ts before i t',
    nth_error (set_parents before ts) i = Some t' ->
    exists t, nth_error ts i = Some t /\ id t' = id t /\ level t' = level t.
Proof.
  intros ts before i t' H. apply set_parents_nth in H.
  destruct H as (t & Hn & ->). exists t. split; [assumption|].
  destruct (find_parent _ _); auto.
Qed.

Section Facts.
Context {U : Unicode}.

Lemma numbered_step lines st it st' :
  numbered st -> step lines st it = Ok st' -> numbered st'.
Proof.
  intros [Hid Hts] Hstep.
  destruct (step_cases lines st it) as (st1 & E & Hc).
  rewrite E in Hstep. inversion Hstep; subst st1. clear Hstep E.
  destruct Hc as [[Ht Hi]|(t & pat & lvl & ty & m & _ & _ & Ht & Hi & _ & Hidt & _ & Hp)].
  - split; rewrite Ht; [congruence | assumption].
  - split.
    + rewrite Ht, Hi, length_app. simpl. lia.
    + intros i t0 Hn. rewrite Ht in Hn.
      destruct (Nat.lt_ge_cases i (length (topics st))) as [Hlt|Hge].
      * rewrite nth_error_app1 in Hn by assumption. auto.
      * rewrite nth_error_app2 in Hn by assumption.
        destruct (i - length (topics st)) as [|k] eqn:Ek; simpl in Hn.
        -- inversion Hn; subst t0. split; [|assumption].
           rewrite Hidt, Hid. do 2 f_equal. lia.
        -- destruct k; discriminate.
Qed.

(** The topics before hierarchy inference: numbered from 1, without parent. *)
Lemma segmented (text : str) :
  exists st,
    loop (split [NL] text) (enumerate (split [NL] text))
         {| topics := []; topic_id := 1; current_page := 1 |} = Ok st
    /\ numbered st.
Proof.
  apply loop_inv.
  - intros st it st'. apply numbered_step.
  - split; [reflexivity|]. intros [|i] t H; discriminate.
Qed.

End Facts.
End HierarchyFacts.

Module Hierarchy.
Import Py Re Schemas ContentAnalyzer Props ReFacts SegFacts HierarchyFacts.

Section Claims.
Context {U : Unicode}.

(** C2.  In the sequence of topics that the heading segmenter returns,
    the topic at index [i] has as [parent_id] the [id] of the nearest
    topic before it whose level is strictly lower, and no [parent_id]
    when no topic before it has a strictly lower level.  The [id] of a
    parent is the [id] of no other topic of the sequence, so that a
    [parent_id] refers to a topic of strictly lower level. *)
Theorem parent_is_nearest_lower_level (text : str) :
  exists ts,
    _identify_structural_topics text = Ok ts
    /\ forall i t, nth_error ts i = Some t ->
         (parent_id t = None
          /\ forall j tj, j < i -> nth_error ts j = Some tj ->
                          ~ (level tj < level t)%Z)
         \/
         (exists j tj,
             j < i /\ nth_error ts j = Some tj
             /\ (level tj < level t)%Z
             /\ parent_id t = Some (id tj)
             /\ (forall j' tj', j < j' -> j' < i -> nth_error ts j' = Some tj' ->
                                ~ (level tj' < level t)%Z)
             /\ (forall k tk, nth_error ts k = Some tk -> id tk = id tj -> k = j)).
Proof.
  unfold _identify_structural_topics.
  destruct (segmented text) as (st & -> & Hid & Hts). simpl.
  eexists. split; [reflexivity|].
  unfold _set_parent_relationships. intros i t' Hn.
  pose proof (set_parents_nth _ _ _ Hn) as (t & Ht & Ht').
  rewrite app_nil_r in Ht'. unfold find_parent in Ht'.
  destruct (Hts _ _ Ht) as [_ Hnone].
  pose proof (find_rev_firstn (fun p => (level p <? level t)%Z)
                              (set_parents [] (topics st)) i) as Hfind.
  destruct (find _ (rev _)) as [p|].
  - right. destruct Hfind as (j & Hj & Hp & Hlt & Hbetween).
    subst t'. simpl. exists j, p. repeat split; auto.
    + now apply Z.ltb_lt.
    + intros j' tj' H1 H2 H3 H4. apply Z.ltb_lt in H4.
      rewrite (Hbetween j' tj') in H4; auto. discriminate.
    + intros k tk Hk Hidk.
      destruct (set_parents_same _ _ _ Hk) as (tk0 & Hk0 & Ek & _).
      destruct (set_parents_same _ _ _ Hp) as (p0 & Hp0 & Ep & _).
      destruct (Hts _ _ Hk0) as [Ik _]. destruct (Hts _ _ Hp0) as [Ip _].
      rewrite Ek, Ep, Ik, Ip in Hidk. apply app_inv_head in Hidk.
      apply str_of_nat_inj in Hidk. lia.
  - left. subst t'. split; [assumption|].
    intros j tj Hj Htj Hlt. apply Z.ltb_lt in Hlt.
    rewrite (Hfind j tj) in Hlt; auto. discriminate.
Qed.

End Claims.
End Hierarchy.

(** ** Removing white space with [re.sub] *)

Module SubFacts.
Import Py Re Props.

Section Facts.
Context {U : Unicode}.

Lemma rep_greedy_space (p0 : nat) :
  forall rest lo prev pos,
    rep_greedy no_flags Space lo None prev pos rest []
      (fun _ pos' _ cs => Some {| m_start := p0; m_end := pos'; m_caps := cs |})
    = if lo <=? span rest
      then Some {| m_start := p0; m_end := pos + span rest; m_caps := [] |}
      else None.
Proof.
  induction rest as [|c rest IH]; intros lo prev pos; simpl.
  - destruct lo; simpl; [now rewrite Nat.add_0_r | reflexivity].
  - destruct (isspace c) eqn:Ec; simpl.
    + rewrite IH. destruct lo as [|lo]; simpl.
      * now rewrite Nat.add_succ_r.
      * destruct (lo <=? span rest); [now rewrite Nat.add_succ_r | reflexivity].
    + destruct lo; simpl; [now rewrite Nat.add_0_r | reflexivity].
Qed.

Lemma match_here_spaces prev pos rest :
  match_here no_flags (plus Space) prev pos rest
  = if 1 <=? span rest
    then Some {| m_start := pos; m_end := pos + span rest; m_caps := [] |}
    else None.
Proof. unfold match_here, plus. simpl. apply rep_greedy_space. Qed.

Lemma sub_go_scan_spaces :
  forall rest prev pos,
    (forall pre p0, p0 + length pre = pos ->
       sub_go [] (scan no_flags (plus Space) 0 prev pos rest) p0 (pre ++ rest)
       = pre ++ filter not_space rest)
    /\ (forall skip, skip <= span rest ->
          sub_go [] (scan no_flags (plus Space) skip prev pos rest)
                 (pos + skip) (skipn skip rest)
          = filter not_space rest).
Proof.
  induction rest as [|c rest IH]; intros prev pos.
  - split.
    + intros pre p0 Hp. cbn [scan]. rewrite match_here_spaces. reflexivity.
    + intros skip Hs. simpl in Hs. assert (skip = 0) by lia. subst skip.
      cbn [scan]. rewrite match_here_spaces. reflexivity.
  - assert (Hfirst : forall pre p0, p0 + length pre = pos ->
       sub_go [] (scan no_flags (plus Space) 0 prev pos (c :: rest)) p0
              (pre ++ c :: rest)
       = pre ++ filter not_space (c :: rest)).
    { intros pre p0 Hp. cbn [scan]. rewrite match_here_spaces.
      cbn [span filter]. unfold not_space at 1.
      destruct (isspace c) eqn:Ec; cbn [negb Nat.leb].
      - cbn [sub_go m_start m_end].
        replace (pos - p0) with (length pre) by lia.
        rewrite firstn_app, firstn_all, Nat.sub_diag. cbn [firstn].
        rewrite app_nil_r. f_equal. cbn [app].
        replace (pos + S (span rest) - p0) with (length pre + S (span rest)) by lia.
        rewrite skipn_app, skipn_all2 by lia.
        replace (length pre + S (span rest) - length pre) with (S (span rest)) by lia.
        cbn [app skipn].
        replace (pred (pos + S (span rest) - pos)) with (span rest) by lia.
        destruct (IH (Some c) (S pos)) as [_ H2].
        specialize (H2 (span rest) (Nat.le_refl _)).
        replace (S pos + span rest) with (pos + S (span rest)) in H2 by lia.
        exact H2.
      - destruct (IH (Some c) (S pos)) as [H1 _].
        specialize (H1 (pre ++ [c]) p0).
        rewrite <- !app_assoc in H1. cbn [app] in H1.
        apply H1. rewrite length_app. simpl. lia. }
    split; [exact Hfirst|].
    intros skip Hs. destruct skip as [|k].
    + rewrite Nat.add_0_r. cbn [skipn]. apply (Hfirst [] pos). simpl. lia.
    + cbn [span] in Hs. destruct (isspace c) eqn:Ec; [|lia].
      cbn [scan skipn filter]. unfold not_space at 1. rewrite Ec. cbn [negb].
      destruct (IH (Some c) (S pos)) as [_ H2].
      replace (pos + S k) with (S pos + k) by lia.
      apply H2. lia.
Qed.

(** [re.sub(r'\s+', '', t)] deletes the white space of [t]. *)
Lemma sub_spaces (t : str) :
  sub no_flags (plus Space) [] t = filter not_space t.
Proof.
  unfold sub, finditer.
  destruct (sub_go_scan_spaces t None 0) as [H _].
  apply (H [] 0). reflexivity.
Qed.

End Facts.
End SubFacts.

(** ** The stable sort *)

Module SortFacts.
Import Py.

Lemma mem_In (x : str) (l : list str) : mem x l = true <-> In x l.
Proof.
  unfold mem. rewrite existsb_exists. split.
  - intros (y & Hy & E). unfold str_eqb in E.
    destruct (list_eq_dec N.eq_dec x y); [now subst | discriminate].
  - intros H. exists x. split; [assumption|].
    unfold str_eqb. destruct (list_eq_dec N.eq_dec x x); congruence.
Qed.

Section Sort.
Variable A : Type.
Variable before : A -> A -> bool.
Hypothesis before_total : forall x y, before x y = true \/ before y x = true.
Hypothesis before_trans :
  forall x y z, before x y = true -> before y z = true -> before x z = true.

Let R (x y : A) : Prop := before x y = true.

Lemma insert_perm (x : A) (l : list A) : Permutation (insert before x l) (x :: l).
Proof.
  induction l as [|y l IH]; simpl; [reflexivity|].
  destruct (before x y); [reflexivity|].
  rewrite IH. apply perm_swap.
Qed.

Lemma sorted_perm (l : list A) : Permutation (sorted before l) l.
Proof.
  induction l as [|x l IH]; simpl; [reflexivity|].
  rewrite insert_perm. now constructor.
Qed.

Lemma insert_sorted (x : A) (l : list A) :
  StronglySorted R l -> StronglySorted R (insert before x l).
Proof.
  induction l as [|y l IH]; intros Hs; simpl.
  - constructor; constructor.
  - inversion Hs as [|? ? Hl Hy]; subst.
    destruct (before x y) eqn:E.
    + constructor; [assumption|]. constructor; [exact E|].
      eapply Forall_impl; [|exact Hy]. intros z Hz. eapply before_trans; eauto.
    + constructor; [auto|].
      apply Forall_forall. intros z Hz.
      apply (Permutation_in _ (insert_perm x l)) in Hz. destruct Hz as [<-|Hz].
      * destruct (before_total x y) as [H|H]; [congruence | exact H].
      * rewrite Forall_forall in Hy. auto.
Qed.

Lemma sorted_sorted (l : list A) : StronglySorted R (sorted before l).
Proof.
  induction l as [|x l IH]; simpl; [constructor|]. now apply insert_sorted.
Qed.

End Sort.
End SortFacts.

(** ** Removing duplicates after a sort *)

Module DedupFacts.
Import Py Props SortFacts.

Section Dedup.
Variable A : Type.
Variable key : A -> str.
Variable ok : str -> bool.
Variable pos : A -> nat.

Lemma keep_first_In (x : A) :
  forall l seen,
    In x (keep_first key ok seen l) ->
    In x l /\ ~ In (key x) seen /\ ok (key x) = true.
Proof.
  induction l as [|y l IH]; intros seen H; simpl in H; [contradiction|].
  destruct (negb (mem (key y) seen) && ok (key y)) eqn:E.
  - apply andb_true_iff in E. destruct E as [Em Eo].
    destruct H as [<-|H].
    + split; [now left|]. split; [|assumption].
      intros Hin. apply mem_In in Hin. rewrite Hin in Em. discriminate.
    + apply IH in H. destruct H as (Hin & Hs & Ho).
      split; [now right|]. split; [|assumption].
      intros Hin'. apply Hs. now right.
  - apply IH in H. destruct H as (Hin & Hs & Ho). split; [now right | auto].
Qed.

Lemma keep_first_NoDup :
  forall l seen, NoDup (map key (keep_first key ok seen l)).
Proof.
  induction l as [|y l IH]; intros seen; simpl; [constructor|].
  destruct (negb (mem (key y) seen) && ok (key y)); [|auto].
  simpl. constructor; [|auto].
  intros Hin. apply in_map_iff in Hin. destruct Hin as (x & Ex & Hx).
  apply keep_first_In in Hx. destruct Hx as (_ & Hs & _).
  apply Hs. rewrite Ex. now left.
Qed.

(** A key that can survive does survive, on its first occurrence. *)
Lemma keep_first_first (c : A) :
  forall l seen,
    In c l -> ~ In (key c) seen -> ok (key c) = true ->
    exists l1 x l2,
      l = l1 ++ x :: l2
      /\ key x = key c
      /\ (forall y, In y l1 -> key y <> key c)
      /\ In x (keep_first key ok seen l).
Proof.
  induction l as [|y l IH]; intros seen Hin Hs Ho; [contradiction|].
  destruct (list_eq_dec N.eq_dec (key y) (key c)) as [E|E].
  - exists [], y, l. split; [reflexivity|]. split; [assumption|].
    split; [intros z []|].
    simpl. rewrite E.
    destruct (mem (key c) seen) eqn:Em; [apply mem_In in Em; contradiction|].
    rewrite Ho. simpl. now left.
  - destruct Hin as [->|Hin]; [congruence|].
    assert (IH' : forall seen', ~ In (key c) seen' ->
              exists l1 x l2, l = l1 ++ x :: l2 /\ key x = key c
                /\ (forall z, In z l1 -> key z <> key c)
                /\ In x (keep_first key ok seen' l)) by (intros; apply IH; auto).
    simpl. destruct (negb (mem (key y) seen) && ok (key y)).
    + destruct (IH' (key y :: seen)) as (l1 & x & l2 & -> & Ex & Hl1 & Hx).
      { intros [H|H]; [congruence | contradiction]. }
      exists (y :: l1), x, l2. repeat split; auto.
      * intros z [<-|Hz]; auto.
      * now right.
    + destruct (IH' seen Hs) as (l1 & x & l2 & -> & Ex & Hl1 & Hx).
      exists (y :: l1), x, l2. repeat split; auto.
      intros z [<-|Hz]; auto.
Qed.

Definition by_pos (x y : A) : bool := pos x <=? pos y.

Lemma by_pos_total (x y : A) : by_pos x y = true \/ by_pos y x = true.
Proof. unfold by_pos. rewrite !Nat.leb_le. lia. Qed.

Lemma by_pos_trans (x y z : A) :
  by_pos x y = true -> by_pos y z = true -> by_pos x z = true.
Proof. unfold by_pos. rewrite !Nat.leb_le. lia. Qed.

(** In a list sorted by position, the first of the elements with a
    given key has the least position of them. *)
Lemma first_is_least (l1 l2 : list A) (x c : A) :
  StronglySorted (fun a b => by_pos a b = true) (l1 ++ x :: l2) ->
  (forall y, In y l1 -> key y <> key x) ->
  In c (l1 ++ x :: l2) -> key c = key x ->
  pos x <= pos c.
Proof.
  intros Hs Hl1 Hin Hk.
  apply in_app_or in Hin. destruct Hin as [Hin|[<-|Hin]].
  - exfalso. eapply Hl1; eauto.
  - lia.
  - clear Hl1. induction l1 as [|y l1 IH]; simpl in Hs.
    + inversion Hs as [|? ? _ Hall]; subst. rewrite Forall_forall in Hall.
      apply Hall in Hin. unfold by_pos in Hin. now apply Nat.leb_le.
    + inversion Hs; subst. auto.
Qed.

(** Sorting by position and keeping the first element of every key:
    the keys of the result are pairwise different, and every accepted
    key is kept in an element of least position. *)
Lemma sorted_keep_first (cs : list A) :
  let fs := keep_first key ok [] (sorted by_pos cs) in
  NoDup (map key fs)
  /\ (forall f, In f fs -> In f cs /\ ok (key f) = true)
  /\ (forall c, In c cs -> ok (key c) = true ->
        exists f, In f fs /\ key f = key c
                  /\ forall c', In c' cs -> key c' = key c -> pos f <= pos c').
Proof.
  intros fs. subst fs.
  pose proof (sorted_perm by_pos cs) as Hperm.
  pose proof (@sorted_sorted _ by_pos by_pos_total by_pos_trans cs) as Hsorted.
  split; [apply keep_first_NoDup|]. split.
  - intros f Hf. apply keep_first_In in Hf. destruct Hf as (Hin & _ & Ho).
    split; [|assumption]. eapply Permutation_in; eauto.
  - intros c Hc Ho.
    destruct (@keep_first_first c (sorted by_pos cs) [])
      as (l1 & f & l2 & E & Ef & Hl1 & Hf); auto.
    { eapply Permutation_in; [symmetry|]; eauto. }
    exists f. split; [assumption|]. split; [assumption|].
    intros c' Hc' Ek. rewrite E in Hsorted.
    eapply first_is_least; [exact Hsorted|..].
    + intros y Hy. rewrite Ef. auto.
    + rewrite <- E. eapply Permutation_in; [symmetry|]; eauto.
    + congruence.
Qed.

End Dedup.
End DedupFacts.

(** ** The formula extractor *)

Module FormulaFacts.
Import Py Re Schemas ContentAnalyzer Props ReFacts SortFacts SubFacts DedupFacts.

Section Facts.
Context {U : Unicode}.

Lemma normalized_normal_form (f : formula) : normalized f = normal_form (latex f).
Proof. unfold normalized, normal_form. apply sub_spaces. Qed.

Lemma unique_keep_first :
  forall fs seen,
    unique seen fs = keep_first normalized (fun k => 2 <? length k) seen fs.
Proof.
  induction fs as [|f fs IH]; intros seen; simpl; [reflexivity|].
  now rewrite !IH.
Qed.

Lemma pdf_unique_keep_first :
  forall fs seen,
    PdfParser.unique seen fs
    = keep_first PdfParser.formula_key (fun _ => true) seen fs.
Proof.
  induction fs as [|f fs IH]; intros seen; simpl; [reflexivity|].
  now rewrite andb_true_r, !IH.
Qed.

(** The extraction loops never raise. *)
Lemma on_formula_ok text pattern ty st m :
  sets 1 pattern = true -> ngroups pattern = 1 ->
  In m (finditer SI pattern text) ->
  exists st', on_formula text pattern ty st m = Ok st'.
Proof.
  intros Hs Hn Hin. unfold on_formula, groups.
  rewrite length_map, length_seq, Hn. simpl.
  destruct (@finditer_group _ SI 1 pattern text text m Hs Hin) as [t ->]. simpl.
  destruct ((length (strip t) <? 3) || isdigit (strip t)); eauto.
Qed.

Lemma for_matches_ok text pattern ty :
  sets 1 pattern = true -> ngroups pattern = 1 ->
  forall ms st, incl ms (finditer SI pattern text) ->
                exists st', for_matches text pattern ty ms st = Ok st'.
Proof.
  intros Hs Hn. induction ms as [|m ms IH]; intros st Hincl; simpl; [eauto|].
  destruct (@on_formula_ok text pattern ty st m Hs Hn) as [st1 ->].
  { apply Hincl. now left. }
  simpl. apply IH. intros x Hx. apply Hincl. now right.
Qed.

Lemma for_patterns_ok text :
  forall pats st,
    Forall (fun pt => sets 1 (fst pt) = true /\ ngroups (fst pt) = 1) pats ->
    exists st', for_patterns text pats st = Ok st'.
Proof.
  induction pats as [|[pattern ty] pats IH]; intros st Hall; simpl; [eauto|].
  inversion Hall as [|? ? [Hs Hn] Hrest]; subst. simpl in Hs, Hn.
  destruct (@for_matches_ok text pattern ty Hs Hn (finditer SI pattern text) st
                            (incl_refl _)) as [st1 ->].
  simpl. auto.
Qed.

Lemma formula_patterns_group1 :
  Forall (fun pt => sets 1 (fst pt) = true /\ ngroups (fst pt) = 1) formula_patterns.
Proof. repeat constructor. Qed.

Lemma candidates_ok text : exists cs, candidates text = Ok cs.
Proof.
  unfold candidates.
  destruct (@for_patterns_ok text formula_patterns
                             {| formulas := []; formula_id := 1 |}
                             formula_patterns_group1) as [st ->].
  simpl. eauto.
Qed.

Lemma pdf_for_matches_ok fl text keep ty pattern :
  sets 1 pattern = true ->
  forall ms st, incl ms (finditer fl pattern text) ->
                exists st', PdfParser.for_matches text keep ty ms st = Ok st'.
Proof.
  intros Hs. induction ms as [|m ms IH]; intros st Hincl; simpl; [eauto|].
  unfold PdfParser.on_formula.
  destruct (@finditer_group _ fl 1 pattern text text m Hs) as [t ->].
  { apply Hincl. now left. }
  simpl. destruct (keep (strip t)); simpl; apply IH;
    intros x Hx; apply Hincl; now right.
Qed.

Lemma pdf_for_patterns_ok fl text keep ty :
  forall pats st,
    Forall (fun pattern => sets 1 pattern = true) pats ->
    exists st', PdfParser.for_patterns fl text keep ty pats st = Ok st'.
Proof.
  induction pats as [|pattern pats IH]; intros st Hall; simpl; [eauto|].
  inversion Hall as [|? ? Hs Hrest]; subst.
  destruct (@pdf_for_matches_ok fl text keep ty pattern Hs
                                (finditer fl pattern text) st (incl_refl _))
    as [st1 ->].
  simpl. auto.
Qed.

Lemma pdf_candidates_ok text : exists cs, PdfParser.candidates text = Ok cs.
Proof.
  unfold PdfParser.candidates.
  destruct (@pdf_for_patterns_ok SI text (fun t => 2 <? length t) (s "latex")
              PdfParser.latex_patterns
              {| PdfParser.formulas := []; PdfParser.formula_id := 1 |})
    as [st ->]; [repeat constructor|].
  cbn [bind].
  destruct (@pdf_for_patterns_ok M text
              (fun t => (3 <? length t) && contains_char 61%N t) (s "expression")
              PdfParser.math_patterns st)
    as [st' ->]; [repeat constructor|].
  cbn [bind]. eauto.
Qed.

(** Without a match of any pattern there is no candidate. *)
Lemma for_patterns_no_match text :
  forall pats st,
    (forall pt, In pt pats -> finditer SI (fst pt) text = []) ->
    for_patterns text pats st = Ok st.
Proof.
  induction pats as [|[pattern ty] pats IH]; intros st H; simpl; [reflexivity|].
  pose proof (H (pattern, ty) (or_introl eq_refl)) as E. simpl in E.
  rewrite E. simpl. apply IH.
  intros pt Hpt. apply H. now right.
Qed.

End Facts.
End FormulaFacts.

Module Formulas.
Import Py Re Schemas ContentAnalyzer Props ReFacts SortFacts SubFacts DedupFacts
       FormulaFacts.

Section Claims.
Context {U : Unicode}.

(** C1 (amended).  The formulas that [_extract_formulas_by_pattern]
    returns for a text have pairwise different normalized keys (lower
    case, white space removed); each of them is a candidate whose key
    has more than two characters, and every key of more than two
    characters found among the candidates survives in one formula,
    which has the least position of the candidates with that key.
    The formulas that [extract_formulas] of the PDF parser returns
    have pairwise different keys (lower case, spaces removed), and
    every key found among its candidates survives in one formula,
    which has the least start of the candidates with that key. *)
Theorem formulas_unique_earliest (text : str) :
  (exists cs fs,
      candidates text = Ok cs
      /\ _extract_formulas_by_pattern text = Ok fs
      /\ NoDup (map (fun f => normal_form (latex f)) fs)
      /\ (forall f, In f fs -> In f cs /\ 2 < length (normal_form (latex f)))
      /\ (forall c, In c cs -> 2 < length (normal_form (latex c)) ->
            exists f, In f fs
                      /\ normal_form (latex f) = normal_form (latex c)
                      /\ forall c', In c' cs ->
                                    normal_form (latex c') = normal_form (latex c) ->
                                    position f <= position c'))
  /\ (exists cs fs,
         PdfParser.candidates text = Ok cs
         /\ PdfParser.extract_formulas text = Ok fs
         /\ NoDup (map PdfParser.formula_key fs)
         /\ (forall f, In f fs -> In f cs)
         /\ (forall c, In c cs ->
               exists f, In f fs
                         /\ PdfParser.formula_key f = PdfParser.formula_key c
                         /\ forall c', In c' cs ->
                              PdfParser.formula_key c' = PdfParser.formula_key c ->
                              PdfParser.start_pos f <= PdfParser.start_pos c')).
Proof.
  split.
  - destruct (candidates_ok text) as [cs Hcs].
    exists cs, (unique [] (sorted by_position cs)).
    unfold _extract_formulas_by_pattern. rewrite Hcs. simpl.
    split; [reflexivity|]. split; [reflexivity|].
    rewrite unique_keep_first.
    destruct (sorted_keep_first normalized (fun k => 2 <? length k) position cs)
      as (Hnodup & Hin & Hfirst).
    split; [|split].
    + rewrite (map_ext _ normalized)
        by (intros; symmetry; apply normalized_normal_form).
      exact Hnodup.
    + intros f Hf. destruct (Hin f Hf) as [Hc Hl].
      rewrite <- normalized_normal_form. split; [assumption|].
      now apply Nat.ltb_lt.
    + intros c Hc Hl. rewrite <- normalized_normal_form in Hl.
      apply Nat.ltb_lt in Hl.
      destruct (Hfirst c Hc Hl) as (f & Hf & Ek & Hleast).
      exists f. rewrite <- !normalized_normal_form.
      split; [assumption|]. split; [assumption|].
      intros c' Hc' Ek'. rewrite <- !normalized_normal_form in Ek'. auto.
  - destruct (pdf_candidates_ok text) as [cs Hcs].
    exists cs, (PdfParser.unique [] (sorted PdfParser.by_start_pos cs)).
    unfold PdfParser.extract_formulas. rewrite Hcs. simpl.
    split; [reflexivity|]. split; [reflexivity|].
    rewrite pdf_unique_keep_first.
    destruct (sorted_keep_first PdfParser.formula_key (fun _ => true)
                                PdfParser.start_pos cs)
      as (Hnodup & Hin & Hfirst).
    split; [exact Hnodup|]. split.
    + intros f Hf. now apply Hin.
    + intros c Hc. now apply Hfirst.
Qed.

End Claims.

(** C1, counterexample.  In [$a b$] the inline pattern finds the
    candidate [a b], whose key [ab] has two characters: the key occurs
    among the candidates and no formula survives for it. *)
Lemma short_key_has_no_survivor :
  ~ (forall cs fs,
       candidates (U := BasicLatin) a_b = Ok cs ->
       _extract_formulas_by_pattern (U := BasicLatin) a_b = Ok fs ->
       forall c, In c cs ->
         exists f, In f fs
                   /\ normal_form (U := BasicLatin) (latex f)
                      = normal_form (U := BasicLatin) (latex c)).
Proof.
  intros H.
  destruct (candidates (U := BasicLatin) a_b) as [cs|] eqn:Ecs; [|discriminate Ecs].
  destruct (_extract_formulas_by_pattern (U := BasicLatin) a_b) as [fs|] eqn:Efs;
    [|discriminate Efs].
  specialize (H cs fs eq_refl eq_refl).
  vm_compute in Ecs. inversion Ecs; subst cs. clear Ecs.
  vm_compute in Efs. inversion Efs; subst fs. clear Efs.
  destruct (H _ (or_introl eq_refl)) as (f & [] & _).
Qed.

(** The key of the PDF parser removes the spaces only: with a tab in
    the first formula of [tabbed], two of the formulas returned have
    the same normalized form, [ab=c]. *)
Lemma pdf_keys_keep_tabs :
  exists f1 f2 f3,
    PdfParser.extract_formulas (U := BasicLatin) tabbed = Ok [f1; f2; f3]
    /\ PdfParser.formula_key (U := BasicLatin) f1
       <> PdfParser.formula_key (U := BasicLatin) f3
    /\ normal_form (U := BasicLatin) (PdfParser.latex f1) = s "ab=c"
    /\ normal_form (U := BasicLatin) (PdfParser.latex f3) = s "ab=c".
Proof.
  do 3 eexists. split; [vm_compute; reflexivity|].
  split; [vm_compute; discriminate|].
  split; vm_compute; reflexivity.
Qed.

End Formulas.

(** ** Failure policy *)

Module Failure.
Import Py Re Schemas ContentAnalyzer Props ReFacts SegFacts HierarchyFacts SortFacts FormulaFacts.

Section Claims.
Context {U : Unicode}.

Lemma loop_inv_in (P : seg_state -> Prop) lines :
  forall items,
    (forall st it st', In it items -> P st -> step lines st it = Ok st' -> P st') ->
    forall st, P st -> exists st', loop lines items st = Ok st' /\ P st'.
Proof.
  induction items as [|it items IH]; intros Hstep st HP; simpl.
  - eauto.
  - destruct (step_cases lines st it) as (st1 & E & _). rewrite E. simpl.
    apply IH.
    + intros st0 it0 st0' Hin. apply Hstep. now right.
    + eapply Hstep; eauto. now left.
Qed.

Lemma no_heading_no_topic (text : str) :
  (forall line pat lvl ty,
      In line (split [NL] text) -> In (pat, lvl, ty) patterns ->
      re_match I pat (strip line) = None) ->
  _identify_structural_topics text = Ok [].
Proof.
  intros Hno. unfold _identify_structural_topics.
  destruct (@loop_inv_in (fun st => topics st = []) (split [NL] text)
                         (enumerate (split [NL] text))) with
      (st := {| topics := []; topic_id := 1; current_page := 1%Z |})
    as (st & -> & Hst).
  - intros st it st' Hin Ht Hstep.
    destruct (step_cases (split [NL] text) st it) as (st1 & E & Hc).
    rewrite E in Hstep. inversion Hstep; subst st1.
    destruct Hc as [[Ht' _]|(t & pat & lvl & ty & m & Hpat & Hm & _)].
    + congruence.
    + destruct it as [n line]. apply in_combine_r in Hin. simpl in Hm.
      rewrite (Hno line pat lvl ty Hin Hpat) in Hm. discriminate.
  - reflexivity.
  - simpl. now rewrite Hst.
Qed.

(** C9.  The heading segmenter and the pattern-based formula extractor
    return a list for every text, the empty text included, and never
    raise; a text in which no line matches a heading pattern has no
    topic, a text in which no formula pattern matches has no formula,
    and both lists are empty for the empty text. *)
Theorem extractors_never_raise (text : str) :
  (exists ts, _identify_structural_topics text = Ok ts)
  /\ (exists fs, _extract_formulas_by_pattern text = Ok fs)
  /\ ((forall line pat lvl ty,
          In line (split [NL] text) -> In (pat, lvl, ty) patterns ->
          re_match I pat (strip line) = None) ->
      _identify_structural_topics text = Ok [])
  /\ ((forall pat ty, In (pat, ty) formula_patterns -> finditer SI pat text = []) ->
      _extract_formulas_by_pattern text = Ok [])
  /\ _identify_structural_topics [] = Ok []
  /\ _extract_formulas_by_pattern [] = Ok [].
Proof.
  repeat split.
  - destruct (segmented text) as (st & E & _).
    unfold _identify_structural_topics. rewrite E. simpl. eauto.
  - destruct (candidates_ok text) as [cs E].
    unfold _extract_formulas_by_pattern. rewrite E. simpl. eauto.
  - apply no_heading_no_topic.
  - intros Hno. unfold _extract_formulas_by_pattern, candidates.
    rewrite for_patterns_no_match; [reflexivity|].
    intros [pat ty] Hin. simpl. eauto.
Qed.

End Claims.

Lemma extractors_never_raise_witness :
  _identify_structural_topics (U := BasicLatin) plain_text = Ok []
  /\ _extract_formulas_by_pattern (U := BasicLatin) plain_text = Ok [].
Proof.
  destruct (extractors_never_raise (U := BasicLatin) plain_text)
    as (_ & _ & Hseg & Hfx & _).
  split.
  - apply Hseg. intros line pat lvl ty Hline Hpat.
    vm_compute in Hline. destruct Hline as [<-|[]].
    unfold patterns in Hpat. simpl in Hpat.
    repeat (destruct Hpat as [Hpat|Hpat];
            [inversion Hpat; subst; vm_compute; reflexivity|]).
    contradiction.
  - apply Hfx. intros pat ty Hpat.
    unfold formula_patterns in Hpat. simpl in Hpat.
    repeat (destruct Hpat as [Hpat|Hpat];
            [inversion Hpat; subst; vm_compute; reflexivity|]).
    contradiction.
Defined.

End Failure.

(** ** The examples of the specification *)

Module Examples.
Import Py Re Schemas ContentAnalyzer Props.

#[local] Existing Instance BasicLatin.

(** C4, counterexample.  On the example text the extractor does not
    return one formula. *)
Lemma law_not_one_formula :
  ~ (exists f, _extract_formulas_by_pattern law = Ok [f]
               /\ normal_form (latex f) = s "f=ma").
Proof. intros (f & E & _). vm_compute in E. discriminate E. Qed.

(** C4 (amended).  On the example text both extractors return three
    formulas: [F = ma] found at offset 16 by the display pattern, the
    match of the assignment pattern that starts at offset 18 and runs
    to the end of the text, and [and also], which the inline pattern
    finds between the dollar signs at offsets 25 and 36.  One of the
    three has the normalized form [f=ma]; the second [F = ma], found
    at offset 17 by the inline pattern, is removed as a duplicate. *)
Theorem law_three_formulas :
  (exists fs cs,
      _extract_formulas_by_pattern law = Ok fs
      /\ map (fun f => (latex f, position f)) fs
         = [ (s "F = ma", 16);
             (s "F = ma$$ and also $F=ma$", 18);
             (s "and also", 25) ]
      /\ map (fun f => normal_form (latex f)) fs
         = [ s "f=ma"; s "f=ma$$andalso$f=ma$"; s "andalso" ]
      /\ candidates law = Ok cs
      /\ map (fun f => (latex f, position f)) cs
         = [ (s "F = ma", 16); (s "F = ma", 17); (s "and also", 25);
             (s "F = ma$$ and also $F=ma$", 18) ])
  /\ (exists fs,
         PdfParser.extract_formulas law = Ok fs
         /\ map (fun f => (PdfParser.latex f, PdfParser.start_pos f)) fs
            = [ (s "F = ma", 16);
                (s "F = ma$$ and also $F=ma$", 18);
                (s "and also", 25) ]
         /\ map PdfParser.formula_key fs
            = [ s "f=ma"; s "f=ma$$andalso$f=ma$"; s "andalso" ]).
Proof.
  split.
  - eexists. eexists.
    split; [vm_compute; reflexivity|].
    split; [vm_compute; reflexivity|].
    split; [vm_compute; reflexivity|].
    split; [vm_compute; reflexivity|].
    vm_compute; reflexivity.
  - eexists.
    split; [vm_compute; reflexivity|].
    split; vm_compute; reflexivity.
Qed.

(** C5, counterexample.  On the example text the second topic is not
    titled [Frequency]. *)
Lemma waves_second_title_not_frequency :
  ~ (exists t1 t2,
        _identify_structural_topics waves = Ok [t1; t2]
        /\ level t1 = 1%Z /\ title t1 = s "Waves" /\ parent_id t1 = None
        /\ level t2 = 2%Z /\ title t2 = s "Frequency"
        /\ parent_id t2 = Some (id t1)).
Proof.
  intros (t1 & t2 & E & _ & _ & _ & _ & Ht & _).
  vm_compute in E. inversion E; subst. vm_compute in Ht. discriminate Ht.
Qed.

(** C5 (amended).  On the example text the segmenter returns two
    topics: the first of level 1, titled [Waves], without parent; the
    second of level 2, titled [1 Frequency], whose parent is the first.
    (The line [Section 1.1 Frequency] matches the pattern for
    [Section N], which takes [1] as the number, the dot as the
    separator and [1 Frequency] as the title.) *)
Theorem waves_two_topics :
  _identify_structural_topics waves
  = Ok [ {| id := s "topic_1"; title := s "Waves"; type := CHAPTER;
            level := 1%Z; parent_id := None;
            content := s "Waves are periodic.";
            page_range := (1%Z, 1%Z); keywords := [] |};
         {| id := s "topic_2"; title := s "1 Frequency"; type := SECTION;
            level := 2%Z; parent_id := Some (s "topic_1");
            content := s "Frequency is cycles per second.";
            page_range := (1%Z, 1%Z); keywords := [] |} ].
Proof. vm_compute. reflexivity. Qed.

End Examples.

(** ** Keywords *)

Module SortFilter.
Import Py SortFacts.

Lemma In_firstn (A : Type) (x : A) :
  forall n l, In x (firstn n l) -> In x l.
Proof.
  induction n as [|n IH]; intros [|y l] H; simpl in H; try contradiction.
  destruct H as [<-|H]; [now left | right; auto].
Qed.

Section Sort.
Variable A : Type.
Variable before : A -> A -> bool.
Hypothesis before_total : forall x y, before x y = true \/ before y x = true.
Hypothesis before_trans :
  forall x y z, before x y = true -> before y z = true -> before x z = true.
Variable P : A -> bool.

Let R (x y : A) : Prop := before x y = true.

Lemma insert_front (x : A) (l : list A) :
  Forall (R x) l -> insert before x l = x :: l.
Proof.
  intros H. destruct l as [|y l]; simpl; [reflexivity|].
  inversion H as [|? ? Hy _]; subst. unfold R in Hy. now rewrite Hy.
Qed.

Lemma filter_insert_out (x : A) (l : list A) :
  P x = false -> filter P (insert before x l) = filter P l.
Proof.
  intros Hx. induction l as [|y l IH]; simpl.
  - now rewrite Hx.
  - destruct (before x y); simpl; [now rewrite Hx|]. now rewrite IH.
Qed.

Lemma filter_insert_in (x : A) (l : list A) :
  StronglySorted R l -> P x = true ->
  filter P (insert before x l) = insert before x (filter P l).
Proof.
  intros Hs Hx. induction l as [|y l IH]; simpl.
  - now rewrite Hx.
  - inversion Hs as [|? ? Hl Hy]; subst.
    destruct (before x y) eqn:E; simpl.
    + rewrite Hx. destruct (P y) eqn:Py.
      * simpl. now rewrite E.
      * symmetry. apply insert_front.
        apply Forall_forall. intros z Hz. apply filter_In in Hz.
        rewrite Forall_forall in Hy. eapply before_trans; [exact E|].
        apply Hy. tauto.
    + destruct (P y) eqn:Py; simpl; [rewrite E|]; now rewrite IH.
Qed.

(** A stable sort commutes with a filter. *)
Lemma sorted_filter (l : list A) :
  sorted before (filter P l) = filter P (sorted before l).
Proof.
  induction l as [|x l IH]; simpl; [reflexivity|].
  destruct (P x) eqn:Px; simpl.
  - rewrite IH. symmetry. apply filter_insert_in; [|assumption].
    now apply sorted_sorted.
  - rewrite IH. symmetry. now apply filter_insert_out.
Qed.

Lemma filter_none (l : list A) :
  (forall z, In z l -> P z = false) -> filter P l = [].
Proof.
  induction l as [|z l IH]; intros H; simpl; [reflexivity|].
  rewrite (H z) by now left. apply IH. intros; apply H; now right.
Qed.

(** When the elements that pass the filter stand first, taking a
    prefix commutes with the filter. *)
Lemma firstn_filter (l : list A) :
  StronglySorted R l ->
  (forall x y, R x y -> P y = true -> P x = true) ->
  forall n, firstn n (filter P l) = filter P (firstn n l).
Proof.
  intros Hs Hup. induction l as [|x l IH]; intros n.
  - now destruct n.
  - inversion Hs as [|? ? Hl Hx]; subst.
    destruct n as [|n]; [reflexivity|]. simpl.
    destruct (P x) eqn:Px; simpl; [now rewrite IH|].
    assert (Hnone : forall z, In z l -> P z = false).
    { intros z Hz. rewrite Forall_forall in Hx.
      destruct (P z) eqn:Pz; [|reflexivity].
      rewrite (Hup x z (Hx z Hz) Pz) in Px. discriminate. }
    rewrite !filter_none; auto.
    intros z Hz. apply Hnone. eapply In_firstn; eauto.
Qed.

End Sort.
End SortFilter.

Module Keywords.
Import Py Re Schemas ContentAnalyzer Props SortFacts SortFilter.

Lemma by_freq_total (x y : str * nat) :
  by_freq_desc x y = true \/ by_freq_desc y x = true.
Proof. unfold by_freq_desc. rewrite !Nat.leb_le. lia. Qed.

Lemma by_freq_trans (x y z : str * nat) :
  by_freq_desc x y = true -> by_freq_desc y z = true -> by_freq_desc x z = true.
Proof. unfold by_freq_desc. rewrite !Nat.leb_le. lia. Qed.

Lemma filter_andb (A : Type) (f g : A -> bool) (l : list A) :
  filter (fun x => f x && g x) l = filter f (filter g l).
Proof.
  induction l as [|x l IH]; simpl; [reflexivity|].
  destruct (g x); simpl.
  - destruct (f x); simpl; now rewrite IH.
  - now rewrite andb_false_r.
Qed.

Lemma count_word_keys (w k : str) (d : list (str * nat)) :
  In k (map fst (count_word d w)) -> k = w \/ In k (map fst d).
Proof.
  induction d as [|[k0 n] d IH]; simpl.
  - intros [<-|[]]. now left.
  - destruct (str_eqb k0 w); simpl.
    + intros [<-|H]; auto.
    + intros [<-|H]; auto. apply IH in H. tauto.
Qed.

Lemma counted_keys (k : str) :
  forall ws d, In k (map fst (fold_left count_word ws d)) ->
               In k ws \/ In k (map fst d).
Proof.
  induction ws as [|w ws IH]; intros d H; simpl in *; [now right|].
  apply IH in H. destruct H as [H|H]; [tauto|].
  apply count_word_keys in H. destruct H as [->|H]; tauto.
Qed.

Section Claims.
Context {U : Unicode}.

(** C6 (amended).  The keywords of a text are computed as the
    specification says, for words of at least four letters: the
    pattern finds the alphabetic words of at least three letters of
    the text in lower case, the filter that drops the stop words also
    drops the words of exactly three letters; the words left are
    counted, those counted once are dropped, and the ten most frequent
    are returned, most frequent first, equal counts in the order of
    first occurrence.  So every keyword has at least four letters and
    there are at most ten. *)
Theorem keywords_refine_spec (text : str) :
  _extract_keywords text = keywords_by 4 text
  /\ length (_extract_keywords text) <= 10
  /\ forall w, In w (_extract_keywords text) ->
               4 <= length w /\ mem w stop_words = false.
Proof.
  assert (E : _extract_keywords text = keywords_by 4 text).
  { unfold _extract_keywords, keywords_by.
    rewrite filter_andb. f_equal.
    rewrite (@sorted_filter _ by_freq_desc by_freq_total by_freq_trans).
    symmetry. apply (@firstn_filter _ by_freq_desc).
    - apply (@sorted_sorted _ by_freq_desc by_freq_total by_freq_trans).
    - intros x y Hxy Hy. unfold by_freq_desc in Hxy.
      apply Nat.leb_le in Hxy. apply Nat.ltb_lt in Hy. apply Nat.ltb_lt. lia. }
  split; [exact E|]. split.
  - rewrite E. unfold keywords_by. rewrite length_map, length_firstn. lia.
  - intros w Hw. unfold _extract_keywords in Hw.
    apply in_map_iff in Hw. destruct Hw as ([w' n] & <- & Hw). simpl.
    apply filter_In in Hw. destruct Hw as [Hw _]. apply In_firstn in Hw.
    apply (Permutation_in _ (sorted_perm _ _)) in Hw.
    apply (in_map fst) in Hw. simpl in Hw.
    apply counted_keys in Hw. destruct Hw as [Hw|[]].
    apply filter_In in Hw. destruct Hw as [_ Hw].
    apply andb_true_iff in Hw. destruct Hw as [Hs Hl].
    apply Nat.ltb_lt in Hl. apply negb_true_iff in Hs. split; [lia | assumption].
Qed.

End Claims.

(** C6, counterexample.  In [cat cat] the word [cat] has three
    letters, is no stop word and occurs twice: it is a keyword as the
    claim words it, and the code returns no keyword. *)
Lemma three_letter_word_is_dropped :
  findall (U := BasicLatin) no_flags word_re (lower (Unicode := BasicLatin) cats)
  = [s "cat"; s "cat"]
  /\ mem (s "cat") stop_words = false
  /\ keywords_by (U := BasicLatin) 3 cats = [s "cat"]
  /\ _extract_keywords (U := BasicLatin) cats = []
  /\ _extract_keywords (U := BasicLatin) cats <> keywords_by (U := BasicLatin) 3 cats.
Proof.
  repeat split; try (vm_compute; reflexivity).
  vm_compute. discriminate.
Qed.

End Keywords.

(** ** The topic merger *)

Module MergeFacts.
Import Py Schemas ContentAnalyzer Props.

Lemma same_but_keywords_refl (t : Topic) : same_but_keywords t t.
Proof. unfold same_but_keywords. tauto. Qed.

Lemma same_but_keywords_trans (t1 t2 t3 : Topic) :
  same_but_keywords t1 t2 -> same_but_keywords t2 t3 -> same_but_keywords t1 t3.
Proof. unfold same_but_keywords. intuition congruence. Qed.

Section Facts.
Context {U : Unicode}.
Variable list_of_set : list str -> list str.

(** One candidate: the store changes in the keywords of one topic at
    most, and the candidate is appended or not. *)
Lemma merge_step_cases (h : heap) (merged : list ref) (a : ref) :
  exists h' extra,
    merge_step list_of_set (h, merged) a = (h', merged ++ extra)
    /\ (forall r, same_but_keywords (h r) (h' r))
    /\ (forall r, similar (title (h a)) (title (h r)) = false -> h' r = h r)
    /\ ((extra = []
         /\ ((exists e, In e merged /\ similar (title (h a)) (title (h e)) = true)
             \/ long_title h a = false))
        \/ (extra = [a] /\ long_title h a = true /\ h' = h
            /\ forall e, In e merged -> similar (title (h a)) (title (h e)) = false)).
Proof.
  unfold merge_step, find_duplicate.
  destruct (find _ merged) as [e|] eqn:Ef.
  - apply find_some in Ef. destruct Ef as [He Hsim].
    eexists _, []. rewrite app_nil_r. split; [reflexivity|].
    split; [|split].
    + intros r. unfold upd. destruct (Nat.eqb r e) eqn:Er.
      * apply Nat.eqb_eq in Er. subst r. unfold same_but_keywords. simpl. tauto.
      * apply same_but_keywords_refl.
    + intros r Hr. unfold upd. destruct (Nat.eqb r e) eqn:Er; [|reflexivity].
      apply Nat.eqb_eq in Er. subst r. congruence.
    + left. split; [reflexivity|]. left. eauto.
  - pose proof (find_none _ _ Ef) as Hnone. simpl in Hnone.
    fold (long_title h a). destruct (long_title h a) eqn:El.
    + exists h, [a]. split; [reflexivity|].
      split; [intros; apply same_but_keywords_refl|].
      split; [reflexivity|]. right. auto.
    + exists h, []. rewrite app_nil_r. split; [reflexivity|].
      split; [intros; apply same_but_keywords_refl|].
      split; [reflexivity|]. left. auto.
Qed.

Lemma merge_fold (ai : list ref) :
  forall h merged,
  exists h' extra,
    fold_left (merge_step list_of_set) ai (h, merged) = (h', merged ++ extra)
    /\ subseq extra (filter (long_title h) ai)
    /\ (forall r, same_but_keywords (h r) (h' r))
    /\ (forall r, (forall a, In a ai -> similar (title (h a)) (title (h r)) = false) ->
                  h' r = h r)
    /\ (forall a, In a ai -> long_title h a = true ->
          In a extra
          \/ exists e, In e (merged ++ extra)
                       /\ similar (title (h a)) (title (h e)) = true).
Proof.
  induction ai as [|a ai IH]; intros h merged.
  - exists h, []. rewrite app_nil_r. simpl.
    split; [reflexivity|]. split; [apply subseq_nil|].
    split; [intros; apply same_but_keywords_refl|].
    split; [reflexivity|]. intros a [].
  - destruct (merge_step_cases h merged a) as (h1 & ex1 & E1 & Hf1 & Hu1 & Hc1).
    destruct (IH h1 (merged ++ ex1)) as (h2 & ex2 & E2 & Hs2 & Hf2 & Hu2 & Hk2).
    assert (Ht : forall r, title (h1 r) = title (h r)) by (intros r; apply Hf1).
    assert (Hl : forall r, long_title h1 r = long_title h r)
      by (intros r; unfold long_title; now rewrite Ht).
    exists h2, (ex1 ++ ex2). cbn [fold_left]. rewrite E1, E2, app_assoc.
    split; [reflexivity|].
    rewrite (filter_ext _ _ Hl) in Hs2.
    split; [|split; [|split]].
    + simpl. destruct Hc1 as [[-> _]|(-> & -> & _)]; simpl.
      * destruct (long_title h a); [now apply subseq_skip | assumption].
      * now apply subseq_keep.
    + intros r. eapply same_but_keywords_trans; eauto.
    + intros r Hr. rewrite Hu2.
      * apply Hu1. apply Hr. now left.
      * intros b Hb. rewrite !Ht. apply Hr. now right.
    + intros b [<-|Hb] Hlb.
      * destruct Hc1 as [[-> [(e & He & Hsim)|Hshort]]|(-> & _)].
        -- right. exists e. split; [|assumption].
           apply in_or_app. left. apply in_or_app. now left.
        -- congruence.
        -- left. now left.
      * rewrite <- Hl in Hlb. destruct (Hk2 b Hb Hlb) as [Hin|(e & He & Hsim)].
        -- left. apply in_or_app. now right.
        -- right. exists e. rewrite !Ht in Hsim. auto.
Qed.

(** Candidates that resemble neither a topic of the list nor one
    another are appended as they are. *)
Lemma merge_fold_distinct (h : heap) (ai : list ref) :
  forall merged,
    ForallOrdPairs (fun a b => similar (title (h b)) (title (h a)) = false) ai ->
    (forall e b, In e merged -> In b ai ->
                 similar (title (h b)) (title (h e)) = false) ->
    fold_left (merge_step list_of_set) ai (h, merged) = (h, merged ++ filter (long_title h) ai).
Proof.
  induction ai as [|a ai IH]; intros merged Hpairs Hm; cbn [fold_left filter].
  - now rewrite app_nil_r.
  - inversion Hpairs as [|? ? Ha Hrest]; subst.
    rewrite Forall_forall in Ha.
    destruct (merge_step_cases h merged a) as (h1 & ex1 & E1 & _ & _ & Hc1).
    rewrite E1.
    destruct Hc1 as [[-> [(e & He & Hsim)|Hshort]]|(-> & Hlong & -> & _)].
    + rewrite (Hm e a He (or_introl eq_refl)) in Hsim. discriminate.
    + assert (h1 = h) as ->.
      { revert E1. unfold merge_step, find_duplicate.
        destruct (find _ merged) as [e|] eqn:Ef.
        - apply find_some in Ef. destruct Ef as [He Hsim].
          rewrite (Hm e a He (or_introl eq_refl)) in Hsim. discriminate.
        - destruct (3 <? length (title (h a))); intros E; now inversion E. }
      rewrite Hshort, app_nil_r. apply IH; [assumption|].
      intros e b He Hb. apply Hm; [assumption | now right].
    + rewrite Hlong. rewrite IH; [now rewrite <- app_assoc | assumption |].
      intros e b He Hb. apply in_app_or in He. destruct He as [He|[<-|[]]].
      * apply Hm; [assumption | now right].
      * now apply Ha.
Qed.

End Facts.
End MergeFacts.

Module Merge.
Import Py Schemas ContentAnalyzer Props MergeFacts.

Section Claims.
Context {U : Unicode}.
Variable list_of_set : list str -> list str.

(** C10.  The list returned by the merger starts with the structural
    topics, in their order, followed by candidates in their order.  No
    topic of the store changes in [id], [title], [type], [level],
    [parent_id], [content] or [page_range]; a topic whose title no
    candidate's title resembles does not change at all. *)
Theorem merge_keeps_structural_prefix (h : heap) (structural ai : list ref) :
  exists extra,
    snd (_merge_topics list_of_set h structural ai) = structural ++ extra
    /\ firstn (length structural) (snd (_merge_topics list_of_set h structural ai))
       = structural
    /\ subseq extra ai
    /\ (forall r, same_but_keywords
                    (h r) (fst (_merge_topics list_of_set h structural ai) r))
    /\ (forall r,
           (forall a, In a ai -> similar (title (h a)) (title (h r)) = false) ->
           fst (_merge_topics list_of_set h structural ai) r = h r).
Proof.
  unfold _merge_topics.
  destruct (merge_fold list_of_set ai h structural)
    as (h' & extra & -> & Hsub & Hframe & Hsame & _).
  exists extra. simpl. split; [reflexivity|].
  split; [now rewrite firstn_app, firstn_all, Nat.sub_diag, firstn_0, app_nil_r|].
  split; [|auto].
  clear -Hsub. induction ai as [|a ai IH] in extra, Hsub |- *; simpl in Hsub.
  - assumption.
  - destruct (long_title h a).
    + inversion Hsub; subst; [apply subseq_skip | apply subseq_keep]; auto.
    + apply subseq_skip. auto.
Qed.

(** C7 (amended).  Merging candidates into an empty list returns, in
    their order, candidates whose title has more than three
    characters.  Such a candidate is an entry of the result, or its
    title resembles the title of an entry of the result (it has been
    merged into an entry kept before it).  When no candidate's title
    resembles the title of a candidate before it, the result is the
    candidates whose title has more than three characters, and the
    store is unchanged. *)
Theorem merge_into_empty (h : heap) (ai : list ref) :
  subseq (snd (_merge_topics list_of_set h [] ai)) (filter (long_title h) ai)
  /\ (forall a, In a ai -> long_title h a = true ->
        In a (snd (_merge_topics list_of_set h [] ai))
        \/ exists e, In e (snd (_merge_topics list_of_set h [] ai))
                     /\ similar (title (h a)) (title (h e)) = true)
  /\ (ForallOrdPairs (fun a b => similar (title (h b)) (title (h a)) = false) ai ->
      _merge_topics list_of_set h [] ai = (h, filter (long_title h) ai)).
Proof.
  unfold _merge_topics.
  destruct (merge_fold list_of_set ai h [])
    as (h' & extra & E & Hsub & _ & _ & Hkept).
  split; [|split].
  - rewrite E. assumption.
  - rewrite E. exact Hkept.
  - intros Hpairs.
    apply (@merge_fold_distinct _ list_of_set h ai [] Hpairs).
    intros e b [].
Qed.

End Claims.

(** C7, counterexample.  Two candidates titled [Quantum Physics]: both
    titles have more than three characters, and the second candidate
    is merged into the first. *)
Lemma similar_candidate_is_absorbed :
  filter (long_title store) [0; 1] = [0; 1]
  /\ snd (_merge_topics (U := BasicLatin) set_of store [] [0; 1]) = [0]
  /\ snd (_merge_topics (U := BasicLatin) set_of store [] [0; 1])
     <> filter (long_title store) [0; 1].
Proof.
  split; [reflexivity|]. split; [vm_compute; reflexivity|].
  vm_compute. discriminate.
Qed.

Lemma merge_into_empty_witness :
  _merge_topics (U := BasicLatin) set_of store [] [0; 2] = (store, [0; 2]).
Proof.
  destruct (merge_into_empty (U := BasicLatin) set_of store [0; 2]) as (_ & _ & H).
  apply H.
  constructor; [|constructor; [constructor | constructor]].
  constructor; [vm_compute; reflexivity | constructor].
Defined.

Lemma merge_keeps_structural_prefix_witness :
  fst (_merge_topics (U := BasicLatin) set_of store [2] [0; 1]) 2 = store 2.
Proof.
  destruct (merge_keeps_structural_prefix (U := BasicLatin) set_of store [2] [0; 1])
    as (extra & _ & _ & _ & _ & H).
  apply H. intros a [<-|[<-|[]]]; vm_compute; reflexivity.
Defined.

End Merge.

(** ** The chunker *)

Module Chunks.
Import Py ContentAnalyzer Props.

(** C3, the failing inputs.  With a budget of one token the text
    [A. B. C.] comes back as one chunk of two tokens, made of three
    sentences: the sentence loop tests the length of
    [current_chunk + sentence] and stores
    [current_chunk + ". " + sentence].  With the same budget, the
    second paragraph of [two_paragraphs] comes back whole, four tokens
    and three sentences: a paragraph that follows a non-empty chunk
    is not split into sentences. *)
Theorem chunk_over_budget :
  (exists chunk,
      In chunk (_split_text_into_chunks abc 1)
      /\ (1 < tokens chunk)%Z
      /\ split (s ". ") chunk = [s "A"; s "B"; s "C."])
  /\ (exists chunk,
         In chunk (_split_text_into_chunks two_paragraphs 1)
         /\ (1 < tokens chunk)%Z
         /\ split (s ". ") chunk = [s "Aaaa"; s "Bbbb"; s "Cccc"]).
Proof.
  split.
  - exists abc. split; [vm_compute; now left|].
    split; vm_compute; reflexivity.
  - exists (s "Aaaa. Bbbb. Cccc"). split; [vm_compute; right; now left|].
    split; vm_compute; reflexivity.
Qed.

(** C8, counterexample.  The chunker does not return three chunks. *)
Lemma abc_not_three_chunks :
  _split_text_into_chunks abc 1 = [s "A. B. C."]
  /\ _split_text_into_chunks abc 1 <> [s "A"; s "B"; s "C."].
Proof. split; [vm_compute; reflexivity | vm_compute; discriminate]. Qed.

(** C8 (amended).  On [A. B. C.] with a budget of one token the
    paragraph is split into the sentences [A], [B] and [C.]; one token
    stands for up to seven characters, so the first two sentences are
    packed into one chunk, which starts with [A. B]: fewer than three
    chunks are returned, and none of them is empty. *)
Theorem abc_sentences_are_packed :
  split (s ". ") abc = [s "A"; s "B"; s "C."]
  /\ (tokens (s "A. B") <= 1)%Z
  /\ (exists first rest,
         _split_text_into_chunks abc 1 = first :: rest
         /\ startswith (s "A. B") first = true)
  /\ length (_split_text_into_chunks abc 1) < 3
  /\ Forall (fun chunk => chunk <> []) (_split_text_into_chunks abc 1).
Proof.
  split; [vm_compute; reflexivity|].
  split; [vm_compute; discriminate|].
  split; [eexists; eexists; split; vm_compute; reflexivity|].
  split; [vm_compute; lia|].
  vm_compute. constructor; [discriminate | constructor].
Qed.

End Chunks.

(** ** The chunker packs the text *)

Module ChunkFacts.
Import Py ContentAnalyzer ChunkProps.

Lemma startswith_app : forall p t, startswith p t = true -> exists rest, t = p ++ rest.
Proof.
  induction p as [|c p IH]; intros t H; simpl in H.
  - exists t. reflexivity.
  - destruct t as [|d t]; [discriminate|].
    apply andb_true_iff in H. destruct H as [Hc Hp].
    apply N.eqb_eq in Hc. subst d.
    destruct (IH t Hp) as [rest ->]. exists rest. reflexivity.
Qed.

Lemma letters_app (a b : str) : letters (a ++ b) = letters a ++ letters b.
Proof. apply filter_app. Qed.

Lemma letters_separators (t : str) :
  Forall (fun c => is_separator c = true) t -> letters t = [].
Proof.
  induction 1 as [|c t Hc _ IH]; [reflexivity|].
  unfold letters in *. simpl. rewrite Hc. simpl. assumption.
Qed.

(** Splitting at a separator made of separator characters loses
    separator characters only. *)
Lemma split_go_letters (sep : str) :
  sep <> [] ->
  Forall (fun c => is_separator c = true) sep ->
  forall t skip cur,
    Forall (fun c => is_separator c = true) (firstn skip t) ->
    letters (concat (split_go sep skip cur t)) = letters (rev cur) ++ letters t.
Proof.
  intros Hne Hsep. induction t as [|c t IH]; intros skip cur Hskip.
  - simpl. now rewrite !app_nil_r.
  - destruct skip as [|k].
    + cbn [split_go]. destruct (startswith sep (c :: t)) eqn:Hs.
      * apply startswith_app in Hs. destruct Hs as [rest Hs].
        destruct sep as [|d sep]; [contradiction|].
        simpl in Hs. inversion Hs; subst d t.
           inversion Hsep as [|? ? Hc Hsep']; subst.
           cbn [concat length]. rewrite letters_app, Nat.sub_succ, Nat.sub_0_r, (IH (length sep) []).
           ++ unfold letters at 4. simpl. rewrite Hc. reflexivity.
           ++ rewrite firstn_app, firstn_all, Nat.sub_diag, firstn_0, app_nil_r.
              assumption.
      * rewrite (IH 0 (c :: cur)); [|constructor].
        simpl rev. rewrite letters_app, <- app_assoc. f_equal.
        symmetry. apply (letters_app [c] t).
    + cbn [split_go]. simpl in Hskip. inversion Hskip as [|? ? Hc Hk]; subst.
      rewrite (IH k cur Hk). unfold letters at 4. simpl. now rewrite Hc.
Qed.

Lemma split_letters (sep t : str) :
  sep <> [] ->
  Forall (fun c => is_separator c = true) sep ->
  letters (concat (split sep t)) = letters t.
Proof.
  intros Hne Hsep. unfold split.
  rewrite (split_go_letters Hne Hsep); [reflexivity|constructor].
Qed.

Lemma tokens_nonneg (t : str) : (0 <= tokens t)%Z.
Proof. unfold tokens. apply Z.div_pos; lia. Qed.

Lemma tokens_join (a b c : str) :
  length b = 2 -> (tokens (a ++ b ++ c) <= tokens (a ++ c) + 1)%Z.
Proof.
  intros Hb. unfold tokens. rewrite !length_app, Hb.
  replace (Z.of_nat (length a + (2 + length c)))
    with (Z.of_nat (length a + length c) + 2)%Z by lia.
  pose proof (Z.div_mod (Z.of_nat (length a + length c)) 4 ltac:(lia)).
  pose proof (Z.mod_pos_bound (Z.of_nat (length a + length c)) 4 ltac:(lia)).
  pose proof (Z.div_mod (Z.of_nat (length a + length c) + 2) 4 ltac:(lia)).
  pose proof (Z.mod_pos_bound (Z.of_nat (length a + length c) + 2) 4 ltac:(lia)).
  lia.
Qed.

Section Invariants.
Variable max_tokens : Z.
Variable P : str -> Prop.

Hypothesis join_sentence :
  forall a b, P a -> a <> [] -> (tokens (a ++ b) <= max_tokens)%Z ->
              P (a ++ s ". " ++ b).

Lemma add_sentence_all (st : chunk_state) (sentence : str) :
  sentence = [] \/ P sentence ->
  ((max_tokens < tokens sentence)%Z -> P sentence) ->
  all_chunks P st -> all_chunks P (add_sentence max_tokens st sentence).
Proof.
  intros Hs Hbig [Hc Hcur]. unfold add_sentence, all_chunks.
  destruct (max_tokens <? tokens (current_chunk st ++ sentence))%Z eqn:E.
  - destruct (current_chunk st) as [|c cur] eqn:Ecur; simpl.
    + split; [|now left]. apply Forall_app. split; [assumption|].
      constructor; [|constructor]. apply Hbig. now apply Z.ltb_lt.
    + split; [|assumption]. apply Forall_app. split; [assumption|].
      constructor; [|constructor]. destruct Hcur as [H|H]; [discriminate | assumption].
  - apply Z.ltb_ge in E.
    destruct (current_chunk st) as [|c cur] eqn:Ecur; simpl.
    + split; assumption.
    + split; [assumption|]. right. destruct Hcur as [H|H]; [discriminate|].
      change (P ((c :: cur) ++ s ". " ++ sentence)).
      apply join_sentence; [assumption | discriminate | assumption].
Qed.

Lemma add_sentences_all (sentences : list str) :
  Forall (fun x => (x = [] \/ P x) /\ ((max_tokens < tokens x)%Z -> P x)) sentences ->
  forall st, all_chunks P st ->
             all_chunks P (fold_left (add_sentence max_tokens) sentences st).
Proof.
  induction 1 as [|x xs [H1 H2] _ IH]; intros st Hst; simpl; [assumption|].
  apply IH. now apply add_sentence_all.
Qed.

Hypothesis join_paragraph :
  forall a b, P a -> a <> [] -> (tokens (a ++ [NL; NL] ++ b) <= max_tokens)%Z ->
              P (a ++ [NL; NL] ++ b).

Lemma add_paragraph_all (st : chunk_state) (paragraph : str) :
  paragraph = [] \/ P paragraph ->
  Forall (fun x => (x = [] \/ P x) /\ ((max_tokens < tokens x)%Z -> P x))
         (split (s ". ") paragraph) ->
  all_chunks P st -> all_chunks P (add_paragraph max_tokens st paragraph).
Proof.
  intros Hp Hsent [Hc Hcur]. unfold add_paragraph.
  destruct (current_chunk st) as [|c cur] eqn:Ecur.
  - destruct (max_tokens <? tokens paragraph)%Z eqn:E.
    + apply add_sentences_all; auto. split; [assumption|]. left. assumption.
    + split; assumption.
  - destruct Hcur as [H|Hcur]; [discriminate|].
    destruct (max_tokens <? tokens ((c :: cur) ++ [NL; NL] ++ paragraph))%Z eqn:E.
    + split; simpl; [|assumption]. apply Forall_app. split; [assumption|].
      now constructor.
    + apply Z.ltb_ge in E. split; [assumption|]. right. simpl.
      change (P ((c :: cur) ++ [NL; NL] ++ paragraph)).
      apply join_paragraph; [assumption | discriminate | assumption].
Qed.

Lemma add_paragraphs_all (paragraphs : list str) :
  Forall (fun p => (p = [] \/ P p)
                   /\ Forall (fun x => (x = [] \/ P x)
                                       /\ ((max_tokens < tokens x)%Z -> P x))
                             (split (s ". ") p)) paragraphs ->
  forall st, all_chunks P st ->
             all_chunks P (fold_left (add_paragraph max_tokens) paragraphs st).
Proof.
  induction 1 as [|p ps [H1 H2] _ IH]; intros st Hst; simpl; [assumption|].
  apply IH. now apply add_paragraph_all.
Qed.

(** An invariant of the packing holds of every chunk returned. *)
Lemma chunks_all (text : str) :
  ((tokens text <= max_tokens)%Z -> P text) ->
  Forall (fun p => (p = [] \/ P p)
                   /\ Forall (fun x => (x = [] \/ P x)
                                       /\ ((max_tokens < tokens x)%Z -> P x))
                             (split (s ". ") p)) (split [NL; NL] text) ->
  Forall P (_split_text_into_chunks text max_tokens).
Proof.
  intros Hwhole Hpars. unfold _split_text_into_chunks.
  destruct (tokens text <=? max_tokens)%Z eqn:E.
  - constructor; [|constructor]. apply Hwhole. now apply Z.leb_le.
  - destruct (@add_paragraphs_all (split [NL; NL] text) Hpars
                                  {| chunks := []; current_chunk := [] |})
      as [Hc Hcur].
    { split; [constructor | now left]. }
    destruct (current_chunk _) as [|c cur] eqn:Ecur; [assumption|].
    apply Forall_app. split; [assumption|].
    constructor; [|constructor]. destruct Hcur as [H|H]; [discriminate | assumption].
Qed.

End Invariants.

Lemma separators_dot : Forall (fun c => is_separator c = true) (s ". ").
Proof. repeat constructor. Qed.

Lemma separators_blank : Forall (fun c => is_separator c = true) [NL; NL].
Proof. repeat constructor. Qed.

Lemma letters_add_sentence max_tokens st sentence :
  letters (content (add_sentence max_tokens st sentence))
  = letters (content st) ++ letters sentence.
Proof.
  unfold add_sentence, content.
  destruct (max_tokens <? tokens (current_chunk st ++ sentence))%Z;
    destruct (current_chunk st) as [|c cur]; cbn [chunks current_chunk].
  - rewrite concat_app. cbn [concat]. now rewrite !app_nil_r, letters_app.
  - rewrite concat_app. cbn [concat].
    now rewrite app_nil_r, <- app_assoc, !letters_app, app_assoc.
  - now rewrite app_nil_r, letters_app.
  - rewrite !letters_app.
    rewrite (letters_separators separators_dot). now rewrite app_assoc.
Qed.

Lemma letters_add_sentences max_tokens sentences :
  forall st,
    letters (content (fold_left (add_sentence max_tokens) sentences st))
    = letters (content st) ++ letters (concat sentences).
Proof.
  induction sentences as [|x xs IH]; intros st; simpl.
  - now rewrite app_nil_r.
  - rewrite IH, letters_add_sentence, letters_app, app_assoc. reflexivity.
Qed.

Lemma letters_add_paragraph max_tokens st paragraph :
  letters (content (add_paragraph max_tokens st paragraph))
  = letters (content st) ++ letters paragraph.
Proof.
  unfold add_paragraph.
  destruct (current_chunk st) as [|c cur] eqn:Ecur.
  - destruct (max_tokens <? tokens paragraph)%Z.
    + rewrite letters_add_sentences, split_letters;
        [reflexivity | discriminate | apply separators_dot].
    + unfold content. cbn [chunks current_chunk].
      now rewrite Ecur, app_nil_r, !letters_app.
  - destruct (max_tokens <? tokens ((c :: cur) ++ [NL; NL] ++ paragraph))%Z;
      unfold content; cbn [chunks current_chunk]; rewrite Ecur.
    + rewrite concat_app. cbn [concat].
      now rewrite app_nil_r, <- app_assoc, !letters_app, app_assoc.
    + rewrite !letters_app.
      rewrite (letters_separators separators_blank). now rewrite app_assoc.
Qed.

Lemma letters_add_paragraphs max_tokens paragraphs :
  forall st,
    letters (content (fold_left (add_paragraph max_tokens) paragraphs st))
    = letters (content st) ++ letters (concat paragraphs).
Proof.
  induction paragraphs as [|x xs IH]; intros st; simpl.
  - now rewrite app_nil_r.
  - rewrite IH, letters_add_paragraph, letters_app, app_assoc. reflexivity.
Qed.

End ChunkFacts.

Module ChunkExtras.
Import Py ContentAnalyzer ChunkProps ChunkFacts.

(** X1.  Every chunk returned is within one token of the budget, or is
    a whole paragraph of the text, or is a whole sentence of one of
    its paragraphs: joining pieces never overshoots the budget by more
    than one token. *)
Theorem chunks_are_packed (text : str) (max_tokens : Z) :
  Forall (packed text max_tokens) (_split_text_into_chunks text max_tokens).
Proof.
  apply chunks_all.
  - intros a b _ _ H. left.
    pose proof (@tokens_join a (s ". ") b eq_refl). lia.
  - intros a b _ _ H. left. lia.
  - intros H. left. lia.
  - apply Forall_forall. intros p Hp. split.
    + right. right. left. assumption.
    + apply Forall_forall. intros x Hx.
      assert (packed text max_tokens x) by (right; right; eauto).
      split; auto.
Qed.

(** X2.  The chunks hold the text: apart from full stops, spaces and
    line feeds, the characters of the chunks, in their order, are the
    characters of the text. *)
Theorem chunks_keep_the_text (text : str) (max_tokens : Z) :
  letters (concat (_split_text_into_chunks text max_tokens)) = letters text.
Proof.
  unfold _split_text_into_chunks.
  destruct (tokens text <=? max_tokens)%Z.
  - simpl. now rewrite app_nil_r.
  - pose proof (letters_add_paragraphs max_tokens (split [NL; NL] text)
                  {| chunks := []; current_chunk := [] |}) as H.
    rewrite split_letters in H; [|discriminate | apply separators_blank].
    simpl in H. rewrite <- H. unfold content.
    destruct (current_chunk _) as [|c cur].
    + now rewrite app_nil_r.
    + rewrite concat_app. simpl. now rewrite app_nil_r.
Qed.

(** X3.  With a budget that is not negative, no chunk of a non-empty
    text is empty. *)
Theorem chunks_are_not_empty (text : str) (max_tokens : Z) :
  (0 <= max_tokens)%Z -> text <> [] ->
  Forall (fun chunk => chunk <> []) (_split_text_into_chunks text max_tokens).
Proof.
  intros Hmax Htext.
  assert (Hbig : forall x : str, (max_tokens < tokens x)%Z -> x <> []).
  { intros x Hx ->. change (tokens []) with 0%Z in Hx. lia. }
  assert (Hdec : forall x : str, x = [] \/ x <> [])
    by (intros [|c x]; [now left | right; discriminate]).
  apply (@chunks_all max_tokens (fun chunk => chunk <> [])).
  - intros a b _ Ha _ E. apply app_eq_nil in E. tauto.
  - intros a b _ Ha _ E. apply app_eq_nil in E. tauto.
  - auto.
  - apply Forall_forall. intros p _. split; [apply Hdec|].
    apply Forall_forall. intros x _. split; [apply Hdec | apply Hbig].
Qed.

Lemma chunks_are_not_empty_witness :
  Forall (fun chunk => chunk <> [])
         (_split_text_into_chunks (s "One. Two. Three. Four. Five.") 2).
Proof.
  apply chunks_are_not_empty; [lia | discriminate].
Defined.

End ChunkExtras.

(** ** The similarity of titles *)

Module SimilarityFacts.
Import Py Schemas ContentAnalyzer Props SortFacts.

Lemma set_of_NoDup (l : list str) : NoDup (set_of l).
Proof. apply NoDup_nodup. Qed.

Lemma set_of_In (l : list str) (x : str) : In x (set_of l) <-> In x l.
Proof. apply nodup_In. Qed.

Lemma set_of_nil (l : list str) : set_of l = [] <-> l = [].
Proof.
  split; [|now intros ->].
  intros H. destruct l as [|x l]; [reflexivity|].
  assert (Hin : In x (set_of (x :: l))) by (apply set_of_In; now left).
  rewrite H in Hin. contradiction.
Qed.

(** The words common to two sets of words, taken from either side. *)
Lemma common_length (w1 w2 : list str) :
  NoDup w1 -> NoDup w2 ->
  length (filter (fun w => mem w w2) w1) = length (filter (fun w => mem w w1) w2).
Proof.
  intros H1 H2. apply Permutation_length. apply NoDup_Permutation.
  - now apply NoDup_filter.
  - now apply NoDup_filter.
  - intros x. rewrite !filter_In, !mem_In. tauto.
Qed.

Lemma union_length (w1 w2 : list str) :
  length (set_of (w1 ++ w2)) = length (set_of (w2 ++ w1)).
Proof.
  apply Permutation_length. apply NoDup_Permutation; try apply set_of_NoDup.
  intros x. rewrite !set_of_In, !in_app_iff. tauto.
Qed.

Lemma union_bound (w1 w2 : list str) :
  NoDup w1 -> length w1 <= length (set_of (w1 ++ w2)).
Proof.
  intros H. apply NoDup_incl_length; [assumption|].
  intros x Hx. apply set_of_In, in_or_app. now left.
Qed.

Lemma union_self (w : list str) : NoDup w -> length (set_of (w ++ w)) = length w.
Proof.
  intros H. apply Permutation_length. apply NoDup_Permutation;
    [apply set_of_NoDup | assumption |].
  intros x. rewrite set_of_In, in_app_iff. tauto.
Qed.

Lemma common_self (w : list str) : filter (fun x => mem x w) w = w.
Proof.
  apply forallb_filter_id. apply forallb_forall. intros x Hx. now apply mem_In.
Qed.

Lemma Zpos_of_nat (n : nat) : n <> 0 -> Zpos (Pos.of_nat n) = Z.of_nat n.
Proof.
  intros H. rewrite <- (Nat2Pos.id n H) at 2. now rewrite positive_nat_Z.
Qed.

Section Facts.
Context {U : Unicode}.

(** X4.  The similarity of two texts is a number between 0 and 1 that
    does not depend on the order of the two texts. *)
Theorem similarity_range_symmetry (text1 text2 : str) :
  (0 <= _calculate_similarity text1 text2)%Q
  /\ (_calculate_similarity text1 text2 <= 1)%Q
  /\ _calculate_similarity text1 text2 = _calculate_similarity text2 text1.
Proof.
  unfold _calculate_similarity.
  pose proof (set_of_NoDup (split_ws text1)) as N1.
  pose proof (set_of_NoDup (split_ws text2)) as N2.
  destruct (set_of (split_ws text1)) as [|a w1] eqn:E1;
    destruct (set_of (split_ws text2)) as [|b w2] eqn:E2;
    try (repeat split; (discriminate || reflexivity)).
  rewrite <- E1, <- E2 in *.
  set (W1 := set_of (split_ws text1)) in *. set (W2 := set_of (split_ws text2)) in *.
  assert (Hu : length (set_of (W1 ++ W2)) <> 0).
  { pose proof (union_bound W2 N1) as Hb. rewrite E1 in Hb at 1. simpl in Hb. lia. }
  split; [|split].
  - unfold Qle. simpl. lia.
  - unfold Qle. simpl. rewrite Zpos_of_nat by assumption.
    pose proof (filter_length_le (fun w => mem w W2) W1).
    pose proof (union_bound W2 N1). lia.
  - rewrite (common_length N1 N2), (union_length W1 W2). reflexivity.
Qed.

(** X5.  A text with a word has similarity 1 with itself; two texts
    without a common word, and any text without a word, have
    similarity 0. *)
Theorem similarity_of_equal_and_disjoint (text1 text2 : str) :
  (split_ws text1 <> [] -> (_calculate_similarity text1 text1 == 1)%Q)
  /\ ((forall w, In w (split_ws text1) -> ~ In w (split_ws text2)) ->
      (_calculate_similarity text1 text2 == 0)%Q).
Proof.
  split.
  - intros Hw. unfold _calculate_similarity.
    pose proof (set_of_NoDup (split_ws text1)) as N1.
    destruct (set_of (split_ws text1)) as [|a w1] eqn:E1.
    + apply (proj1 (set_of_nil _)) in E1. contradiction.
    + rewrite <- E1 in *. set (W := set_of (split_ws text1)) in *.
      rewrite common_self, (union_self N1).
      unfold Qeq. simpl. rewrite Zpos_of_nat; [lia|].
      rewrite E1. discriminate.
  - intros Hdis. unfold _calculate_similarity.
    destruct (set_of (split_ws text1)) as [|a w1] eqn:E1; [reflexivity|].
    destruct (set_of (split_ws text2)) as [|b w2] eqn:E2; [reflexivity|].
    rewrite <- E1, <- E2.
    assert (Hnone : filter (fun w => mem w (set_of (split_ws text2)))
                           (set_of (split_ws text1)) = []).
    {       destruct (filter _ _) as [|x l] eqn:Ef; [reflexivity|].
      assert (Hx : In x (x :: l)) by now left.
      rewrite <- Ef in Hx. apply filter_In in Hx. destruct Hx as [Hx1 Hx2].
      apply (proj1 (mem_In _ _)) in Hx2.
      apply (proj1 (set_of_In _ _)) in Hx2. apply (proj1 (set_of_In _ _)) in Hx1.
      exfalso. exact (Hdis x Hx1 Hx2). }
    rewrite Hnone. unfold Qeq. simpl. reflexivity.
Qed.

End Facts.

Lemma similarity_of_equal_and_disjoint_witness :
  (_calculate_similarity (U := BasicLatin) (s "hello world") (s "hello world") == 1)%Q
  /\ (_calculate_similarity (U := BasicLatin) (s "hello world") (s "foo bar") == 0)%Q.
Proof.
  split.
  - apply (similarity_of_equal_and_disjoint (U := BasicLatin)
             (s "hello world") (s "hello world")).
    vm_compute. discriminate.
  - apply (similarity_of_equal_and_disjoint (U := BasicLatin)
             (s "hello world") (s "foo bar")).
    intros w Hw Hw'. vm_compute in Hw, Hw'.
    destruct Hw as [<-|[<-|[]]]; destruct Hw' as [E|[E|[]]]; discriminate E.
Defined.

End SimilarityFacts.

(** ** What the merger appends and keeps *)

Module MergeExtras.
Import Py Schemas ContentAnalyzer Props SortFacts MergeFacts SimilarityFacts.

Section Facts.
Context {U : Unicode}.
Variable list_of_set : list str -> list str.

Lemma merge_fold_dissimilar (ai : list ref) :
  forall h merged,
  exists h' extra,
    fold_left (merge_step list_of_set) ai (h, merged) = (h', merged ++ extra)
    /\ forall pre a post,
         extra = pre ++ a :: post ->
         In a ai /\ long_title h a = true
         /\ forall e, In e (merged ++ pre) ->
                      similar (title (h a)) (title (h e)) = false.
Proof.
  induction ai as [|a ai IH]; intros h merged.
  - exists h, []. rewrite app_nil_r. split; [reflexivity|].
    intros pre b post E. destruct pre; discriminate.
  - destruct (merge_step_cases list_of_set h merged a)
      as (h1 & ex1 & E1 & Hf1 & _ & Hc1).
    destruct (IH h1 (merged ++ ex1)) as (h2 & ex2 & E2 & H2).
    assert (Ht : forall r, title (h1 r) = title (h r)) by (intros r; apply Hf1).
    assert (Hl : forall r, long_title h1 r = long_title h r)
      by (intros r; unfold long_title; now rewrite Ht).
    exists h2, (ex1 ++ ex2). cbn [fold_left]. rewrite E1, E2, app_assoc.
    split; [reflexivity|].
    intros pre b post E.
    destruct Hc1 as [[-> _]|(-> & Hlong & _ & Hdis)].
    + simpl in E. destruct (H2 pre b post E) as (Hin & Hlb & Hd).
      split; [now right|]. split; [now rewrite <- Hl|].
      intros e He. rewrite <- !Ht. apply Hd. now rewrite app_nil_r.
    + destruct pre as [|p pre]; simpl in E; inversion E; subst.
      * split; [now left|]. split; [assumption|].
        intros e He. apply Hdis. now rewrite app_nil_r in He.
      * destruct (H2 pre b post eq_refl) as (Hin & Hlb & Hd).
        split; [now right|]. split; [now rewrite <- Hl|].
        intros e He. rewrite <- !Ht. apply Hd.
        rewrite <- app_assoc. exact He.
Qed.

(** X6.  A candidate that the merger appends has a title of more than
    three characters that resembles the title of no entry before it
    in the list returned: no structural topic and no candidate
    appended earlier. *)
Theorem appended_candidates_differ (h : heap) (structural ai : list ref) :
  exists extra,
    snd (_merge_topics list_of_set h structural ai) = structural ++ extra
    /\ forall pre a post,
         extra = pre ++ a :: post ->
         In a ai /\ long_title h a = true
         /\ forall e, In e (structural ++ pre) ->
                      similar (title (h a)) (title (h e)) = false.
Proof.
  unfold _merge_topics.
  destruct (merge_fold_dissimilar ai h structural) as (h' & extra & -> & H).
  exists extra. split; [reflexivity | exact H].
Qed.

(** [list(set(l))] lists the elements of [l]. *)
Hypothesis list_of_set_In : forall l x, In x (list_of_set l) <-> In x l.

Lemma merge_step_keywords (h : heap) (merged : list ref) (a : ref) :
  exists h' extra,
    merge_step list_of_set (h, merged) a = (h', merged ++ extra)
    /\ (forall r, title (h' r) = title (h r))
    /\ (forall r, incl (keywords (h r)) (keywords (h' r)))
    /\ (extra = [a]
        \/ (extra = [] /\ long_title h a = false)
        \/ (extra = []
            /\ exists e, In e merged
                         /\ similar (title (h a)) (title (h e)) = true
                         /\ incl (keywords (h a)) (keywords (h' e)))).
Proof.
  unfold merge_step, find_duplicate.
  destruct (find _ merged) as [e|] eqn:Ef.
  - apply find_some in Ef. destruct Ef as [He Hsim].
    eexists _, []. rewrite app_nil_r. split; [reflexivity|].
    split; [|split].
    + intros r. unfold upd. destruct (Nat.eqb r e) eqn:Er; [|reflexivity].
      apply Nat.eqb_eq in Er. now subst r.
    + intros r x Hx. unfold upd. destruct (Nat.eqb r e) eqn:Er; [|assumption].
      apply Nat.eqb_eq in Er. subst r. simpl.
      apply list_of_set_In, in_or_app. now left.
    + right. right. split; [reflexivity|]. exists e.
      split; [assumption|]. split; [assumption|].
      intros x Hx. unfold upd. rewrite Nat.eqb_refl. simpl.
      apply list_of_set_In, in_or_app. now right.
  - fold (long_title h a). destruct (long_title h a) eqn:El.
    + exists h, [a]. split; [reflexivity|]. split; [reflexivity|].
      split; [intros r x Hx; exact Hx|]. now left.
    + exists h, []. rewrite app_nil_r. split; [reflexivity|]. split; [reflexivity|].
      split; [intros r x Hx; exact Hx|]. right. left. auto.
Qed.

Lemma merge_fold_keywords (ai : list ref) :
  forall h merged,
  exists h' extra,
    fold_left (merge_step list_of_set) ai (h, merged) = (h', merged ++ extra)
    /\ (forall r, title (h' r) = title (h r))
    /\ (forall r, incl (keywords (h r)) (keywords (h' r)))
    /\ (forall a, In a ai ->
          In a extra
          \/ long_title h a = false
          \/ exists e, In e (merged ++ extra)
                       /\ similar (title (h a)) (title (h e)) = true
                       /\ incl (keywords (h a)) (keywords (h' e))).
Proof.
  induction ai as [|a ai IH]; intros h merged.
  - exists h, []. rewrite app_nil_r. split; [reflexivity|]. split; [reflexivity|].
    split; [intros r x Hx; exact Hx|]. intros a [].
  - destruct (merge_step_keywords h merged a) as (h1 & ex1 & E1 & Ht1 & Hk1 & Hc1).
    destruct (IH h1 (merged ++ ex1)) as (h2 & ex2 & E2 & Ht2 & Hk2 & Hc2).
    assert (Hl : forall r, long_title h1 r = long_title h r)
      by (intros r; unfold long_title; now rewrite Ht1).
    exists h2, (ex1 ++ ex2). cbn [fold_left]. rewrite E1, E2, app_assoc.
    split; [reflexivity|]. split; [intros r; now rewrite Ht2|].
    split; [intros r x Hx; apply Hk2, Hk1, Hx|].
    intros b [<-|Hb].
    + destruct Hc1 as [->|[[-> Hs]|(-> & e & He & Hsim & Hinc)]].
      * left. now left.
      * right. now left.
      * right. right. exists e. split; [|split].
        -- apply in_or_app. left. apply in_or_app. now left.
        -- assumption.
        -- intros x Hx. apply Hk2, Hinc, Hx.
    + destruct (Hc2 b Hb) as [Hin|[Hs|(e & He & Hsim & Hinc)]].
      * left. apply in_or_app. now right.
      * right. left. now rewrite <- Hl.
      * right. right. exists e. split; [assumption|].
        split; [now rewrite <- !Ht1|].
        intros x Hx. apply Hinc, Hk1, Hx.
Qed.

(** X7.  Merging loses no keyword of a topic, and no keyword of a
    candidate whose title has more than three characters: such a
    candidate is an entry of the list returned, or its keywords are
    among those of an entry whose title resembles its title. *)
Theorem merge_keeps_keywords (h : heap) (structural ai : list ref) :
  (forall r, incl (keywords (h r))
                  (keywords (fst (_merge_topics list_of_set h structural ai) r)))
  /\ (forall a, In a ai -> long_title h a = true ->
        In a (snd (_merge_topics list_of_set h structural ai))
        \/ exists e,
             In e (snd (_merge_topics list_of_set h structural ai))
             /\ similar (title (h a)) (title (h e)) = true
             /\ incl (keywords (h a))
                     (keywords (fst (_merge_topics list_of_set h structural ai) e))).
Proof.
  unfold _merge_topics.
  destruct (merge_fold_keywords ai h structural)
    as (h' & extra & -> & _ & Hk & Hc).
  simpl. split; [exact Hk|].
  intros a Ha Hl. destruct (Hc a Ha) as [Hin|[Hs|H]].
  - left. apply in_or_app. now right.
  - congruence.
  - now right.
Qed.

End Facts.

Lemma merge_keeps_keywords_witness :
  incl (keywords (store 1))
       (keywords (fst (_merge_topics (U := BasicLatin) set_of store [0] [1]) 0)).
Proof.
  destruct (@merge_keeps_keywords BasicLatin set_of set_of_In store [0] [1])
    as [_ H].
  destruct (H 1 (or_introl eq_refl) eq_refl) as [Hin|(e & He & _ & Hinc)].
  - vm_compute in Hin. destruct Hin as [Hin|[]]. discriminate Hin.
  - vm_compute in He. destruct He as [<-|[]]. exact Hinc.
Defined.

End MergeExtras.

(** ** Stripping *)

Module StripFacts.
Import Py.

Section Facts.
Context {U : Unicode}.

Lemma lstrip_split (t : str) :
  exists ws, t = ws ++ lstrip t /\ Forall (fun c => isspace c = true) ws.
Proof.
  induction t as [|c t (ws & E & Hws)]; simpl.
  - exists []. split; [reflexivity | constructor].
  - destruct (isspace c) eqn:Ec.
    + exists (c :: ws). split; [simpl; now rewrite <- E | now constructor].
    + exists []. split; [reflexivity | constructor].
Qed.

Lemma lstrip_idem (t : str) : lstrip (lstrip t) = lstrip t.
Proof.
  induction t as [|c t IH]; simpl; [reflexivity|].
  destruct (isspace c) eqn:Ec; [assumption|]. simpl. now rewrite Ec.
Qed.

(** Removing white space at the end keeps a first character. *)
Lemma lstrip_rstrip (t : str) : lstrip t = t -> lstrip (rstrip t) = rstrip t.
Proof.
  intros Ht. unfold rstrip.
  destruct (lstrip_split (rev t)) as (ws & E & Hws).
  destruct (lstrip (rev t)) as [|c v] eqn:Ev using rev_ind.
  - reflexivity.
  - clear IHv. rewrite rev_app_distr. simpl.
    assert (Et : t = c :: rev v ++ rev ws).
    { rewrite <- (rev_involutive t), E, !rev_app_distr. reflexivity. }
    rewrite Et in Ht. simpl in Ht.
    destruct (isspace c) eqn:Ec; [|reflexivity].
    exfalso.
    destruct (lstrip_split (rev v ++ rev ws)) as (ws' & E' & _).
    rewrite Ht in E'.
    apply (f_equal (@length _)) in E'.
    rewrite !length_app in E'. simpl in E'. rewrite !length_app in E'. lia.
Qed.

Lemma rstrip_idem (t : str) : rstrip (rstrip t) = rstrip t.
Proof. unfold rstrip. now rewrite rev_involutive, lstrip_idem. Qed.

(** [strip] leaves a stripped string as it is. *)
Lemma strip_idem (t : str) : strip (strip t) = strip t.
Proof.
  unfold strip. rewrite (lstrip_rstrip (lstrip_idem t)). apply rstrip_idem.
Qed.

(** The characters of a stripped string are characters of the string. *)
Lemma lstrip_incl (t : str) : incl (lstrip t) t.
Proof.
  destruct (lstrip_split t) as (ws & E & _). intros x Hx.
  rewrite E. apply in_or_app. now right.
Qed.

Lemma strip_incl (t : str) : incl (strip t) t.
Proof.
  unfold strip, rstrip. intros x Hx.
  apply lstrip_incl. apply in_rev. apply (lstrip_incl (rev (lstrip t))).
  now apply in_rev in Hx.
Qed.

End Facts.
End StripFacts.

(** ** The topics of the segmenter *)

Module SegShape.
Import Py Re Schemas ContentAnalyzer Props ReFacts SegFacts HierarchyFacts SegProps StripFacts.

Section Facts.
Context {U : Unicode}.

Lemma title_of_stripped ty gs whole title :
  title_of ty gs whole = Ok title -> exists x, title = strip x.
Proof.
  unfold title_of, index_last, index.
  destruct (is_chapter ty).
  - destruct (2 <=? length gs).
    + destruct (nth_error gs 1) as [[x|]|]; simpl; intros H; inversion H; eauto.
    + destruct (nth_error gs 0) as [[x|]|]; simpl; intros H; inversion H; eauto.
  - destruct (3 <=? length gs).
    + destruct (nth_error gs 2) as [[x|]|]; simpl; intros H; inversion H; eauto.
    + destruct (1 <=? length gs).
      * destruct gs as [|g gs]; simpl; [discriminate|].
        destruct (nth_error (g :: gs) (length gs - 0)) as [[x|]|]; simpl;
          intros H; inversion H; eauto.
      * intros H; inversion H; eauto.
Qed.

Lemma on_match_shape lines line_num line pat lvl ty m st st' :
  In (pat, lvl, ty) patterns ->
  on_match lines line_num line pat lvl ty m st = Ok st' ->
  st' = st \/ appends lines line_num st st'.
Proof.
  intros Hin. unfold on_match.
  destruct (title_of ty (groups pat line m) (group0 line m)) as [title|e] eqn:Et;
    simpl; [|discriminate].
  destruct (title_of_stripped _ _ _ Et) as [x ->].
  destruct ((2 <? length (strip x)) && negb (isdigit (strip x))) eqn:Ec;
    intros H; inversion H; [|now left].
  right. apply andb_true_iff in Ec. destruct Ec as [Hl Hd].
  exists pat, lvl, ty, x. split; [assumption|].
  split; [now apply Nat.ltb_lt|]. split; [now apply negb_true_iff|].
  reflexivity.
Qed.

Lemma try_patterns_shape lines line_num line st st' :
  forall pats, incl pats patterns ->
    try_patterns pats lines line_num line st = Ok st' ->
    st' = st \/ appends lines line_num st st'.
Proof.
  induction pats as [|[[pat lvl] ty] pats IH]; intros Hincl; simpl.
  - intros H. inversion H. now left.
  - assert (Hin : In (pat, lvl, ty) patterns) by (apply Hincl; now left).
    assert (Hrest : incl pats patterns) by (intros x Hx; apply Hincl; now right).
    destruct (re_match I pat line) as [m|]; [|auto].
    destruct (on_match lines line_num line pat lvl ty m st) as [st1|e] eqn:E; simpl.
    + intros H. inversion H; subst st1. eapply on_match_shape; eauto.
    + destruct (caught_attr_index e); [auto | discriminate].
Qed.

(** What a step of the segmenter does to its state. *)
Lemma step_shape lines st it st' :
  step lines st it = Ok st' ->
  (page_marker (snd it) = true
   /\ topics st' = topics st /\ topic_id st' = topic_id st)
  \/ (page_marker (snd it) = false
      /\ (st' = st \/ appends lines (fst it) st st')).
Proof.
  unfold step, page_marker.
  destruct (startswith (s "--- Page ") (strip (snd it))).
  - destruct (track_page (strip (snd it)) (current_page st)); simpl;
      intros H; inversion H. left. auto.
  - intros H. right. split; [reflexivity|].
    destruct (length (strip (snd it)) <? 3).
    + inversion H. now left.
    + eapply try_patterns_shape; [apply incl_refl | exact H].
Qed.

Lemma new_topic_well_formed lines line_num pat lvl ty x st :
  In (pat, lvl, ty) patterns ->
  2 < length (strip x) -> isdigit (strip x) = false ->
  well_formed (new_topic lines line_num lvl ty (strip x) st).
Proof.
  intros Hin Hl Hd. unfold well_formed, new_topic. simpl.
  split; [|repeat split; auto using strip_idem].
  unfold patterns in Hin. simpl in Hin.
  destruct Hin as [E|[E|[E|[E|[E|[]]]]]]; inversion E; subst; tauto.
Qed.

(** The state of the segmenter: topics numbered from 1, well formed,
    without parent. *)
Lemma segmented_well_formed (text : str) :
  exists st,
    loop (split [NL] text) (enumerate (split [NL] text))
         {| topics := []; topic_id := 1; current_page := 1 |} = Ok st
    /\ numbered st /\ Forall well_formed (topics st).
Proof.
  apply (@loop_inv _ (fun st => numbered st /\ Forall well_formed (topics st))).
  - intros st it st' [Hn Hw] Hstep. split; [eapply numbered_step; eauto|].
    apply step_shape in Hstep.
    destruct Hstep as [(_ & -> & _)|(_ & [->|(pat & lvl & ty & x & Hin & Hl & Hd & ->)])];
      auto.
    simpl. apply Forall_app. split; [assumption|].
    constructor; [|constructor]. eapply new_topic_well_formed; eauto.
  - split; [|constructor]. split; [reflexivity|]. intros [|i] t H; discriminate.
Qed.

Lemma with_parent_well_formed (t : Topic) (p : option str) :
  well_formed t -> well_formed (with_parent_id t p).
Proof. unfold well_formed. simpl. tauto. Qed.

(** The topics returned: hierarchy inference applied to well-formed,
    numbered topics without parent. *)
Lemma segmenter_output (text : str) :
  exists st,
    _identify_structural_topics text = Ok (set_parents [] (topics st))
    /\ numbered st
    /\ Forall well_formed (topics st)
    /\ Forall well_formed (set_parents [] (topics st)).
Proof.
  unfold _identify_structural_topics.
  destruct (segmented_well_formed text) as (st & -> & Hn & Hw). simpl.
  exists st. split; [reflexivity|]. split; [assumption|]. split; [assumption|].
  apply Forall_forall. intros t' Hin.
  apply In_nth_error in Hin. destruct Hin as [i Hi].
  apply set_parents_nth in Hi. destruct Hi as (t & Ht & ->).
  assert (Hwt : well_formed t)
    by (rewrite Forall_forall in Hw; apply Hw; eapply nth_error_In; eauto).
  destruct (find_parent _ _); [now apply with_parent_well_formed | assumption].
Qed.

(** X8.  The topics of the segmenter are numbered [topic_1],
    [topic_2], ... in their order; each has the level of its type
    (chapter 1, section 2, subsection 3), a stripped title of more
    than two characters that is not a number, one page as its page
    range, and the keywords of its content. *)
Theorem topics_are_well_formed (text : str) :
  exists ts,
    _identify_structural_topics text = Ok ts
    /\ forall i t, nth_error ts i = Some t ->
         id t = s "topic_" ++ str_of_nat (S i) /\ well_formed t.
Proof.
  destruct (segmenter_output text) as (st & E & [_ Hid] & _ & Hw).
  eexists. split; [exact E|].
  intros i t' Hn. split.
  - destruct (set_parents_same _ _ _ Hn) as (t & Ht & -> & _).
    now apply Hid.
  - rewrite Forall_forall in Hw. apply Hw. eapply nth_error_In; eauto.
Qed.

Lemma well_formed_level (t : Topic) :
  well_formed t ->
  (1 <= level t)%Z /\ (level t = 1%Z -> type t = CHAPTER).
Proof.
  intros (Hl & _). simpl in Hl.
  destruct Hl as [E|[E|[E|[]]]]; inversion E; split; (lia || congruence || auto).
Qed.

(** X9.  A chapter has no parent, and the parent of a section is a
    chapter: a topic of level 1 has no [parent_id], and the
    [parent_id] of a topic of level 2 is the [id] of an earlier topic
    of level 1, of type chapter. *)
Theorem chapters_are_roots (text : str) :
  exists ts,
    _identify_structural_topics text = Ok ts
    /\ forall i t, nth_error ts i = Some t ->
         (level t = 1%Z -> parent_id t = None)
         /\ (level t = 2%Z -> forall p, parent_id t = Some p ->
               exists j tj, j < i /\ nth_error ts j = Some tj
                            /\ id tj = p /\ level tj = 1%Z /\ type tj = CHAPTER).
Proof.
  destruct (segmenter_output text) as (st & E & [_ Hid] & _ & Hw).
  eexists. split; [exact E|].
  intros i t' Hn.
  pose proof (set_parents_nth _ _ _ Hn) as (t & Ht & Ht').
  rewrite app_nil_r in Ht'. unfold find_parent in Ht'.
  destruct (Hid _ _ Ht) as [_ Hnone].
  pose proof (find_rev_firstn (fun p => (level p <? level t)%Z)
                              (set_parents [] (topics st)) i) as Hfind.
  destruct (find _ (rev _)) as [p|].
  - destruct Hfind as (j & Hj & Hp & Hlt & _). apply Z.ltb_lt in Hlt.
    assert (Hwp : well_formed p)
      by (rewrite Forall_forall in Hw; apply Hw; eapply nth_error_In; eauto).
    destruct (well_formed_level Hwp) as [Hge Hch].
    subst t'. simpl. split.
    + intros H1. lia.
    + intros H2 q Hq. inversion Hq; subst q.
      exists j, p. repeat split; auto; try lia. apply Hch. lia.
  - subst t'. split; [auto|]. intros _ q Hq. congruence.
Qed.

(** The loop never raises, and what the steps on the items of the loop
    keep is kept by the loop. *)
Lemma loop_inv_items (P : seg_state -> Prop) lines :
  forall items,
    (forall st it st', In it items -> P st -> step lines st it = Ok st' -> P st') ->
    forall st, P st -> exists st', loop lines items st = Ok st' /\ P st'.
Proof.
  induction items as [|it items IH]; intros Hstep st HP; simpl.
  - eauto.
  - destruct (step_cases lines st it) as (st1 & E & _). rewrite E. simpl.
    apply IH.
    + intros st0 it0 st0' Hin. apply Hstep. now right.
    + eapply Hstep; eauto. now left.
Qed.

(** X10.  Without a line that starts with [--- Page ], every topic is
    on page 1. *)
Theorem pages_default_to_one (text : str) :
  (forall line, In line (split [NL] text) -> page_marker line = false) ->
  exists ts,
    _identify_structural_topics text = Ok ts
    /\ forall t, In t ts -> page_range t = (1%Z, 1%Z).
Proof.
  intros Hno. unfold _identify_structural_topics.
  destruct (@loop_inv_items
              (fun st => current_page st = 1%Z
                         /\ forall t, In t (topics st) -> page_range t = (1%Z, 1%Z))
              (split [NL] text) (enumerate (split [NL] text)))
    with (st := {| topics := []; topic_id := 1; current_page := 1%Z |})
    as (st & -> & _ & Hst).
  - intros st it st' Hin [Hp Hts] Hstep.
    apply step_shape in Hstep.
    destruct it as [n line]. apply in_combine_r in Hin. simpl in Hstep.
    rewrite (Hno line Hin) in Hstep.
    destruct Hstep as [(H & _)|(_ & [->|(pat & lvl & ty & x & _ & _ & _ & ->)])];
      [discriminate | auto |].
    simpl. split; [assumption|].
    intros t Ht. apply in_app_or in Ht. destruct Ht as [Ht|[<-|[]]]; [auto|].
    simpl. now rewrite Hp.
  - split; [reflexivity|]. intros t [].
  - simpl. eexists. split; [reflexivity|].
    intros t' Ht'. apply In_nth_error in Ht'. destruct Ht' as [i Hi].
    apply set_parents_nth in Hi. destruct Hi as (t & Ht & ->).
    assert (page_range t = (1%Z, 1%Z)) by (apply Hst; eapply nth_error_In; eauto).
    destruct (find_parent _ _); assumption.
Qed.

End Facts.

Lemma pages_default_to_one_witness :
  exists ts,
    _identify_structural_topics (U := BasicLatin) waves = Ok ts
    /\ forall t, In t ts -> page_range t = (1%Z, 1%Z).
Proof.
  apply (pages_default_to_one (U := BasicLatin)).
  intros line Hin. vm_compute in Hin.
  repeat (destruct Hin as [<-|Hin]; [vm_compute; reflexivity|]).
  contradiction.
Defined.

End SegShape.

(** ** The content and the keywords of a topic *)

Module ContentFacts.
Import Py Re Schemas ContentAnalyzer Props SortFacts SortFilter Keywords.

Lemma In_skipn (A : Type) (x : A) : forall n l, In x (skipn n l) -> In x l.
Proof.
  induction n as [|n IH]; intros [|y l] H; simpl in H; auto.
  right. auto.
Qed.

Section Facts.
Context {U : Unicode}.

Lemma content_lines_spec (ls : list str) :
  length (content_lines ls) <= length ls
  /\ forall line, In line (content_lines ls) ->
       line <> []
       /\ startswith (s "--- Page") line = false
       /\ re_match I header_re line = None
       /\ exists raw, In raw ls /\ line = strip raw.
Proof.
  induction ls as [|raw ls [IHl IHs]]; cbn [content_lines].
  - split; [simpl; lia | intros line []].
  - assert (Hrest : forall line, In line (content_lines ls) ->
              line <> []
              /\ startswith (s "--- Page") line = false
              /\ re_match I header_re line = None
              /\ exists raw0, In raw0 (raw :: ls) /\ line = strip raw0).
    { intros line Hl. destruct (IHs line Hl) as (H1 & H2 & H3 & raw' & Hr & E).
      repeat split; auto. exists raw'. split; [now right | assumption]. }
    destruct (re_match I header_re (strip raw)) eqn:Eh.
    + split; [cbn [length]; lia | intros line []].
    + destruct (strip raw) as [|c line0] eqn:Es.
      * split; [cbn [length]; lia | exact Hrest].
      * destruct (startswith (s "--- Page") (c :: line0)) eqn:Ep.
        -- split; [cbn [length]; lia | exact Hrest].
        -- split; [cbn [length]; lia|]. intros line [<-|Hl]; [|auto].
           split; [discriminate|]. split; [assumption|]. split; [assumption|].
           exists raw. split; [now left | now symmetry].
Qed.

(** X11.  The content of a topic is made of at most [max_lines - 1]
    lines, joined by line feeds; each of them is a stripped line that
    follows the heading, is not empty, does not start with [--- Page]
    and does not start like a heading. *)
Theorem topic_content_lines (lines : list str) (start_line max_lines : nat) :
  exists ls,
    _extract_topic_content lines start_line max_lines = join [NL] ls
    /\ length ls <= max_lines - 1
    /\ forall line, In line ls ->
         line <> []
         /\ startswith (s "--- Page") line = false
         /\ re_match I header_re line = None
         /\ exists raw, In raw (skipn (start_line + 1) lines) /\ line = strip raw.
Proof.
  unfold _extract_topic_content.
  set (window := firstn _ (skipn (start_line + 1) lines)).
  destruct (content_lines_spec window) as [Hl Hs].
  exists (content_lines window). split; [reflexivity|]. split.
  - assert (length window <= max_lines - 1); [|lia].
    unfold window. rewrite length_firstn. lia.
  - intros line Hin. destruct (Hs line Hin) as (H1 & H2 & H3 & raw & Hr & E).
    repeat split; auto. exists raw. split; [|assumption].
    unfold window in Hr. eapply In_firstn; eauto.
Qed.

Lemma count_word_NoDup (d : list (str * nat)) (w : str) :
  NoDup (map fst d) -> NoDup (map fst (count_word d w)).
Proof.
  induction d as [|[k n] d IH]; simpl; intros H.
  - constructor; [intros [] | constructor].
  - inversion H as [|? ? Hk Hd]; subst.
    destruct (str_eqb k w) eqn:E; simpl.
    + now constructor.
    + constructor; [|auto].
      intros Hin. apply count_word_keys in Hin. destruct Hin as [->|Hin]; [|auto].
      unfold str_eqb in E. destruct (list_eq_dec N.eq_dec w w); congruence.
Qed.

Lemma counted_NoDup :
  forall ws d, NoDup (map fst d) -> NoDup (map fst (fold_left count_word ws d)).
Proof.
  induction ws as [|w ws IH]; intros d H; simpl; [assumption|].
  apply IH. now apply count_word_NoDup.
Qed.

Lemma NoDup_map_filter (A B : Type) (f : A -> B) (P : A -> bool) (l : list A) :
  NoDup (map f l) -> NoDup (map f (filter P l)).
Proof.
  induction l as [|x l IH]; simpl; intros H; [constructor|].
  inversion H as [|? ? Hx Hl]; subst.
  destruct (P x); simpl; [|auto]. constructor; [|auto].
  intros Hin. apply Hx. apply in_map_iff in Hin. destruct Hin as (y & E & Hy).
  apply filter_In in Hy. apply in_map_iff. exists y. tauto.
Qed.

Lemma NoDup_map_firstn (A B : Type) (f : A -> B) :
  forall n (l : list A), NoDup (map f l) -> NoDup (map f (firstn n l)).
Proof.
  induction n as [|n IH]; intros [|x l] H; simpl; try constructor.
  - inversion H as [|? ? Hx Hl]; subst. intros Hin. apply Hx.
    apply in_map_iff in Hin. destruct Hin as (y & E & Hy).
    apply in_map_iff. exists y. split; [assumption|]. eapply In_firstn; eauto.
  - inversion H; subst. auto.
Qed.

(** The counts of the dictionary are the numbers of occurrences. *)
Lemma count_word_count (d : list (str * nat)) (w k : str) (n : nat) :
  NoDup (map fst d) ->
  In (k, n) (count_word d w) ->
  (k = w /\ ((~ In w (map fst d) /\ n = 1) \/ exists m, In (w, m) d /\ n = m + 1))
  \/ (k <> w /\ In (k, n) d).
Proof.
  induction d as [|[k0 n0] d IH]; simpl; intros Hnd Hin.
  - destruct Hin as [E|[]]. inversion E; subst. left. split; [reflexivity|].
    left. split; [tauto | reflexivity].
  - inversion Hnd as [|? ? Hk Hd]; subst.
    destruct (str_eqb k0 w) eqn:E.
    + unfold str_eqb in E. destruct (list_eq_dec N.eq_dec k0 w) as [->|]; [|discriminate].
      destruct Hin as [Ein|Hin].
      * inversion Ein; subst. left. split; [reflexivity|]. right. eauto.
      * right. split; [|now right]. intros ->. apply Hk.
        apply in_map_iff. exists (w, n). split; [reflexivity | assumption].
    + unfold str_eqb in E. destruct (list_eq_dec N.eq_dec k0 w) as [|Hne]; [discriminate|].
      destruct Hin as [Ein|Hin].
      * inversion Ein; subst. right. split; [assumption | now left].
      * destruct (IH Hd Hin) as [(-> & [(Hni & ->)|(m & Hm & ->)])|(Hkw & Hk')].
        -- left. split; [reflexivity|]. left. split; [|reflexivity].
           intros [H|H]; [congruence | contradiction].
        -- left. split; [reflexivity|]. right. exists m. split; [now right | reflexivity].
        -- right. split; [assumption | now right].
Qed.

Lemma count_word_has (d : list (str * nat)) (w k : str) :
  k = w \/ In k (map fst d) -> In k (map fst (count_word d w)).
Proof.
  induction d as [|[k0 n0] d IH]; simpl.
  - intros [->|[]]. now left.
  - destruct (str_eqb k0 w) eqn:E; simpl.
    + unfold str_eqb in E.
      destruct (list_eq_dec N.eq_dec k0 w) as [->|]; [|discriminate].
      intros [->|[<-|H]]; auto.
    + intros [->|[<-|H]]; auto.
Qed.

(** The dictionary of frequencies: one entry for every word of the
    list, with the number of its occurrences. *)
Lemma counted_spec (ws : list str) :
  (forall k, In k ws -> In k (map fst (fold_left count_word ws [])))
  /\ (forall k n, In (k, n) (fold_left count_word ws []) ->
                  n = count_occ (list_eq_dec N.eq_dec) ws k).
Proof.
  induction ws as [|w ws [IHk IHn]] using rev_ind.
  - split; [intros k [] | intros k n []].
  - rewrite fold_left_app. cbn [fold_left]. split.
    + intros k Hk. apply count_word_has. apply in_app_or in Hk.
      destruct Hk as [Hk|[<-|[]]]; auto.
    + intros k n Hin. rewrite count_occ_app. cbn [count_occ].
      apply count_word_count in Hin;
        [|apply counted_NoDup; constructor].
      destruct Hin as [(-> & [(Hni & ->)|(m & Hm & ->)])|(Hkw & Hk)].
      * destruct (list_eq_dec N.eq_dec w w); [|congruence].
        match goal with |- _ = ?c + 1 => assert (c = 0) as ->; [|reflexivity] end.
        apply count_occ_not_In. intros Hw. apply Hni. now apply IHk.
      * destruct (list_eq_dec N.eq_dec w w); [|congruence].
        rewrite (IHn w m Hm). reflexivity.
      * destruct (list_eq_dec N.eq_dec w k); [congruence|].
        rewrite (IHn k n Hk). now rewrite Nat.add_0_r.
Qed.

Lemma count_occ_filter_le (P : str -> bool) (l : list str) (k : str) :
  count_occ (list_eq_dec N.eq_dec) (filter P l) k
  <= count_occ (list_eq_dec N.eq_dec) l k.
Proof.
  induction l as [|x l IH]; simpl; [lia|].
  destruct (P x); simpl; destruct (list_eq_dec N.eq_dec x k); lia.
Qed.

(** X12.  The keywords of a text are pairwise different, and each of
    them occurs at least twice among the words that the pattern finds
    in the text in lower case. *)
Theorem keywords_are_repeated_words (text : str) :
  NoDup (_extract_keywords text)
  /\ forall w, In w (_extract_keywords text) ->
       2 <= count_occ (list_eq_dec N.eq_dec)
                      (findall no_flags word_re (lower text)) w.
Proof.
  unfold _extract_keywords.
  set (words := findall no_flags word_re (lower text)).
  set (kept := filter _ words).
  split.
  - apply NoDup_map_filter, NoDup_map_firstn.
    apply (Permutation_NoDup
             (Permutation_map fst
                (Permutation_sym (sorted_perm by_freq_desc (fold_left count_word kept []))))).
    apply counted_NoDup. constructor.
  - intros w Hw. apply in_map_iff in Hw. destruct Hw as ([k n] & <- & Hkn).
    apply filter_In in Hkn. destruct Hkn as [Hkn Hfreq]. simpl in Hfreq |- *.
    apply In_firstn in Hkn.
    apply (Permutation_in _ (sorted_perm _ _)) in Hkn.
    apply (proj2 (counted_spec kept)) in Hkn.
    apply Nat.ltb_lt in Hfreq.
    pose proof (count_occ_filter_le
                  (fun word => negb (mem word stop_words) && (3 <? length word))
                  words k).
    fold kept in H. lia.
Qed.

End Facts.
End ContentFacts.

(** ** The formulas of the extractors *)

Module NumberingFacts.
Import Py Numbering HierarchyFacts.

Lemma counted_ids_nil (A : Type) (prefix : str) (ident : A -> str) : counted_ids prefix ident [] 1.
Proof. split; [reflexivity|]. intros [|i] x H; discriminate H. Qed.

Lemma counted_ids_snoc (A : Type) (prefix : str) (ident : A -> str) (l : list A) (n : nat) (x : A) :
  counted_ids prefix ident l n -> ident x = prefix ++ str_of_nat n ->
  counted_ids prefix ident (l ++ [x]) (n + 1).
Proof.
  intros [-> Hl] Hx. split; [rewrite length_app; simpl; lia|].
  intros i y Hy. destruct (Nat.lt_ge_cases i (length l)) as [Hi|Hi].
  - rewrite nth_error_app1 in Hy by assumption. auto.
  - rewrite nth_error_app2 in Hy by assumption.
    destruct (i - length l) as [|k] eqn:E; simpl in Hy.
    + inversion Hy; subst y. rewrite Hx. do 2 f_equal. lia.
    + destruct k; discriminate Hy.
Qed.

Lemma counted_ids_NoDup (A : Type) (prefix : str) (ident : A -> str) (l : list A) (n : nat) :
  counted_ids prefix ident l n -> NoDup (map ident l).
Proof.
  intros [_ Hl]. apply (proj2 (NoDup_nth_error _)).
  intros i j Hi E. rewrite length_map in Hi.
  rewrite !nth_error_map in E.
  destruct (nth_error l i) as [x|] eqn:Ex;
    [|apply nth_error_None in Ex; lia].
  destruct (nth_error l j) as [y|] eqn:Ey; [|discriminate E].
  simpl in E. inversion E as [E'].
  rewrite (Hl _ _ Ex), (Hl _ _ Ey) in E'.
  apply app_inv_head in E'. apply str_of_nat_inj in E'. lia.
Qed.

End NumberingFacts.

Module FormulaShape.
Import Py Re Schemas ContentAnalyzer Props ReFacts SortFacts DedupFacts
       HierarchyFacts FormulaFacts StripFacts Numbering NumberingFacts FormulaProps.

(** The loop that removes duplicates leaves elements out, nothing
    else. *)
Lemma keep_first_sorted (A : Type) (key : A -> str) (ok : str -> bool)
      (R : A -> A -> Prop) :
  forall l seen, StronglySorted R l -> StronglySorted R (keep_first key ok seen l).
Proof.
  induction l as [|x l IH]; intros seen Hs; simpl; [constructor|].
  inversion Hs as [|? ? Hl Hx]; subst.
  destruct (negb (mem (key x) seen) && ok (key x)); [|auto].
  constructor; [auto|].
  apply Forall_forall. intros y Hy. apply keep_first_In in Hy.
  rewrite Forall_forall in Hx. apply Hx. tauto.
Qed.

Lemma keep_first_NoDup_map (A B : Type) (key : A -> str) (ok : str -> bool)
      (g : A -> B) :
  forall l seen, NoDup (map g l) -> NoDup (map g (keep_first key ok seen l)).
Proof.
  induction l as [|x l IH]; intros seen Hnd; simpl; [constructor|].
  inversion Hnd as [|? ? Hx Hl]; subst.
  destruct (negb (mem (key x) seen) && ok (key x)); [|auto].
  simpl. constructor; [|auto].
  intros Hin. apply Hx. apply in_map_iff in Hin. destruct Hin as (y & E & Hy).
  apply keep_first_In in Hy. apply in_map_iff. exists y. tauto.
Qed.

Lemma sorted_impl (A : Type) (R R' : A -> A -> Prop) (l : list A) :
  (forall x y, R x y -> R' x y) -> StronglySorted R l -> StronglySorted R' l.
Proof.
  intros H. induction 1 as [|x l Hl IH Hx]; constructor; [assumption|].
  eapply Forall_impl; [|exact Hx]. auto.
Qed.

Lemma replace_char_none (a b : char) (t : str) :
  a <> b -> ~ In a (replace_char a b t).
Proof.
  intros Hab Hin. unfold replace_char in Hin. apply in_map_iff in Hin.
  destruct Hin as (c & E & _). destruct (N.eqb c a) eqn:Ec.
  - congruence.
  - apply N.eqb_neq in Ec. congruence.
Qed.

Section Facts.
Context {U : Unicode}.

Lemma isdigit_length (t : str) : length t = 0 -> isdigit t = false.
Proof. destruct t; [reflexivity | discriminate]. Qed.

(** One turn of the loop over the matches: nothing is added, or a
    dictionary with the next identifier. *)
Lemma on_formula_shape text pattern ty st m st' :
  on_formula text pattern ty st m = Ok st' ->
  st' = st
  \/ exists f,
       formulas st' = formulas st ++ [f]
       /\ formula_id st' = formula_id st + 1
       /\ f_id f = s "formula_" ++ str_of_nat (formula_id st)
       /\ f_type f = ty
       /\ position f = m_start m
       /\ raw_match f = group0 text m
       /\ strip (latex f) = latex f
       /\ 3 <= length (latex f)
       /\ isdigit (latex f) = false
       /\ strip (context f) = context f
       /\ ~ In NL (context f).
Proof.
  unfold on_formula.
  destruct (if 0 <? length (groups pattern text m)
            then group text m 1 else Some (group0 text m)) as [t|];
    [|discriminate].
  cbn [strip_opt bind].
  destruct ((length (strip t) <? 3) || isdigit (strip t)) eqn:E; intros H;
    inversion H; subst st'; [now left|].
  right. apply orb_false_iff in E. destruct E as [El Ed].
  apply Nat.ltb_ge in El.
  eexists. cbn [formulas formula_id f_id f_type position raw_match latex context].
  repeat split; try reflexivity; try assumption.
  - apply strip_idem.
  - apply strip_idem.
  - intros Hin. apply strip_incl in Hin. revert Hin.
    apply replace_char_none. discriminate.
Qed.

Lemma for_matches_shape types text pattern ty :
  In ty types ->
  forall ms st st',
    for_matches text pattern ty ms st = Ok st' ->
    fx_inv types st -> fx_inv types st'.
Proof.
  intros Hty. induction ms as [|m ms IH]; intros st st' H Hinv; simpl in H.
  - inversion H; subst; assumption.
  - destruct (on_formula text pattern ty st m) as [st1|] eqn:E1; [|discriminate].
    cbn [bind] in H. apply (IH _ _ H).
    apply on_formula_shape in E1.
    destruct E1 as [->|(f & Ef & En & Eid & Et & _ & _ & H1 & H2 & H3 & H4 & H5)];
      [assumption|].
    destruct Hinv as [Hc Hall]. split.
    + rewrite Ef, En. now apply counted_ids_snoc.
    + rewrite Ef. apply Forall_app. split; [assumption|].
      constructor; [|constructor]. rewrite Et. tauto.
Qed.

Lemma for_patterns_shape types text :
  forall pats st st',
    incl (map snd pats) types ->
    for_patterns text pats st = Ok st' ->
    fx_inv types st -> fx_inv types st'.
Proof.
  induction pats as [|[pattern ty] pats IH]; intros st st' Hincl H Hinv; simpl in H.
  - inversion H; subst; assumption.
  - destruct (for_matches text pattern ty (finditer SI pattern text) st)
      as [st1|] eqn:E1; [|discriminate].
    cbn [bind] in H. apply (IH _ _ (fun x Hx => Hincl x (or_intror Hx)) H).
    eapply for_matches_shape; [|exact E1|exact Hinv].
    apply Hincl. now left.
Qed.

Lemma candidates_shape text cs :
  candidates text = Ok cs ->
  NoDup (map f_id cs) /\ Forall formula_fields cs.
Proof.
  unfold candidates.
  destruct (for_patterns text formula_patterns {| formulas := []; formula_id := 1 |})
    as [st|] eqn:E; [|discriminate].
  cbn [bind]. intros H. inversion H; subst cs.
  apply (@for_patterns_shape (map snd formula_patterns)) in E.
  - destruct E as [Hc Hall]. split; [eapply counted_ids_NoDup; eassumption|].
    exact Hall.
  - apply incl_refl.
  - split; [apply counted_ids_nil | constructor].
Qed.

(** X13.  [_extract_formulas_by_pattern] returns its formulas in the
    order of their positions in the text, with pairwise different
    identifiers.  The LaTeX of each is stripped, has at least three
    characters and is not a number; its type is one of the types of
    the pattern table; its context is stripped and has no line
    break. *)
Theorem formulas_sorted_and_well_formed (text : str) :
  exists fs,
    _extract_formulas_by_pattern text = Ok fs
    /\ StronglySorted (fun f g => position f <= position g) fs
    /\ NoDup (map f_id fs)
    /\ Forall formula_fields fs.
Proof.
  destruct (candidates_ok text) as [cs Hcs].
  unfold _extract_formulas_by_pattern. rewrite Hcs. cbn [bind].
  eexists. split; [reflexivity|].
  destruct (candidates_shape _ Hcs) as [Hnd Hall].
  rewrite unique_keep_first.
  pose proof (sorted_perm by_position cs) as Hperm.
  split; [|split].
  - apply keep_first_sorted.
    eapply sorted_impl;
      [|apply (@sorted_sorted _ by_position (@by_pos_total _ position)
                                (@by_pos_trans _ position) cs)].
    intros f g Hfg. now apply Nat.leb_le.
  - apply keep_first_NoDup_map.
    eapply Permutation_NoDup; [|exact Hnd].
    apply Permutation_map. now symmetry.
  - apply Forall_forall. intros f Hf. apply keep_first_In in Hf.
    rewrite Forall_forall in Hall. apply Hall.
    eapply Permutation_in; [exact Hperm | tauto].
Qed.

(** The same for the loops of [extract_formulas]. *)
Lemma pdf_on_formula_shape text keep ty st m st' :
  PdfParser.on_formula text keep ty st m = Ok st' ->
  st' = st
  \/ exists f,
       PdfParser.formulas st' = PdfParser.formulas st ++ [f]
       /\ PdfParser.formula_id st' = PdfParser.formula_id st + 1
       /\ PdfParser.f_id f = s "formula_" ++ str_of_nat (PdfParser.formula_id st)
       /\ PdfParser.f_type f = ty
       /\ keep (PdfParser.latex f) = true
       /\ strip (PdfParser.latex f) = PdfParser.latex f
       /\ PdfParser.raw_text f
          = slice text (PdfParser.start_pos f) (PdfParser.end_pos f).
Proof.
  unfold PdfParser.on_formula.
  destruct (group text m 1) as [t|]; [|discriminate].
  cbn [strip_opt bind].
  destruct (keep (strip t)) eqn:E; intros H; inversion H; subst st'; [|now left].
  right. eexists.
  cbn [PdfParser.formulas PdfParser.formula_id PdfParser.f_id PdfParser.f_type
       PdfParser.latex PdfParser.raw_text PdfParser.start_pos PdfParser.end_pos].
  repeat split; try reflexivity; try assumption.
  apply strip_idem.
Qed.

Section Loops.
Variable text : str.
Variable keep : str -> bool.
Variable ty : str.
Hypothesis kept_fields :
  forall f, strip (PdfParser.latex f) = PdfParser.latex f ->
            PdfParser.raw_text f
            = slice text (PdfParser.start_pos f) (PdfParser.end_pos f) ->
            PdfParser.f_type f = ty -> keep (PdfParser.latex f) = true ->
            pdf_formula_fields text f.

Lemma pdf_for_matches_shape :
  forall ms st st',
    PdfParser.for_matches text keep ty ms st = Ok st' ->
    pdf_inv text st -> pdf_inv text st'.
Proof.
  induction ms as [|m ms IH]; intros st st' H Hinv; simpl in H.
  - inversion H; subst; assumption.
  - destruct (PdfParser.on_formula text keep ty st m) as [st1|] eqn:E1;
      [|discriminate].
    cbn [bind] in H. apply (IH _ _ H).
    apply pdf_on_formula_shape in E1.
    destruct E1 as [->|(f & Ef & En & Eid & Et & Ek & Es & Er)]; [assumption|].
    destruct Hinv as [Hc Hall]. split.
    + rewrite Ef, En. now apply counted_ids_snoc.
    + rewrite Ef. apply Forall_app. split; [assumption|].
      constructor; [|constructor]. now apply kept_fields.
Qed.

Lemma pdf_for_patterns_shape fl :
  forall pats st st',
    PdfParser.for_patterns fl text keep ty pats st = Ok st' ->
    pdf_inv text st -> pdf_inv text st'.
Proof.
  induction pats as [|pattern pats IH]; intros st st' H Hinv; simpl in H.
  - inversion H; subst; assumption.
  - destruct (PdfParser.for_matches text keep ty (finditer fl pattern text) st)
      as [st1|] eqn:E1; [|discriminate].
    cbn [bind] in H. apply (IH _ _ H).
    eapply pdf_for_matches_shape; eassumption.
Qed.

End Loops.

Lemma pdf_candidates_shape text cs :
  PdfParser.candidates text = Ok cs ->
  NoDup (map PdfParser.f_id cs) /\ Forall (pdf_formula_fields text) cs.
Proof.
  unfold PdfParser.candidates.
  destruct (PdfParser.for_patterns SI text (fun t => 2 <? length t) (s "latex")
              PdfParser.latex_patterns
              {| PdfParser.formulas := []; PdfParser.formula_id := 1 |})
    as [st1|] eqn:E1; [|discriminate].
  cbn [bind].
  destruct (PdfParser.for_patterns M text
              (fun t => (3 <? length t) && contains_char 61%N t) (s "expression")
              PdfParser.math_patterns st1)
    as [st2|] eqn:E2; [|discriminate].
  cbn [bind]. intros H. inversion H; subst cs.
  apply pdf_for_patterns_shape in E1.
  - apply pdf_for_patterns_shape in E2.
    + destruct E2 as [Hc Hall]. split; [eapply counted_ids_NoDup; eassumption|].
      exact Hall.
    + intros f Hs Hr Ht Hk. apply andb_true_iff in Hk. destruct Hk as [Hl Hc].
      apply Nat.ltb_lt in Hl. split; [assumption|]. split; [assumption|].
      right. split; [assumption|]. split; [assumption|].
      unfold contains_char in Hc. apply existsb_exists in Hc.
      destruct Hc as (c & Hc & E). apply N.eqb_eq in E. now subst c.
    + exact E1.
  - intros f Hs Hr Ht Hk. apply Nat.ltb_lt in Hk.
    split; [assumption|]. split; [assumption|]. left. tauto.
  - split; [apply counted_ids_nil | constructor].
Qed.

(** X14.  [extract_formulas] of the PDF parser returns its formulas in
    the order of their starts in the text, with pairwise different
    identifiers.  The LaTeX of each is stripped, its raw text is the
    text between its start and its end, and it is either of type
    [latex] with more than two characters, or of type [expression]
    with more than three characters and an equals sign. *)
Theorem pdf_formulas_sorted_and_well_formed (text : str) :
  exists fs,
    PdfParser.extract_formulas text = Ok fs
    /\ StronglySorted
         (fun f g => PdfParser.start_pos f <= PdfParser.start_pos g) fs
    /\ NoDup (map PdfParser.f_id fs)
    /\ Forall (pdf_formula_fields text) fs.
Proof.
  destruct (pdf_candidates_ok text) as [cs Hcs].
  unfold PdfParser.extract_formulas. rewrite Hcs. cbn [bind].
  eexists. split; [reflexivity|].
  destruct (pdf_candidates_shape _ Hcs) as [Hnd Hall].
  rewrite pdf_unique_keep_first.
  pose proof (sorted_perm PdfParser.by_start_pos cs) as Hperm.
  split; [|split].
  - apply keep_first_sorted.
    eapply sorted_impl;
      [|apply (@sorted_sorted _ PdfParser.by_start_pos
                 (@by_pos_total _ PdfParser.start_pos)
                 (@by_pos_trans _ PdfParser.start_pos) cs)].
    intros f g Hfg. now apply Nat.leb_le.
  - apply keep_first_NoDup_map.
    eapply Permutation_NoDup; [|exact Hnd].
    apply Permutation_map. now symmetry.
  - apply Forall_forall. intros f Hf. apply keep_first_In in Hf.
    rewrite Forall_forall in Hall. apply Hall.
    eapply Permutation_in; [exact Hperm | tauto].
Qed.

End Facts.
End FormulaShape.

(** ** The extractors quote the text *)

Module QuoteFacts.
Import Py Re StripFacts QuoteProps.

Lemma infix_refl (t : str) : infix t t.
Proof. exists [], []. now rewrite app_nil_r. Qed.

Lemma infix_trans (a b c : str) : infix a b -> infix b c -> infix a c.
Proof.
  intros (p1 & q1 & ->) (p2 & q2 & ->).
  exists (p2 ++ p1), (q1 ++ q2). now rewrite <- !app_assoc.
Qed.

Lemma infix_cons (a t : str) (c : char) : infix a t -> infix a (c :: t).
Proof. intros (p & q & ->). exists (c :: p), q. reflexivity. Qed.

Lemma infix_In (a t : str) (c : char) : infix a t -> In c a -> In c t.
Proof.
  intros (p & q & ->) H. apply in_or_app. right. apply in_or_app. now left.
Qed.

(** [t[a:b]] is a piece of [t], whatever the bounds. *)
Lemma slice_infix (t : str) (a b : nat) : infix (slice t a b) t.
Proof.
  unfold slice. exists (firstn a t), (skipn (b - a) (skipn a t)).
  now rewrite firstn_skipn, firstn_skipn.
Qed.

Lemma slice_replace (a b : char) (t : str) (i j : nat) :
  replace_char a b (slice t i j) = slice (replace_char a b t) i j.
Proof. unfold replace_char, slice. now rewrite skipn_map, firstn_map. Qed.

Lemma group_infix (text : str) (m : rmatch) (n : nat) (t : str) :
  group text m n = Some t -> infix t text.
Proof.
  unfold group. destruct (lookup n (m_caps m)) as [[a b]|]; [|discriminate].
  intros H. inversion H. apply slice_infix.
Qed.

(** The pieces of [t.split(sep)] are pieces of [t]. *)
Lemma split_go_infix (sep : str) :
  forall t skip cur,
    (skip <> 0 -> cur = []) ->
    forall p, In p (split_go sep skip cur t) -> infix p (rev cur ++ t).
Proof.
  induction t as [|c t IH]; intros skip cur Hcur p Hp.
  - simpl in Hp. destruct Hp as [<-|[]]. rewrite app_nil_r. apply infix_refl.
  - destruct skip as [|k].
    + cbn [split_go] in Hp. destruct (startswith sep (c :: t)).
      * destruct Hp as [<-|Hp].
        -- exists [], (c :: t). reflexivity.
        -- apply (IH _ [] (fun _ => eq_refl)) in Hp. simpl in Hp.
           destruct Hp as (p1 & q1 & ->).
           exists (rev cur ++ c :: p1), q1. now rewrite <- app_assoc.
      * apply (IH 0 (c :: cur)) in Hp; [|intros H; now elim H].
        simpl in Hp. now rewrite <- app_assoc in Hp.
    + cbn [split_go] in Hp. rewrite (Hcur (Nat.neq_succ_0 k)) in *.
      apply (IH k []) in Hp; [|reflexivity]. simpl in *. now apply infix_cons.
Qed.

Lemma split_infix (sep t p : str) : In p (split sep t) -> infix p t.
Proof.
  intros H. apply (split_go_infix sep t (skip := 0) (cur := [])) in H;
    [assumption | intros E; now elim E].
Qed.

Section Facts.
Context {U : Unicode}.

Lemma lstrip_infix (t : str) : infix (lstrip t) t.
Proof.
  destruct (lstrip_split t) as (ws & E & _). exists ws, [].
  now rewrite app_nil_r.
Qed.

Lemma rstrip_infix (t : str) : infix (rstrip t) t.
Proof.
  unfold rstrip. destruct (lstrip_split (rev t)) as (ws & E & _).
  exists [], (rev ws). simpl.
  rewrite <- rev_app_distr, <- E. now rewrite rev_involutive.
Qed.

(** [t.strip()] is a piece of [t]. *)
Lemma strip_infix (t : str) : infix (strip t) t.
Proof.
  unfold strip. eapply infix_trans; [apply rstrip_infix | apply lstrip_infix].
Qed.

End Facts.
End QuoteFacts.

Module Quotes.
Import Py Re Schemas ContentAnalyzer Props ReFacts SegFacts HierarchyFacts
       SortFacts DedupFacts FormulaFacts StripFacts QuoteProps QuoteFacts.

Section Facts.
Context {U : Unicode}.

(** *** The formulas *)

Lemma on_formula_quotes text pattern ty st m st' :
  on_formula text pattern ty st m = Ok st' ->
  Forall (quotes text) (formulas st) ->
  Forall (quotes text) (formulas st').
Proof.
  unfold on_formula. intros H Hall.
  destruct (if 0 <? length (groups pattern text m)
            then group text m 1 else Some (group0 text m)) as [t|] eqn:Et;
    [|discriminate].
  assert (Ht : infix t text).
  { destruct (0 <? length (groups pattern text m)).
    - eapply group_infix; eauto.
    - inversion Et. apply slice_infix. }
  cbn [strip_opt bind] in H.
  destruct ((length (strip t) <? 3) || isdigit (strip t));
    inversion H; subst st'; [assumption|].
  cbn [formulas]. apply Forall_app. split; [assumption|].
  constructor; [|constructor]. unfold quotes. cbn [latex raw_match context].
  split; [|split].
  - eapply infix_trans; [apply strip_infix | exact Ht].
  - apply slice_infix.
  - eapply infix_trans; [apply strip_infix|].
    rewrite slice_replace. apply slice_infix.
Qed.

Lemma for_matches_quotes text pattern ty :
  forall ms st st',
    for_matches text pattern ty ms st = Ok st' ->
    Forall (quotes text) (formulas st) ->
    Forall (quotes text) (formulas st').
Proof.
  induction ms as [|m ms IH]; intros st st' H Hall; simpl in H.
  - inversion H; subst; assumption.
  - destruct (on_formula text pattern ty st m) as [st1|] eqn:E1; [|discriminate].
    cbn [bind] in H. apply (IH _ _ H). eapply on_formula_quotes; eauto.
Qed.

Lemma for_patterns_quotes text :
  forall pats st st',
    for_patterns text pats st = Ok st' ->
    Forall (quotes text) (formulas st) ->
    Forall (quotes text) (formulas st').
Proof.
  induction pats as [|[pattern ty] pats IH]; intros st st' H Hall; simpl in H.
  - inversion H; subst; assumption.
  - destruct (for_matches text pattern ty (finditer SI pattern text) st)
      as [st1|] eqn:E1; [|discriminate].
    cbn [bind] in H. apply (IH _ _ H). eapply for_matches_quotes; eauto.
Qed.

Lemma pdf_for_matches_quotes text keep ty :
  forall ms st st',
    PdfParser.for_matches text keep ty ms st = Ok st' ->
    Forall (pdf_quotes text) (PdfParser.formulas st) ->
    Forall (pdf_quotes text) (PdfParser.formulas st').
Proof.
  induction ms as [|m ms IH]; intros st st' H Hall; simpl in H.
  - inversion H; subst; assumption.
  - destruct (PdfParser.on_formula text keep ty st m) as [st1|] eqn:E1;
      [|discriminate].
    cbn [bind] in H. apply (IH _ _ H). clear H IH.
    unfold PdfParser.on_formula in E1.
    destruct (group text m 1) as [t|] eqn:Et; [|discriminate].
    cbn [strip_opt bind] in E1.
    destruct (keep (strip t)); inversion E1; subst st1; [|assumption].
    cbn [PdfParser.formulas]. apply Forall_app. split; [assumption|].
    constructor; [|constructor]. unfold pdf_quotes.
    cbn [PdfParser.latex PdfParser.raw_text]. split.
    + eapply infix_trans; [apply strip_infix | eapply group_infix; eauto].
    + apply slice_infix.
Qed.

Lemma pdf_for_patterns_quotes fl text keep ty :
  forall pats st st',
    PdfParser.for_patterns fl text keep ty pats st = Ok st' ->
    Forall (pdf_quotes text) (PdfParser.formulas st) ->
    Forall (pdf_quotes text) (PdfParser.formulas st').
Proof.
  induction pats as [|pattern pats IH]; intros st st' H Hall; simpl in H.
  - inversion H; subst; assumption.
  - destruct (PdfParser.for_matches text keep ty (finditer fl pattern text) st)
      as [st1|] eqn:E1; [|discriminate].
    cbn [bind] in H. apply (IH _ _ H). eapply pdf_for_matches_quotes; eauto.
Qed.

(** X18.  The formula extractors quote the text: the LaTeX of every
    formula that [_extract_formulas_by_pattern] returns, and the text
    of its match, are pieces of the text, and its context is a piece
    of the text with spaces for the line feeds; the LaTeX and the raw
    text of every formula that [extract_formulas] of the PDF parser
    returns are pieces of the text. *)
Theorem formulas_quote_the_text (text : str) :
  (exists fs,
      _extract_formulas_by_pattern text = Ok fs /\ Forall (quotes text) fs)
  /\ (exists fs,
         PdfParser.extract_formulas text = Ok fs /\ Forall (pdf_quotes text) fs).
Proof.
  split.
  - destruct (candidates_ok text) as [cs Hcs].
    unfold _extract_formulas_by_pattern. rewrite Hcs. cbn [bind].
    eexists. split; [reflexivity|]. apply Forall_forall.
    intros f Hf. rewrite unique_keep_first in Hf. apply keep_first_In in Hf.
    destruct Hf as [Hf _].
    apply (Permutation_in _ (sorted_perm by_position cs)) in Hf.
    unfold candidates in Hcs.
    destruct (for_patterns text formula_patterns {| formulas := []; formula_id := 1 |})
      as [st|] eqn:E; [|discriminate].
    cbn [bind] in Hcs. inversion Hcs; subst cs.
    apply for_patterns_quotes in E; [|constructor].
    rewrite Forall_forall in E. now apply E.
  - destruct (pdf_candidates_ok text) as [cs Hcs].
    unfold PdfParser.extract_formulas. rewrite Hcs. cbn [bind].
    eexists. split; [reflexivity|]. apply Forall_forall.
    intros f Hf. rewrite pdf_unique_keep_first in Hf. apply keep_first_In in Hf.
    destruct Hf as [Hf _].
    apply (Permutation_in _ (sorted_perm PdfParser.by_start_pos cs)) in Hf.
    unfold PdfParser.candidates in Hcs.
    destruct (PdfParser.for_patterns SI text (fun t => 2 <? length t) (s "latex")
                PdfParser.latex_patterns
                {| PdfParser.formulas := []; PdfParser.formula_id := 1 |})
      as [st1|] eqn:E1; [|discriminate].
    cbn [bind] in Hcs.
    destruct (PdfParser.for_patterns M text
                (fun t => (3 <? length t) && contains_char 61%N t) (s "expression")
                PdfParser.math_patterns st1)
      as [st2|] eqn:E2; [|discriminate].
    cbn [bind] in Hcs. inversion Hcs; subst cs.
    apply pdf_for_patterns_quotes in E1; [|constructor].
    apply pdf_for_patterns_quotes in E2; [|assumption].
    rewrite Forall_forall in E2. now apply E2.
Qed.

(** *** The titles *)

Lemma title_of_quotes ty pat line m title :
  title_of ty (groups pat line m) (group0 line m) = Ok title ->
  infix title line.
Proof.
  intros H.
  assert (Hx : exists x, title = strip x
                         /\ (In (Some x) (groups pat line m) \/ x = group0 line m)).
  { revert H. unfold title_of, index_last, index.
    set (gs := groups pat line m).
    destruct (is_chapter ty).
    - destruct (2 <=? length gs).
      + destruct (nth_error gs 1) as [[x|]|] eqn:E; simpl; intros H; inversion H.
        exists x. split; [reflexivity|]. left. eapply nth_error_In; eauto.
      + destruct (nth_error gs 0) as [[x|]|] eqn:E; simpl; intros H; inversion H.
        exists x. split; [reflexivity|]. left. eapply nth_error_In; eauto.
    - destruct (3 <=? length gs).
      + destruct (nth_error gs 2) as [[x|]|] eqn:E; simpl; intros H; inversion H.
        exists x. split; [reflexivity|]. left. eapply nth_error_In; eauto.
      + destruct (1 <=? length gs).
        * destruct gs as [|g gs']; simpl; [discriminate|].
          destruct (nth_error (g :: gs') (length gs' - 0)) as [[x|]|] eqn:E; simpl;
            intros H; inversion H.
          exists x. split; [reflexivity|]. left.
          change (In (Some x) (g :: gs')). eapply nth_error_In; eauto.
        * intros H; inversion H. eauto. }
  destruct Hx as (x & -> & [Hin | ->]).
  - unfold groups in Hin. apply in_map_iff in Hin. destruct Hin as (n & Hn & _).
    eapply infix_trans; [apply strip_infix | eapply group_infix; eauto].
  - eapply infix_trans; [apply strip_infix | apply slice_infix].
Qed.

Lemma try_patterns_quotes (text : str) lines line_num line st st' :
  infix line text ->
  forall pats,
    try_patterns pats lines line_num line st = Ok st' ->
    Forall (fun t => infix (title t) text) (topics st) ->
    Forall (fun t => infix (title t) text) (topics st').
Proof.
  intros Hline. induction pats as [|[[pat lvl] ty] pats IH]; simpl; intros H Hall.
  - inversion H; subst; assumption.
  - destruct (re_match I pat line) as [m|]; [|auto].
    destruct (on_match lines line_num line pat lvl ty m st) as [st1|e] eqn:E;
      simpl in H.
    + inversion H; subst st1. clear H IH. unfold on_match in E.
      destruct (title_of ty (groups pat line m) (group0 line m)) as [title|] eqn:Et;
        [|discriminate].
      cbn [bind] in E.
      destruct ((2 <? length title) && negb (isdigit title));
        inversion E; subst st'; [|assumption].
      cbn [topics]. apply Forall_app. split; [assumption|].
      constructor; [|constructor]. cbn [Schemas.title].
      eapply infix_trans; [eapply title_of_quotes; eauto | exact Hline].
    + destruct (caught_attr_index e); [auto | discriminate].
Qed.

Lemma step_quotes (text : str) lines st it st' :
  infix (snd it) text ->
  step lines st it = Ok st' ->
  Forall (fun t => infix (title t) text) (topics st) ->
  Forall (fun t => infix (title t) text) (topics st').
Proof.
  intros Hit. unfold step.
  destruct (startswith (s "--- Page ") (strip (snd it))).
  - destruct (track_page (strip (snd it)) (current_page st)); simpl;
      intros H; inversion H; subst st'; auto.
  - destruct (length (strip (snd it)) <? 3).
    + intros H; inversion H; subst; auto.
    + apply try_patterns_quotes.
      eapply infix_trans; [apply strip_infix | exact Hit].
Qed.

Lemma loop_quotes (text : str) lines :
  forall items st st',
    (forall it, In it items -> infix (snd it) text) ->
    loop lines items st = Ok st' ->
    Forall (fun t => infix (title t) text) (topics st) ->
    Forall (fun t => infix (title t) text) (topics st').
Proof.
  induction items as [|it items IH]; intros st st' Hitems H Hall; simpl in H.
  - inversion H; subst; assumption.
  - destruct (step lines st it) as [st1|] eqn:E; [|discriminate].
    cbn [bind] in H. apply (IH st1 st'); auto.
    + intros it' Hin. apply Hitems. now right.
    + eapply step_quotes; eauto. apply Hitems. now left.
Qed.

(** X19.  The segmenter quotes the text: the title of every topic
    that [_identify_structural_topics] returns is a piece of the
    text. *)
Theorem titles_quote_the_text (text : str) :
  exists ts,
    _identify_structural_topics text = Ok ts
    /\ forall t, In t ts -> infix (title t) text.
Proof.
  unfold _identify_structural_topics.
  destruct (segmented text) as (st & E & _).
  rewrite E. cbn [bind]. eexists. split; [reflexivity|].
  apply loop_quotes with (text := text) in E.
  - intros t' Hin. apply In_nth_error in Hin. destruct Hin as [i Hi].
    apply set_parents_nth in Hi. destruct Hi as (t & Ht & ->).
    assert (Hq : infix (title t) text).
    { rewrite Forall_forall in E. apply E. eapply nth_error_In; eauto. }
    destruct (find_parent _ _); exact Hq.
  - intros [n raw] Hin. apply in_combine_r in Hin. simpl.
    now apply split_infix in Hin.
  - constructor.
Qed.

End Facts.
End Quotes.

(** ** The headings of the PDF parser *)

Module PdfTopicFacts.
Import Py Re ReFacts StripFacts Numbering NumberingFacts QuoteProps QuoteFacts
       PdfTopics.

Section Facts.
Context {U : Unicode}.

Lemma heading_patterns_table pattern lvl ty :
  In (pattern, lvl, ty) heading_patterns ->
  sets 1 pattern = true
  /\ In (lvl, ty) [(1%Z, s "chapter"); (2%Z, s "section"); (3%Z, s "subsection")].
Proof.
  unfold heading_patterns. simpl.
  intros [E|[E|[E|[E|[E|[E|[E|[]]]]]]]]; inversion E; subst;
    (split; [reflexivity | tauto]).
Qed.

(** A step adds nothing, or one topic for its line. *)
Lemma pdf_try_patterns_shape line_num line st :
  forall pats, incl pats heading_patterns ->
    exists st',
      try_patterns pats line_num line st = Ok st'
      /\ (st' = st
          \/ exists t,
               st' = {| topics := topics st ++ [t]; topic_id := topic_id st + 1 |}
               /\ t_id t = s "topic_" ++ str_of_nat (topic_id st)
               /\ In (level t, t_type t)
                     [(1%Z, s "chapter"); (2%Z, s "section"); (3%Z, s "subsection")]
               /\ strip (title t) = title t
               /\ 2 < length (title t)
               /\ infix (title t) line
               /\ line_number t = line_num + 1
               /\ raw_text t = line).
Proof.
  induction pats as [|[[pattern lvl] ty] pats IH]; intros Hincl; simpl.
  - eauto.
  - destruct (@heading_patterns_table pattern lvl ty) as [Hs Ht];
      [apply Hincl; now left|].
    destruct (re_match I pattern line) as [m|] eqn:Hm.
    + unfold on_match. unfold re_match in Hm.
      destruct (@match_here_group _ I 1 pattern None 0 line m line Hm Hs) as [x Hx].
      rewrite Hx. cbn [strip_opt bind].
      destruct (2 <? length (strip x)) eqn:El; eexists; (split; [reflexivity|]);
        [right | now left].
      apply Nat.ltb_lt in El. eexists. split; [reflexivity|].
      cbn [t_id level t_type title line_number raw_text].
      repeat split; auto using strip_idem.
      eapply infix_trans; [apply strip_infix | eapply group_infix; eauto].
    + apply IH. intros y Hy. apply Hincl. now right.
Qed.

Lemma pdf_step_shape lines k raw st :
  nth_error lines k = Some raw ->
  topics_inv lines k st ->
  exists st', step st (k, raw) = Ok st' /\ topics_inv lines (S k) st'.
Proof.
  intros Hk (Hc & Hs & Hall).
  assert (Hkeep : topics_inv lines (S k) st).
  { split; [assumption|]. split; [assumption|].
    eapply Forall_impl; [|exact Hall]. intros t [Ht Hl]. split; [assumption | lia]. }
  unfold step. cbn [fst snd].
  destruct (strip raw) as [|c line] eqn:El; [eauto|].
  destruct (pdf_try_patterns_shape k (c :: line) st (incl_refl heading_patterns))
    as (st' & -> & [->|(t & -> & Hid & Hty & Hst & Hlen & Hq & Hnum & Hraw)]);
    [eauto|].
  eexists. split; [reflexivity|]. cbn [topics topic_id]. split; [|split].
  - now apply counted_ids_snoc.
  - clear Hkeep Hc. induction (topics st) as [|u us IH]; simpl.
    + constructor; constructor.
    + inversion Hs as [|? ? Hus Hu]; subst. inversion Hall as [|? ? [_ Hul] Hall']; subst.
      constructor; [auto|].
      apply Forall_app. split; [assumption|]. constructor; [lia | constructor].
  - apply Forall_app. split; [apply Hkeep|].
    constructor; [|constructor]. split; [|lia].
    split; [assumption|]. split; [assumption|]. split; [assumption|].
    split; [now rewrite Hraw|].
    exists raw. rewrite Hnum, Hraw, El.
    replace (k + 1 - 1) with k by lia.
    repeat split; [assumption | lia | discriminate].
Qed.

Lemma pdf_loop_shape lines :
  forall ls k st,
    (forall j raw, nth_error ls j = Some raw -> nth_error lines (k + j) = Some raw) ->
    topics_inv lines k st ->
    exists st',
      loop (combine (seq k (length ls)) ls) st = Ok st'
      /\ topics_inv lines (k + length ls) st'.
Proof.
  induction ls as [|raw ls IH]; intros k st Hls Hinv; simpl.
  - rewrite Nat.add_0_r. eauto.
  - destruct (@pdf_step_shape lines k raw st) as (st1 & -> & Hinv1); [|assumption|].
    + rewrite <- (Hls 0 raw eq_refl). f_equal. lia.
    + cbn [bind]. destruct (IH (S k) st1) as (st' & E & Hinv'); [|assumption|].
      * intros j x Hj. rewrite <- (Hls (S j) x Hj). f_equal. lia.
      * exists st'. split; [assumption|].
        replace (k + S (length ls)) with (S k + length ls) by lia. assumption.
Qed.

(** X15.  [identify_topics] of the PDF parser never raises.  Its
    topics are numbered [topic_1], [topic_2], ... in their order, and
    their line numbers increase strictly: a line gives at most one
    topic.  Each topic has the level of its type (chapter 1, section
    2, subsection 3) and a stripped title of more than two characters
    that is a piece of its raw text; its line number points, counting
    from 1, to the line whose stripped text is its raw text, and that
    text is not empty. *)
Theorem pdf_topics_are_well_formed (text : str) :
  exists ts,
    identify_topics text = Ok ts
    /\ (forall i t, nth_error ts i = Some t -> t_id t = s "topic_" ++ str_of_nat (S i))
    /\ StronglySorted (fun t u => line_number t < line_number u) ts
    /\ Forall (heading (split [NL] text)) ts.
Proof.
  unfold identify_topics.
  destruct (@pdf_loop_shape (split [NL] text) (split [NL] text) 0
                        {| topics := []; topic_id := 1 |})
    as (st & -> & (Hc & Hs & Hall)).
  - intros j raw Hj. exact Hj.
  - split; [apply counted_ids_nil|]. split; constructor.
  - cbn [bind]. exists (topics st). split; [reflexivity|].
    split; [apply Hc|]. split; [assumption|].
    eapply Forall_impl; [|exact Hall]. intros t [Ht _]. exact Ht.
Qed.

End Facts.
End PdfTopicFacts.

(** ** Formulas without the analyzer *)

Module EnhanceFacts.
Import Py Schemas ContentAnalyzer Enhance FormulaFacts.

Lemma firstn_plus (A : Type) (l : list A) :
  forall n m, firstn (n + m) l = firstn n l ++ firstn m (skipn n l).
Proof.
  induction l as [|x l IH]; intros [|n] m; simpl;
    try reflexivity; try (now rewrite firstn_nil).
  now rewrite IH.
Qed.

Lemma indexed_app (A : Type) (l1 l2 : list A) (from : nat) :
  indexed from (l1 ++ l2) = indexed from l1 ++ indexed (from + length l1) l2.
Proof.
  revert from. induction l1 as [|x l1 IH]; intros from; simpl.
  - now rewrite Nat.add_0_r.
  - unfold indexed in *. simpl. f_equal. rewrite IH. do 3 f_equal. lia.
Qed.

Lemma indexed_length (A : Type) (l : list A) (from : nat) :
  length (indexed from l) = length l.
Proof. unfold indexed. rewrite length_combine, length_seq. lia. Qed.

Section Facts.
Context {U : Unicode}.
Variable analyze : nat -> list formula -> list Topic -> option (list FormulaSchema.Formula).
Variable topics : list Topic.

Lemma fallback_indexed (batch : list formula) :
  forall enhanced,
    fallback topics enhanced batch
    = enhanced ++ map (fun p => basic_formula topics (fst p) (snd p))
                      (indexed (length enhanced) batch).
Proof.
  unfold fallback.
  induction batch as [|f batch IH]; intros enhanced; simpl.
  - now rewrite app_nil_r.
  - rewrite IH. rewrite <- app_assoc. simpl. do 3 f_equal.
    unfold indexed. rewrite length_app. simpl. do 2 f_equal. lia.
Qed.

(** The loop over the batches, for an analyzer that behaves on every
    batch as [answer] tells: after [m] more batches the formulas of
    the first [batch_size * (a + m)] dictionaries have been added. *)
Lemma batches_fold (raw : list formula)
      (G : list formula -> list FormulaSchema.Formula) :
  (forall a,
      on_batch analyze raw topics (G (firstn (a * batch_size) raw)) (a * batch_size)
      = G (firstn (a * batch_size + batch_size) raw)) ->
  forall m a,
    fold_left (on_batch analyze raw topics)
              (map (fun k => k * batch_size) (seq a m))
              (G (firstn (a * batch_size) raw))
    = G (firstn ((a + m) * batch_size) raw).
Proof.
  intros Hstep. induction m as [|m IH]; intros a; simpl.
  - now rewrite Nat.add_0_r.
  - rewrite Hstep.
    replace (a * batch_size + batch_size) with (S a * batch_size)
      by (change batch_size with 5; lia).
    rewrite IH. do 2 f_equal. change batch_size with 5. lia.
Qed.

Lemma enhance_fold (raw : list formula)
      (G : list formula -> list FormulaSchema.Formula) :
  G [] = [] ->
  (forall a,
      on_batch analyze raw topics (G (firstn (a * batch_size) raw)) (a * batch_size)
      = G (firstn (a * batch_size + batch_size) raw)) ->
  _enhance_formulas_with_ai analyze raw topics = G raw.
Proof.
  intros Hnil Hstep. unfold _enhance_formulas_with_ai, range_step.
  pose proof (batches_fold raw G Hstep ((length raw + batch_size - 1) / batch_size) 0)
    as H.
  simpl firstn in H at 1. rewrite Hnil in H. rewrite H.
  rewrite firstn_all2; [reflexivity|].
  change batch_size with 5.
  pose proof (Nat.div_mod_eq (length raw + 5 - 1) 5).
  assert ((length raw + 5 - 1) mod 5 < 5) by (apply Nat.mod_upper_bound; lia).
  lia.
Qed.

(** X16.  [_enhance_formulas_with_ai] hands every pattern formula to
    the analyzer once, in batches that keep the order: when the
    analyzer answers every batch with one formula [g f] for each
    dictionary [f] of the batch, the result is [g] of every dictionary
    of the list, in the order of the list. *)
Theorem enhance_one_answer_each (raw : list formula)
        (g : formula -> FormulaSchema.Formula) :
  (forall i batch, analyze i batch topics = Some (map g batch)) ->
  _enhance_formulas_with_ai analyze raw topics = map g raw.
Proof.
  intros Hg. apply (enhance_fold raw (map g)); [reflexivity|].
  intros a. unfold on_batch. rewrite Hg.
  rewrite firstn_plus, map_app. reflexivity.
Qed.

(** X17.  When every call of the analyzer raises, [extract_formulas]
    still returns one formula for each formula that the patterns
    find, in their order: it has the identifier, the LaTeX and the
    context of the pattern formula, the name [Formula k] for the
    [k]-th of them, the type equation, the first topic (or [unknown])
    and page 1. *)
Theorem formulas_survive_failing_analyzer (text : str) :
  (forall i batch, analyze i batch topics = None) ->
  exists raw,
    _extract_formulas_by_pattern text = Ok raw
    /\ extract_formulas analyze text topics = Ok (basic_formulas topics raw).
Proof.
  intros Hnone. unfold extract_formulas.
  destruct (candidates_ok text) as [cs Hcs].
  unfold _extract_formulas_by_pattern. rewrite Hcs. cbn [bind].
  eexists. split; [reflexivity|]. f_equal.
  apply (enhance_fold _ (basic_formulas topics)); [reflexivity|].
  intros a. unfold on_batch. rewrite Hnone, fallback_indexed.
  unfold basic_formulas at 3.
  rewrite firstn_plus, indexed_app, map_app. f_equal.
  unfold basic_formulas. now rewrite length_map, indexed_length, Nat.add_0_l.
Qed.

End Facts.

Lemma enhance_one_answer_each_witness :
  _enhance_formulas_with_ai
    (fun _ batch _ => Some (map (basic_formula [] 0) batch)) seven []
  = map (basic_formula [] 0) seven.
Proof.
  apply (@enhance_one_answer_each
           (fun _ batch _ => Some (map (basic_formula [] 0) batch)) []).
  intros i batch. reflexivity.
Defined.

Lemma formulas_survive_failing_analyzer_witness :
  exists raw,
    _extract_formulas_by_pattern (U := BasicLatin) Props.law = Ok raw
    /\ extract_formulas (U := BasicLatin) (fun _ _ _ => None) Props.law []
       = Ok (basic_formulas [] raw).
Proof.
  apply (@formulas_survive_failing_analyzer BasicLatin (fun _ _ _ => None) []).
  intros i batch. reflexivity.
Defined.

End EnhanceFacts.
